(** * Blk: command execution and the client session lifecycle

    A shallow embedding of two files of the Blk client:

    - [src/blk/sim/controllers/fpscontroller.js]
      ([blk.sim.controllers.FpsController.prototype.executeCommand]), in
      [Module Sim];
    - [src/blk/game/client/clientgame.js] ([blk.game.client.ClientGame]),
      in [Module Client].

    Both are JavaScript.  The fragment of the language they rely on
    (truthiness, loose equality against a string literal, property reads,
    free identifiers, exceptions that keep the effects made before the
    throw) is in [Module JS]. *)

From stdpp Require Import gmap strings list pretty.
From Stdlib Require Import ZArith Lia.

#[local] Set Warnings "-register-all".
Local Open Scope Z_scope.

(* ===================================================================== *)
(** * The JavaScript fragment *)
(* ===================================================================== *)

Module JS.

(** JavaScript values.  Numbers are the integral ones (ports, bit masks,
    ids); [NaN], infinities and fractions do not occur in the code below.
    A plain object is its list of own properties. *)
Inductive JsVal : Type :=
| JsUndefined
| JsNull
| JsBool (b : bool)
| JsNum (n : Z)
| JsStr (s : string)
| JsArr (xs : list JsVal)
| JsObj (props : list (string * JsVal)).

(** ECMAScript [ToBoolean]: what [if (v)] and [v || w] test. *)
Definition ToBoolean (v : JsVal) : bool :=
  match v with
  | JsUndefined | JsNull => false
  | JsBool b => b
  | JsNum n => negb (Z.eqb n 0)
  | JsStr s => negb (String.eqb s "")
  | JsArr _ | JsObj _ => true
  end.

(** [v || w]. *)
Definition js_or (v w : JsVal) : JsVal := if ToBoolean v then v else w.

Definition join_with (sep : string) (parts : list string) : string :=
  match parts with
  | [] => ""
  | p :: ps => fold_left (fun acc q => acc +:+ sep +:+ q) ps p
  end.

(** ECMAScript [ToString]; an array is the comma-join of its elements
    ([undefined] and [null] elements print as nothing), a plain object is
    [[object Object]]. *)
Fixpoint ToString (v : JsVal) : string :=
  match v with
  | JsUndefined => "undefined"
  | JsNull => "null"
  | JsBool true => "true"
  | JsBool false => "false"
  | JsNum n => pretty n
  | JsStr s => s
  | JsArr xs =>
      join_with ","
        (List.map (fun x => match x with
                            | JsUndefined | JsNull => ""
                            | _ => ToString x
                            end) xs)
  | JsObj _ => "[object Object]"
  end.

(** [v == ''] (abstract equality, ES5 11.9.3, against the empty string):
    [undefined] and [null] equal only each other; a number is compared with
    [ToNumber('') = 0]; a boolean is first turned into [0] or [1]; an object
    is first turned into its primitive, here its string. *)
Definition loose_eq_empty (v : JsVal) : bool :=
  match v with
  | JsUndefined | JsNull => false
  | JsBool b => negb b
  | JsNum n => Z.eqb n 0
  | JsStr s => String.eqb s ""
  | JsArr _ => String.eqb (ToString v) ""
  | JsObj _ => false
  end.

(** [v == 'save']: [ToNumber('save')] is [NaN], which equals no number, so
    only a string (or an object whose string is ['save']) can be equal. *)
Definition loose_eq_save (v : JsVal) : bool :=
  match v with
  | JsStr s => String.eqb s "save"
  | JsArr _ => String.eqb (ToString v) "save"
  | _ => false
  end.

Inductive JsError : Type :=
| ReferenceError (identifier : string)
| TypeError (message : string)
| URIError (message : string)
| AssertionError
| Raised (payload : JsVal).

(** Reading the free identifier [x] in a scope: a [ReferenceError] when
    nothing binds it. *)
Definition GetIdentifier (scope : gmap string JsVal) (x : string)
  : JsError + JsVal :=
  match scope !! x with
  | Some v => inr v
  | None => inl (ReferenceError x)
  end.

Fixpoint assoc (p : string) (props : list (string * JsVal)) : option JsVal :=
  match props with
  | [] => None
  | (k, v) :: rest => if String.eqb k p then Some v else assoc p rest
  end.

(** [v.p]: a [TypeError] on [undefined] and [null]; the own property of an
    object, else [undefined] (the primitives and arrays of this model have
    no property of the names read below). *)
Definition GetProperty (v : JsVal) (p : string) : JsError + JsVal :=
  match v with
  | JsUndefined | JsNull => inl (TypeError ("Cannot read property " +:+ p))
  | JsObj props => inr (default JsUndefined (assoc p props))
  | _ => inr JsUndefined
  end.

(** How a statement ends: normally, or by a throw.  Either way the state
    reached is kept: effects made before a throw are not undone. *)
Inductive Completion (S : Type) : Type :=
| Normal (s : S)
| Throw (e : JsError) (s : S).
Arguments Normal {S} s.
Arguments Throw {S} e s.

Definition state_of {S} (c : Completion S) : S :=
  match c with Normal s | Throw _ s => s end.

Definition thrown {S} (c : Completion S) : option JsError :=
  match c with Normal _ => None | Throw e _ => Some e end.

(** Sequencing of statements: a throw skips what follows. *)
Definition and_then {S} (c : Completion S) (k : S -> Completion S)
  : Completion S :=
  match c with
  | Normal s => k s
  | Throw e s => Throw e s
  end.

(** The same completion over a changed state. *)
Definition map_state {S T} (f : S -> T) (c : Completion S) : Completion T :=
  match c with
  | Normal s => Normal (f s)
  | Throw e s => Throw e (f s)
  end.

End JS.

(* ===================================================================== *)
(** * [blk.sim.controllers.FpsController] *)
(* ===================================================================== *)

Module Sim.
Import JS.

(** A [goog.vec.Quaternion.Float32]: four 32-bit floats, each kept as its
    bit pattern (the code only copies them). *)
Record Quaternion : Type := mkQuaternion { qx : Z; qy : Z; qz : Z; qw : Z }.

Record Vec3 : Type := mkVec3 { vx : Z; vy : Z; vz : Z }.

Definition EntityId := nat.
Definition ToolId := nat.

(** The commands a controller receives.
    [command instanceof blk.sim.commands.PlayerMoveCommand] holds of the
    first constructor only.  [viewRotation] is what [getQuaternion] writes
    to its out-parameter; [actions] is the [actions] property. *)
Inductive Command : Type :=
| PlayerMoveCommand (viewRotation : Quaternion) (actions : JsVal)
| OtherCommand (typeId : Z).

(** The target entity: its spatial state and the tool it holds
    ([getHeldTool()] is [null] when it holds none). *)
Record Entity : Type := mkEntity {
  position : Vec3;
  rotation : Quaternion;
  heldTool : option ToolId
}.

(** What the simulation holds while a command runs: the entities by id,
    the static scratch quaternion [FpsController.tmpQuat_], and the log of
    the [heldTool.use(command)] calls made so far (oldest first). *)
Record World : Type := mkWorld {
  entities : gmap EntityId Entity;
  tmpQuat_ : Quaternion;
  useLog : list (ToolId * Command)
}.

(** The controller: the id of its target, if any.  [getTarget()] reads the
    entity store at every call, so a target that is gone reads as [null]. *)
Record FpsController : Type := mkFpsController { target : option EntityId }.

Definition getTarget (c : FpsController) (w : World)
  : option (EntityId * Entity) :=
  match target c with
  | Some id =>
      match entities w !! id with
      | Some e => Some (id, e)
      | None => None
      end
  | None => None
  end.

Definition getHeldTool (id : EntityId) (w : World) : option ToolId :=
  match entities w !! id with
  | Some e => heldTool e
  | None => None
  end.

(** [command.getQuaternion(q)] with [q] the scratch quaternion. *)
Definition getQuaternion (viewRotation : Quaternion) (w : World) : World :=
  mkWorld (entities w) viewRotation (useLog w).

(** Modelled from the spec: [gf.sim.SpatialEntityState.prototype.setRotation]
    is not in the source tree; the target's orientation is replaced by the
    given value (a copy of it: the state does not keep the scratch object). *)
Definition setRotation (id : EntityId) (q : Quaternion) (w : World) : World :=
  mkWorld
    (alter (fun e => mkEntity (position e) q (heldTool e)) id (entities w))
    (tmpQuat_ w) (useLog w).

(** Modelled from the spec: the inherited [executeCommand] reached through
    [goog.base] is not in the source tree; the spec's execution algorithm
    has no step before the target is resolved, so it does nothing. *)
Definition Controller_executeCommand (command : Command) (w : World)
  : Completion World := Normal w.

(** The world a command leaves when the target is bound: the scratch
    quaternion and the target's rotation both hold the command's rotation. *)
Definition rotated (tid : EntityId) (q : Quaternion) (w : World) : World :=
  setRotation tid q (getQuaternion q w).

Section WithTools.

(** The held tool's [use] operation is the tool's own code.  It is given
    the tool and the command, may change any entity, and may throw; it
    cannot name the controller's private scratch quaternion. *)
Variable tool_use :
  ToolId -> Command -> gmap EntityId Entity -> Completion (gmap EntityId Entity).

(** [heldTool.use(command)]: the call is logged, then the tool runs. *)
Definition use (tool : ToolId) (command : Command) (w : World)
  : Completion World :=
  let logged := useLog w ++ [(tool, command)] in
  match tool_use tool command (entities w) with
  | Normal ents => Normal (mkWorld ents (tmpQuat_ w) logged)
  | Throw e ents => Throw e (mkWorld ents (tmpQuat_ w) logged)
  end.

(** [FpsController.prototype.executeCommand], fpscontroller.js 63-92. *)
Definition executeCommand (c : FpsController) (command : Command) (w : World)
  : Completion World :=
  and_then (Controller_executeCommand command w) (fun w =>
  match getTarget c w with
  | None => Normal w
  | Some (tid, _) =>
      match command with
      | PlayerMoveCommand viewRotation actions =>
          (* Set view rotation directly *)
          let w := getQuaternion viewRotation w in
          let w := setRotation tid (tmpQuat_ w) w in
          (* Execute the actions on the currently held tool *)
          if ToBoolean actions then
            match getHeldTool tid w with
            | Some tool => use tool command w
            | None => Normal w
            end
          else Normal w
      | OtherCommand _ => Normal w
      end
  end).

(** A sequence of commands, in order; a throw ends the sequence. *)
Fixpoint executeCommands (c : FpsController) (commands : list Command)
    (w : World) : Completion World :=
  match commands with
  | [] => Normal w
  | command :: rest =>
      and_then (executeCommand c command w) (executeCommands c rest)
  end.

(** The [use] calls a run added to the log. *)
Definition uses_added (before : World) (after : Completion World)
  : list (ToolId * Command) :=
  drop (length (useLog before)) (useLog (state_of after)).

End WithTools.

End Sim.

(* ===================================================================== *)
(** * [blk.game.client.ClientGame] *)
(* ===================================================================== *)

Module Client.
Import JS.

Definition DeferredId := nat.

(** [blk.game.client.UserSettings], the fields the game reads. *)
Record UserSettings : Type := mkUserSettings {
  mouseSensitivity : Z;
  mouseLock : bool;
  musicMuted : bool;
  soundFxMuted : bool;
  userName : string
}.

(** What a [goog.Uri] answers (Closure Library, outside the repository):
    [getScheme()] and [getDomain()] are strings, empty when the address has
    no such part; [getPort()] is a [?number], [null] when the address has
    no port; [toString()] is the address put together again. *)
Record Uri : Type := mkUri {
  getScheme : string;
  getDomain : string;
  getPort : option Z;
  toString : string
}.

(** The one terminal outcome of a [goog.async.Deferred]. *)
Inductive Settled : Type :=
| Callback (result : JsVal)
| Errback (arg : JsVal).

Inductive Screen : Type :=
| SplashScreen
| MainMenuScreen
| SettingsScreen (deferred : DeferredId)
| HelpScreen (deferred : DeferredId)
| GameScreen (session : JsVal).

Inductive ConnectorKind : Type := Remote | Local.

(** The trace: the calls the game makes on its collaborators, in order,
    together with the entries into its two connectors and the [errback]
    calls on the deferred of a connect attempt. *)
Inductive Event : Type :=
| ScreenManager_setScreen (screen : Screen)
| ScreenManager_pushScreen (screen : Screen)
| ScreenManager_popAllScreens
| ScreenManager_update (frame : JsVal)
| ScreenManager_render (frame : JsVal)
| GraphicsContext_setup (returned : DeferredId)
| RenderState_setup (returned : DeferredId)
| StartTicking
| StatusScreen_showError (location message : string) (arg : JsVal)
| StatusScreen_showConnecting (address : string) (returned : DeferredId)
| StatusScreen_showConnectionFailed (arg : JsVal)
| Deferred_cancel (deferred : DeferredId)
| ConnectDeferred_errback (arg : JsVal)
| InvokeConnector (kind : ConnectorKind) (uri : Uri)
| Net_connect (endpoint displayName : string) (returned : DeferredId)
| Log_write (message : string) (arg : option JsVal)
| PlayAmbient (cue : string)
| Display_toggleFullScreen
| Mouse_setSensitivity (value : Z)
| Mouse_setLockOnFocus (value : bool)
| Mouse_lock
| Mouse_unlock
| Input_setEnabled (value : bool)
| Music_setMuted (value : bool)
| Game_disposeInternal.

(** The callbacks the game leaves on a deferred that has not fired yet,
    one constructor per [addCallbacks]/[addCallback]/[addBoth] site. *)
Inductive Continuation : Type :=
| K_graphicsSetup                                   (* lines 291-302 *)
| K_renderSetup                                     (* lines 293-298 *)
| K_connect (address : string) (dialog : DeferredId) (* lines 571-590 *)
| K_settingsPopup                                   (* lines 483-490 *)
| K_helpPopup.                                      (* lines 504-507 *)

(** What surrounds the game and is not changed by it.
    - [globalScope]: the bindings of the global object, where the free
      identifiers of the code ([settings] at line 552, [buttonId] at line
      485) are looked up;
    - [goog_Uri]: what [new goog.Uri(address)] comes to: the parse, or
      the error the constructor throws (a [URIError] for an address with a
      malformed percent-escape);
    - [sanitizeDisplayName]: [gf.net.UserInfo.sanitizeDisplayName];
    - [graphicsContext_setup], [renderState_setup], [gf_net_connect]:
      whether the deferred such a call returns has already fired when it
      is returned ([Some] outcome) or is still to fire ([None]);
    - [ENABLE_ASSERTS]: [goog.asserts.ENABLE_ASSERTS]. *)
Record Env : Type := mkEnv {
  globalScope : gmap string JsVal;
  goog_Uri : string -> JsError + Uri;
  sanitizeDisplayName : JsVal -> string;
  graphicsContext_setup : option Settled;
  renderState_setup : option Settled;
  gf_net_connect : string -> string -> option Settled;
  ENABLE_ASSERTS : bool
}.

(** The game object.  [display_isFullScreen] and [mouse_supportsLocking]
    are fields of collaborators that the game only reads; [pending] holds
    the callbacks waiting on deferreds, [nextDeferred] names the next
    deferred to be handed out. *)
Record ClientGame : Type := mkClientGame {
  env : Env;
  settings : UserSettings;
  launchOptions_host : option string;
  inGame_ : bool;
  display_isFullScreen : bool;
  mouse_supportsLocking : bool;
  pending : gmap DeferredId Continuation;
  nextDeferred : DeferredId;
  trace : list Event
}.

Definition set_settings (s : UserSettings) (g : ClientGame) : ClientGame :=
  mkClientGame (env g) s (launchOptions_host g) (inGame_ g)
    (display_isFullScreen g) (mouse_supportsLocking g) (pending g)
    (nextDeferred g) (trace g).

Definition set_inGame_ (b : bool) (g : ClientGame) : ClientGame :=
  mkClientGame (env g) (settings g) (launchOptions_host g) b
    (display_isFullScreen g) (mouse_supportsLocking g) (pending g)
    (nextDeferred g) (trace g).

Definition set_pending (p : gmap DeferredId Continuation) (g : ClientGame)
  : ClientGame :=
  mkClientGame (env g) (settings g) (launchOptions_host g) (inGame_ g)
    (display_isFullScreen g) (mouse_supportsLocking g) p
    (nextDeferred g) (trace g).

Definition set_nextDeferred (n : DeferredId) (g : ClientGame) : ClientGame :=
  mkClientGame (env g) (settings g) (launchOptions_host g) (inGame_ g)
    (display_isFullScreen g) (mouse_supportsLocking g) (pending g)
    n (trace g).

Definition set_trace (t : list Event) (g : ClientGame) : ClientGame :=
  mkClientGame (env g) (settings g) (launchOptions_host g) (inGame_ g)
    (display_isFullScreen g) (mouse_supportsLocking g) (pending g)
    (nextDeferred g) t.

(** ** Statements *)

Definition Action : Type := ClientGame -> Completion ClientGame.

Definition skip : Action := Normal.

Definition seq (a b : Action) : Action := fun g => and_then (a g) b.

Notation "a >> b" := (seq a b) (at level 65, right associativity).

(** A call on a collaborator. *)
Definition emit (e : Event) : Action :=
  fun g => Normal (set_trace (trace g ++ [e]) g).

(** A call on a collaborator that returns a new deferred. *)
Definition emit_returning (e : DeferredId -> Event) (g : ClientGame)
  : DeferredId * ClientGame :=
  let d := nextDeferred g in
  (d, set_trace (trace g ++ [e d]) (set_nextDeferred (S d) g)).

(** Callbacks added to a deferred that has not fired. *)
Definition register (d : DeferredId) (k : Continuation) : Action :=
  fun g => Normal (set_pending (<[d := k]> (pending g)) g).

(** [d.addCallbacks(...)]: a deferred that has fired runs the callbacks at
    once, with its outcome; otherwise they wait for it. *)
Definition addCallbacks (returned : option Settled) (d : DeferredId)
    (k : Continuation) (run : Settled -> Action) : Action :=
  match returned with
  | Some o => run o
  | None => register d k
  end.

(** ** Methods *)

(** Lines 237-239. *)
Definition isInGame (g : ClientGame) : bool := inGame_ g.

(** Lines 246-266. *)
Definition refreshSettings_ : Action := fun g =>
  (emit (Mouse_setSensitivity (mouseSensitivity (settings g))) >>
   emit (Mouse_setLockOnFocus (mouseLock (settings g))) >>
   (if inGame_ g && mouseLock (settings g)
    then emit Mouse_lock else emit Mouse_unlock) >>
   emit (Music_setMuted (musicMuted (settings g)))) g.

(** Lines 165-167: the call of the base class's method, nothing else. *)
Definition disposeInternal : Action := emit Game_disposeInternal.

(** Lines 351-353. *)
Definition update (frame : JsVal) : Action :=
  emit (ScreenManager_update frame).

(** Lines 359-361. *)
Definition render (frame : JsVal) : Action :=
  emit (ScreenManager_render frame).

(** Lines 517-522. *)
Definition showErrorPopup (location message : string) (opt_arg : JsVal)
  : Action :=
  emit (StatusScreen_showError location message (js_or opt_arg JsNull)).

(** Lines 337-345. *)
Definition setupFailed_ (message : string) (arg : JsVal) : Action :=
  emit ScreenManager_popAllScreens >>
  showErrorPopup "setup" message arg.

(** Lines 367-371. *)
Definition playClick : Action := fun g =>
  if negb (soundFxMuted (settings g)) then emit (PlayAmbient "click") g
  else Normal g.

(** Lines 378-392. *)
Definition toggleFullscreen : Action := fun g =>
  (playClick >>
   (let goingFullScreen := negb (display_isFullScreen g) in
    emit Display_toggleFullScreen >>
    (if inGame_ g && goingFullScreen && mouse_supportsLocking g
        && mouseLock (settings g)
     then emit Mouse_lock else skip))) g.

(** [goog.asserts.assert(c)]. *)
Definition assert (c : ClientGame -> bool) : Action := fun g =>
  if ENABLE_ASSERTS (env g) && negb (c g) then Throw AssertionError g
  else Normal g.

(** Lines 412-418: the body after the assertion is commented out. *)
Definition pushSinglePlayerMenuScreen : Action :=
  assert (fun g => negb (isInGame g)).

(** Lines 424-430: the body after the assertion is commented out. *)
Definition pushMultiPlayerMenuScreen : Action :=
  assert (fun g => negb (isInGame g)).

(** Lines 436-442: the body after the assertion is commented out. *)
Definition pushCreateMapMenuScreen : Action :=
  assert (fun g => negb (isInGame g)).

(** Lines 728-731. *)
Definition enterGame_ : Action :=
  assert (fun g => negb (isInGame g)) >>
  (fun g => Normal (set_inGame_ true g)).

(** Lines 738-741. *)
Definition exitGame_ : Action :=
  assert isInGame >>
  (fun g => Normal (set_inGame_ false g)).

(** Lines 398-406. *)
Definition gotoMainMenuScreen : Action := fun g =>
  ((if isInGame g then exitGame_ else skip) >>
   emit (ScreenManager_setScreen MainMenuScreen)) g.

(** Lines 449-456. *)
Definition prePopup_ : Action :=
  playClick >>
  (fun g => if isInGame g then emit (Input_setEnabled false) g else Normal g).

(** Lines 463-470. *)
Definition postPopup_ : Action :=
  playClick >>
  (fun g => if isInGame g then emit (Input_setEnabled true) g else Normal g).

(** Lines 716-721. *)
Definition gotoGameScreen_ (session : JsVal) : Action :=
  enterGame_ >>
  emit (ScreenManager_setScreen (GameScreen session)).

(** ** Connecting (lines 529-591, 613-708) *)

(** The double quote character, for the messages that quote their subject. *)
Definition dquote : string := String (Ascii.ascii_of_nat 34) EmptyString.

(** The argument of the [errback] at line 544. *)
Definition InvalidAddress (address : string) : JsVal :=
  JsStr ("Invalid address format: " +:+ dquote +:+ address +:+ dquote).

(** The argument of the [errback] at line 566. *)
Definition UnsupportedScheme (scheme : string) : JsVal :=
  JsStr ("Unsupported scheme " +:+ dquote +:+ scheme +:+ dquote).

(** [uri.getPort()] as a JavaScript value. *)
Definition port_value (uri : Uri) : JsVal :=
  match getPort uri with
  | Some n => JsNum n
  | None => JsNull
  end.

(** Lines 539-542. *)
Definition validAddress (uri : Uri) : bool :=
  negb (String.eqb (getScheme uri) "")
  && negb (String.eqb (getDomain uri) "")
  && negb (loose_eq_empty (port_value uri)).

(** The expression [settings.userName] of line 552: [settings] is a free
    identifier there (the constructor's parameter of that name is out of
    scope, and the instance field is [this.settings]). *)
Definition settings_userName (scope : gmap string JsVal) : JsError + JsVal :=
  match GetIdentifier scope "settings" with
  | inl e => inl e
  | inr v => GetProperty v "userName"
  end.

(** The local [deferred] of a connect attempt: not fired (and nothing set
    to fire it), fired with an outcome, or chained behind the deferred of
    [gf.net.connect], which has not fired yet. *)
Inductive LocalDeferred : Type :=
| Unfired
| Fired (o : Settled)
| ChainedBehind (d : DeferredId).

(** Line 555. *)
Definition hasFired (deferred : LocalDeferred) : bool :=
  match deferred with
  | Fired _ => true
  | Unfired | ChainedBehind _ => false
  end.

(** Lines 698-708.  The auth token is a fresh empty one and the protocol
    version a constant; neither is recorded. *)
Definition connectToRemoteHost_ (uri : Uri) (displayName : string)
    (g : ClientGame) : LocalDeferred * ClientGame :=
  let g := set_trace (trace g ++ [InvokeConnector Remote uri]) g in
  let endpoint := toString uri in
  let '(connectDeferred, g) :=
    emit_returning (Net_connect endpoint displayName) g in
  (* connectDeferred.chainDeferred(deferred) *)
  match gf_net_connect (env g) endpoint displayName with
  | Some o => (Fired o, g)
  | None => (ChainedBehind connectDeferred, g)
  end.

(** Lines 613-686: the whole body is commented out. *)
Definition connectToLocalHost_ (uri : Uri) (displayName : string)
    (g : ClientGame) : LocalDeferred * ClientGame :=
  (Unfired, set_trace (trace g ++ [InvokeConnector Local uri]) g).

(** Lines 555-569. *)
Definition attemptConnection (uri : Uri) (displayName : string)
    (deferred : LocalDeferred) (g : ClientGame) : LocalDeferred * ClientGame :=
  if negb (hasFired deferred) then
    if String.eqb (getScheme uri) "ws" then
      connectToRemoteHost_ uri displayName g
    else if String.eqb (getScheme uri) "local" then
      connectToLocalHost_ uri displayName g
    else
      let arg := UnsupportedScheme (getScheme uri) in
      (Fired (Errback arg),
       set_trace (trace g ++ [ConnectDeferred_errback arg]) g)
  else (deferred, g).

(** Lines 572-579 and 579-590: the two callbacks of a connect attempt. *)
Definition connectSettled (address : string) (dialogDeferred : DeferredId)
    (o : Settled) : Action :=
  match o with
  | Callback session =>
      emit (Log_write ("Connection established to " +:+ address) None) >>
      (* Connection ready! *)
      emit (Deferred_cancel dialogDeferred) >>
      (* Start the game *)
      gotoGameScreen_ session
  | Errback arg =>
      emit (Log_write ("Error connecting to " +:+ address) (Some arg)) >>
      (* Connection failed *)
      emit (Deferred_cancel dialogDeferred) >>
      (* Show error dialog *)
      emit (StatusScreen_showConnectionFailed arg)
  end.

(** Lines 537-591: [connectToHost] from the parse of the address on. *)
Definition connectWith (address : string) (dialogDeferred : DeferredId)
    (uri : Uri) : Action := fun g =>
  let '(deferred, g) :=
    if negb (validAddress uri) then
      let arg := InvalidAddress address in
      (Fired (Errback arg),
       set_trace (trace g ++ [ConnectDeferred_errback arg]) g)
    else (Unfired, g) in
  (* Prepare auth/user info *)
  match settings_userName (globalScope (env g)) with
  | inl e => Throw e g
  | inr name =>
      let displayName := sanitizeDisplayName (env g) name in
      (* Attempt connection *)
      let '(deferred, g) := attemptConnection uri displayName deferred g in
      (* deferred.addCallbacks(...) *)
      match deferred with
      | Fired o => connectSettled address dialogDeferred o g
      | ChainedBehind d => register d (K_connect address dialogDeferred) g
      | Unfired => Normal g
      end
  end.

(** Lines 529-591.  [new goog.Uri(address)] may throw; the dialog has
    been shown by then. *)
Definition connectToHost (address : string) : Action := fun g =>
  (* Show the connecting dialog *)
  let '(dialogDeferred, g) :=
    emit_returning (StatusScreen_showConnecting address) g in
  (* Create a URI *)
  match goog_Uri (env g) address with
  | inl e => Throw e g
  | inr uri => connectWith address dialogDeferred uri g
  end.

(** ** Setup (lines 276-345) *)

(** Lines 312-328.  [this.launchOptions.host] is a string or absent; the
    empty string is falsy. *)
Definition setupSucceeded_ : Action :=
  emit ScreenManager_popAllScreens >>
  emit StartTicking >>
  (fun g =>
     match launchOptions_host g with
     | Some host =>
         if negb (String.eqb host "") then connectToHost host g
         else gotoMainMenuScreen g
     | None => gotoMainMenuScreen g
     end).

(** Lines 293-298: the callbacks on the deferred of [renderState_.setup()]. *)
Definition renderSetupSettled (o : Settled) : Action :=
  match o with
  | Callback _ => setupSucceeded_
  | Errback arg => setupFailed_ "Unable to setup graphics resources" arg
  end.

(** Lines 291-302: the callbacks on the deferred of
    [graphicsContext_.setup(attributes)]. *)
Definition graphicsSetupSettled (o : Settled) : Action :=
  match o with
  | Callback _ =>
      (* Graphics ready, setup render state *)
      fun g =>
        let '(d, g) := emit_returning RenderState_setup g in
        addCallbacks (renderState_setup (env g)) d K_renderSetup
          renderSetupSettled g
  | Errback arg =>
      (* Graphics failed *)
      setupFailed_ "Unable to create the graphics context" arg
  end.

(** Lines 276-305. *)
Definition beginSetup_ : Action :=
  (* Show the splash screen *)
  emit (ScreenManager_setScreen SplashScreen) >>
  (* Setup graphics *)
  (fun g =>
     let '(d, g) := emit_returning GraphicsContext_setup g in
     addCallbacks (graphicsContext_setup (env g)) d K_graphicsSetup
       graphicsSetupSettled g).

(** Lines 56-158: the constructor, as far as the fields above go. *)
Definition new_ClientGame (e : Env) (launchHost : option string)
    (s : UserSettings) (isFullScreen supportsLocking : bool)
  : Completion ClientGame :=
  beginSetup_
    (mkClientGame e s launchHost false isFullScreen supportsLocking ∅ 0%nat []).

(** ** Popups (lines 476-508) *)

(** Lines 484-490: the callback of the settings dialog.  Its parameter is
    [buttonid]; the condition reads [buttonId], a free identifier. *)
Definition settingsPopupCallback (buttonid : JsVal) : Action := fun g =>
  match GetIdentifier (globalScope (env g)) "buttonId" with
  | inl e => Throw e g
  | inr buttonId =>
      ((if loose_eq_save buttonId then refreshSettings_ else skip) >>
       postPopup_) g
  end.

(** Lines 476-491.  The dialog's deferred has not fired when the screen
    is pushed. *)
Definition showSettingsPopup : Action :=
  prePopup_ >>
  (fun g =>
     let '(d, g) :=
       emit_returning (fun d => ScreenManager_pushScreen (SettingsScreen d)) g in
     register d K_settingsPopup g).

(** Lines 497-508. *)
Definition showHelpPopup : Action :=
  prePopup_ >>
  (fun g =>
     let '(d, g) :=
       emit_returning (fun d => ScreenManager_pushScreen (HelpScreen d)) g in
     register d K_helpPopup g).

(** ** The game as a reactive system *)

(** Running the callbacks left on a deferred, with its outcome.
    [addCallback] (settings) leaves nothing to run on an error; [addBoth]
    (help) runs the same function on both outcomes. *)
Definition resume (k : Continuation) (o : Settled) : Action :=
  match k with
  | K_graphicsSetup => graphicsSetupSettled o
  | K_renderSetup => renderSetupSettled o
  | K_connect address dialog => connectSettled address dialog o
  | K_settingsPopup =>
      match o with
      | Callback buttonid => settingsPopupCallback buttonid
      | Errback _ => skip
      end
  | K_helpPopup => postPopup_
  end.

(** What reaches the game from outside: a deferred it waits on fires, or
    one of the methods this file defines without the private mark is
    called (by the game loop, a screen, a key handler or the base class).
    The getters and [isInGame] call nothing and write nothing, and are left
    out; so are the methods inherited from [gf.Game], which this file does
    not define. *)
Inductive Input : Type :=
| DeferredFired (d : DeferredId) (o : Settled)
| Call_toggleFullscreen
| Call_gotoMainMenuScreen
| Call_showSettingsPopup
| Call_showHelpPopup
| Call_connectToHost (address : string)
| Call_update (frame : JsVal)
| Call_render (frame : JsVal)
| Call_playClick
| Call_pushSinglePlayerMenuScreen
| Call_pushMultiPlayerMenuScreen
| Call_pushCreateMapMenuScreen
| Call_showErrorPopup (location message : string) (opt_arg : JsVal)
| Call_disposeInternal.

(** A deferred fires once: its callbacks are taken off [pending] and run. *)
Definition deliver (i : Input) : Action := fun g =>
  match i with
  | DeferredFired d o =>
      match pending g !! d with
      | Some k => resume k o (set_pending (delete d (pending g)) g)
      | None => Normal g
      end
  | Call_toggleFullscreen => toggleFullscreen g
  | Call_gotoMainMenuScreen => gotoMainMenuScreen g
  | Call_showSettingsPopup => showSettingsPopup g
  | Call_showHelpPopup => showHelpPopup g
  | Call_connectToHost address => connectToHost address g
  | Call_update frame => update frame g
  | Call_render frame => render frame g
  | Call_playClick => playClick g
  | Call_pushSinglePlayerMenuScreen => pushSinglePlayerMenuScreen g
  | Call_pushMultiPlayerMenuScreen => pushMultiPlayerMenuScreen g
  | Call_pushCreateMapMenuScreen => pushCreateMapMenuScreen g
  | Call_showErrorPopup location message opt_arg =>
      showErrorPopup location message opt_arg g
  | Call_disposeInternal => disposeInternal g
  end.

(** The game over a sequence of inputs.  An exception that escapes a
    handler ends that handler only; the game goes on from the state it left. *)
Fixpoint run (inputs : list Input) (g : ClientGame) : ClientGame :=
  match inputs with
  | [] => g
  | i :: rest => run rest (state_of (deliver i g))
  end.

(** ** Reading the trace *)

Definition is_RenderState_setup (e : Event) : bool :=
  match e with RenderState_setup _ => true | _ => false end.

Definition is_connector (e : Event) : bool :=
  match e with InvokeConnector _ _ | Net_connect _ _ _ => true | _ => false end.

Definition is_cancel_of (dialog : DeferredId) (e : Event) : bool :=
  match e with Deferred_cancel d => Nat.eqb d dialog | _ => false end.

Definition count (p : Event -> bool) (t : list Event) : nat :=
  length (List.filter p t).

(** The events a step added to the trace. *)
Definition added (before after : ClientGame) : list Event :=
  drop (length (trace before)) (trace after).

(** ** Relations between the game before and after a statement *)

(** A statement keeps [R] when [R] holds between the game it starts in
    and the game it ends in, however it ends. *)
Definition keeps (R : ClientGame -> ClientGame -> Prop) (a : Action) : Prop :=
  forall g, R g (state_of (a g)).

(** Between [g] and [g']: no [renderState_.setup()] was called, and no
    deferred started to wait with the callbacks of step 1. *)
Definition step2_quiet (g g' : ClientGame) : Prop :=
  count is_RenderState_setup (trace g') = count is_RenderState_setup (trace g)
  /\ forall d, pending g' !! d = Some K_graphicsSetup ->
               pending g !! d = Some K_graphicsSetup.

(** Calls that are neither step 2 of setup nor the cancellation of a
    dialog. *)
Definition plain (e : Event) : bool :=
  match e with
  | RenderState_setup _ | Deferred_cancel _ => false
  | _ => true
  end.

Definition is_popup (k : Continuation) : bool :=
  match k with
  | K_settingsPopup | K_helpPopup => true
  | _ => false
  end.

(** How many times the dialog [dialog] has been cancelled so far. *)
Definition cancels (dialog : DeferredId) (g : ClientGame) : nat :=
  count (is_cancel_of dialog) (trace g).

(** Deferreds are named in the order they are handed out, so:
    callbacks wait only on deferreds already handed out; the dialog of a
    connect attempt that still waits for its outcome has been handed out
    and not been cancelled; a dialog not handed out yet has not been
    cancelled; and no two waiting attempts share a dialog. *)
Definition well_formed (g : ClientGame) : Prop :=
  (forall d k, pending g !! d = Some k -> (d < nextDeferred g)%nat)
  /\ (forall d a dl,
        pending g !! d = Some (K_connect a dl) ->
        (dl < nextDeferred g)%nat /\ cancels dl g = 0%nat)
  /\ (forall dl, (nextDeferred g <= dl)%nat -> cancels dl g = 0%nat)
  /\ (forall d1 d2 a1 a2 dl,
        pending g !! d1 = Some (K_connect a1 dl) ->
        pending g !! d2 = Some (K_connect a2 dl) -> d1 = d2).

(** From a well-formed game [g] to [g']: [g'] is well formed; what was
    handed out in [g] is as it was (its waiting callbacks, the number of
    cancellations of its dialogs); a connect attempt that waits on a
    deferred handed out since has a dialog handed out since. *)
Definition mild (g g' : ClientGame) : Prop :=
  well_formed g ->
  well_formed g'
  /\ (nextDeferred g <= nextDeferred g')%nat
  /\ (forall dl, (dl < nextDeferred g)%nat -> cancels dl g' = cancels dl g)
  /\ (forall d, (d < nextDeferred g)%nat -> pending g' !! d = pending g !! d)
  /\ (forall d a dl,
        (nextDeferred g <= d)%nat ->
        pending g' !! d = Some (K_connect a dl) ->
        (nextDeferred g <= dl)%nat).

(** [g] is [g0] after plain calls, [n] of which returned a deferred. *)
Definition plainly (g0 g : ClientGame) (n : nat) : Prop :=
  pending g = pending g0
  /\ nextDeferred g = (nextDeferred g0 + n)%nat
  /\ forall dl, cancels dl g = cancels dl g0.

(** A connect attempt with dialog [dl] waits on [d] for its outcome. *)
Definition awaiting (d : DeferredId) (a : string) (dl : DeferredId)
    (g : ClientGame) : Prop :=
  well_formed g /\ pending g !! d = Some (K_connect a dl).

(** The connect attempt with dialog [dl] has had its outcome: the dialog
    was cancelled once and no callbacks are left that would cancel it. *)
Definition settled (dl : DeferredId) (g : ClientGame) : Prop :=
  well_formed g
  /\ (dl < nextDeferred g)%nat
  /\ (forall d a, pending g !! d <> Some (K_connect a dl))
  /\ cancels dl g = 1%nat.

(** ** What the handlers add to the trace *)

(** The calls that surface a setup failure. *)
Definition setup_error (message : string) (arg : JsVal) : list Event :=
  [ScreenManager_popAllScreens;
   StatusScreen_showError "setup" message (js_or arg JsNull)].

(** The display name a call of [gf.net.connect] was given. *)
Definition displayName_of (e : Event) : option string :=
  match e with
  | Net_connect _ name _ => Some name
  | _ => None
  end.

(** What the callbacks of a connect attempt do first: log the outcome,
    cancel the dialog. *)
Definition cancel_events (address : string) (dialog : DeferredId)
    (o : Settled) : list Event :=
  [match o with
   | Callback _ => Log_write ("Connection established to " +:+ address) None
   | Errback arg => Log_write ("Error connecting to " +:+ address) (Some arg)
   end;
   Deferred_cancel dialog].

(** The game once the callbacks of a connect attempt have logged the
    outcome and cancelled the dialog, and before they do anything else. *)
Definition dialog_cancelled (address : string) (dialog d : DeferredId)
    (o : Settled) (g : ClientGame) : ClientGame :=
  set_trace (trace g ++ cancel_events address dialog o)
    (set_pending (delete d (pending g)) g).

(** The calls that make the transition after a connect attempt. *)
Definition transition_events (o : Settled) (g : ClientGame) : list Event :=
  match o with
  | Callback session =>
      if ENABLE_ASSERTS (env g) && inGame_ g then []
      else [ScreenManager_setScreen (GameScreen session)]
  | Errback arg => [StatusScreen_showConnectionFailed arg]
  end.

(** The game once [connectToHost] has shown the dialog. *)
Definition dialog_shown (address : string) (g : ClientGame) : ClientGame :=
  set_trace
    (trace g ++ [StatusScreen_showConnecting address (nextDeferred g)])
    (set_nextDeferred (S (nextDeferred g)) g).

(** The game once [connectToHost] has shown the dialog and entered the
    remote connector, which called [gf.net.connect]. *)
Definition connect_sent (address : string) (uri : Uri) (name : JsVal)
    (g : ClientGame) : ClientGame :=
  set_trace
    (trace g ++
     [StatusScreen_showConnecting address (nextDeferred g);
      InvokeConnector Remote uri;
      Net_connect (toString uri) (sanitizeDisplayName (env g) name)
        (S (nextDeferred g))])
    (set_nextDeferred (S (S (nextDeferred g))) g).

End Client.

(* ===================================================================== *)
(** * Concrete games *)
(* ===================================================================== *)

Module Samples.
Import JS Sim Client.

(** ** Worlds *)

(** A tool whose [use] changes nothing. *)
Definition idle_tool (tool : Sim.ToolId) (command : Sim.Command)
    (ents : gmap EntityId Entity) : Completion (gmap EntityId Entity) :=
  Normal ents.

Definition origin : Vec3 := mkVec3 0 0 0.
Definition q_identity : Quaternion := mkQuaternion 0 0 0 1065353216.
Definition q_turned : Quaternion :=
  mkQuaternion 0 1060439283 0 1060439283.

(** Entity 1 holds tool 7; entity 2 holds nothing. *)
Definition sample_world : World :=
  mkWorld
    (<[1%nat := mkEntity origin q_identity (Some 7%nat)]>
       (<[2%nat := mkEntity origin q_identity None]> ∅))
    q_identity [].

Definition armed : FpsController := mkFpsController (Some 1%nat).
Definition unarmed : FpsController := mkFpsController (Some 2%nat).
Definition unbound : FpsController := mkFpsController None.

Definition two_actions : Command :=
  PlayerMoveCommand q_turned (JsArr [JsNum 1; JsNum 2]).
Definition no_actions : Command := PlayerMoveCommand q_turned (JsArr []).

(** ** Games *)

(** The parse [new goog.Uri(address)] makes of the addresses used
    below. *)
Definition sample_Uri (address : string) : Uri :=
  if String.eqb address "ws://host.example:80" then
    mkUri "ws" "host.example" (Some 80) address
  else if String.eqb address "ws://host.example" then
    mkUri "ws" "host.example" None address
  else if String.eqb address "ws://" then
    mkUri "ws" "" None "ws:"
  else if String.eqb address "local://blk-0:1" then
    mkUri "local" "blk-0" (Some 1) address
  else if String.eqb address "ftp://host.example:21" then
    mkUri "ftp" "host.example" (Some 21) address
  else mkUri "" "" None address.

(** [new goog.Uri(address)]: the constructor decodes the parts of the
    address and throws on a malformed percent-escape. *)
Definition sample_goog_Uri (address : string) : JsError + Uri :=
  if String.eqb address "ws://%zz:80" then inl (URIError "URI malformed")
  else inr (sample_Uri address).

Definition sample_sanitize (name : JsVal) : string :=
  match name with
  | JsStr s => s
  | _ => "User"
  end.

(** A global object that binds neither [settings] nor [buttonId]: the
    repository defines no global of either name. *)
Definition bare_scope : gmap string JsVal := ∅.

(** A global object in which something else bound both names. *)
Definition crowded_scope : gmap string JsVal :=
  <["settings" := JsObj [("userName", JsStr "guest")]]>
    (<["buttonId" := JsStr "cancel"]> ∅).

(** A global object in which [buttonId] is bound to ['save']. *)
Definition saving_scope : gmap string JsVal :=
  <["buttonId" := JsStr "save"]> ∅.

(** Setup and connections resolve later, not during the call. *)
Definition sample_env (scope : gmap string JsVal) : Env :=
  mkEnv scope sample_goog_Uri sample_sanitize None None (fun _ _ => None) true.

Definition sample_settings : UserSettings :=
  mkUserSettings 1 true false false "ben".

(** The game right after construction, waiting for step 1 of setup. *)
Definition launched (scope : gmap string JsVal) : ClientGame :=
  state_of (new_ClientGame (sample_env scope) None sample_settings false true).

(** The game at the main menu: both setup steps succeeded. *)
Definition at_menu (scope : gmap string JsVal) : ClientGame :=
  run [DeferredFired 0%nat (Callback JsUndefined);
       DeferredFired 1%nat (Callback JsUndefined)] (launched scope).

(** The game at the main menu with the settings dialog open; the
    dialog's deferred is deferred 2. *)
Definition settings_open (scope : gmap string JsVal) : ClientGame :=
  run [Call_showSettingsPopup] (at_menu scope).

(** The game at the main menu with a connection to
    [ws://host.example:80] under way: the dialog is deferred 2, the
    connection's deferred is deferred 3. *)
Definition connecting : ClientGame :=
  run [Call_connectToHost "ws://host.example:80"] (at_menu crowded_scope).

End Samples.

(* ===================================================================== *)
(** * Readers of runs *)
(* ===================================================================== *)

Module SimReadings.
Import JS Sim.

(** The rotation the commands of a sequence ask for, from [q0]: that of
    the last [PlayerMoveCommand], if there is one. *)
Definition last_rotation (commands : list Command) (q0 : Quaternion)
  : Quaternion :=
  fold_left
    (fun q command =>
       match command with
       | PlayerMoveCommand viewRotation _ => viewRotation
       | OtherCommand _ => q
       end)
    commands q0.

End SimReadings.

Module ClientReadings.
Import JS Client.

(** The sound [playClick] makes in [g], if any. *)
Definition click (g : ClientGame) : list Event :=
  if soundFxMuted (settings g) then [] else [PlayAmbient "click"].

(** What the input manager was last told by [setEnabled]. *)
Definition input_enabled (t : list Event) : option bool :=
  fold_left
    (fun last e => match e with Input_setEnabled b => Some b | _ => last end)
    t None.

(** The screen last given to [screenManager_.setScreen]. *)
Definition last_screen (t : list Event) : option Screen :=
  fold_left
    (fun last e =>
       match e with ScreenManager_setScreen s => Some s | _ => last end)
    t None.

Definition is_GameScreen (s : option Screen) : bool :=
  match s with Some (GameScreen _) => true | _ => false end.

(** The in-game flag agrees with the screen last set. *)
Definition in_sync (g : ClientGame) : Prop :=
  inGame_ g = is_GameScreen (last_screen (trace g)).

Definition is_StartTicking (e : Event) : bool :=
  match e with StartTicking => true | _ => false end.

Definition is_popAllScreens (e : Event) : bool :=
  match e with ScreenManager_popAllScreens => true | _ => false end.

Definition is_setup (k : Continuation) : bool :=
  match k with K_graphicsSetup | K_renderSetup => true | _ => false end.

(** The calls that mark the course of a launch and of a session: a
    screen set, all screens popped, a setup step called, ticking started. *)
Definition lifecycle (e : Event) : bool :=
  match e with
  | ScreenManager_setScreen _ | ScreenManager_popAllScreens
  | GraphicsContext_setup _ | RenderState_setup _ | StartTicking => true
  | _ => false
  end.

Definition is_Mouse_lock (e : Event) : bool :=
  match e with Mouse_lock => true | _ => false end.

(** The calls that neither mark the course of the game nor lock the
    mouse. *)
Definition incidental (e : Event) : bool :=
  negb (lifecycle e) && negb (is_Mouse_lock e).

Definition is_setScreen (e : Event) : bool :=
  match e with ScreenManager_setScreen _ => true | _ => false end.

(** From [g] to [g']: if the flag agreed with the screen, it still does. *)
Definition stays_in_sync (g g' : ClientGame) : Prop :=
  in_sync g -> in_sync g'.

(** Reading a trace for the screen last set and for the calls of
    [mouse.lock()] made while that screen was not a game screen. *)
Definition watch_step (seen : option Screen * nat) (e : Event)
  : option Screen * nat :=
  match e with
  | ScreenManager_setScreen s => (Some s, seen.2)
  | Mouse_lock => (seen.1, if is_GameScreen seen.1 then seen.2 else S seen.2)
  | _ => seen
  end.

Definition watch (t : list Event) : option Screen * nat :=
  fold_left watch_step t (None, 0%nat).

Definition locks_outside_game (t : list Event) : nat := (watch t).2.

(** The flag agrees with the screen, and the mouse was never locked
    outside a game screen. *)
Definition guarded (g : ClientGame) : Prop :=
  in_sync g /\ locks_outside_game (trace g) = 0%nat.

Definition stays_guarded (g g' : ClientGame) : Prop :=
  guarded g -> guarded g'.

(** How many times setup has ended.  [setupSucceeded_] (line 314) and
    [setupFailed_] (line 339) both start with
    [screenManager_.popAllScreens()], and no other method calls it; the
    error popup is no such mark, [showErrorPopup] being public. *)
Definition setup_ends (g : ClientGame) : nat :=
  count is_popAllScreens (trace g).

(** How many times [startTicking()] has been called. *)
Definition ticking_starts (g : ClientGame) : nat :=
  count is_StartTicking (trace g).

(** Callbacks of a setup step wait on [d]. *)
Definition setup_waits (d : DeferredId) (g : ClientGame) : Prop :=
  exists k, pending g !! d = Some k /\ is_setup k = true.

(** Between [g] and [g']: setup did not end, ticking was not started, and
    no deferred started to wait with the callbacks of a setup step. *)
Definition setup_quiet (g g' : ClientGame) : Prop :=
  setup_ends g' = setup_ends g
  /\ ticking_starts g' = ticking_starts g
  /\ forall d k, is_setup k = true ->
       pending g' !! d = Some k -> pending g !! d = Some k.

(** Setup has not ended, ticking has not started and no callbacks of a
    setup step wait: the game when a setup step is about to be called or
    has just had its outcome. *)
Definition setup_between (g : ClientGame) : Prop :=
  setup_ends g = 0%nat /\ ticking_starts g = 0%nat
  /\ forall d, ~ setup_waits d g.

(** Setup has not ended, ticking has not started, and callbacks of a setup
    step wait on at most one deferred. *)
Definition setup_under_way (g : ClientGame) : Prop :=
  setup_ends g = 0%nat /\ ticking_starts g = 0%nat
  /\ forall d1 d2, setup_waits d1 g -> setup_waits d2 g -> d1 = d2.

(** Setup has ended, at most once, ticking was started at most then, and
    no callbacks of a setup step wait. *)
Definition setup_over (g : ClientGame) : Prop :=
  (setup_ends g <= 1)%nat /\ (ticking_starts g <= setup_ends g)%nat
  /\ forall d, ~ setup_waits d g.

(** Setup has ended in [setupFailed_]: once, and without ticking. *)
Definition setup_failed (g : ClientGame) : Prop :=
  setup_ends g = 1%nat /\ ticking_starts g = 0%nat
  /\ forall d, ~ setup_waits d g.

Definition setup_phase (g : ClientGame) : Prop :=
  setup_under_way g \/ setup_over g.

(** The dialog [dl] has been handed out and no callbacks wait that would
    cancel it. *)
Definition orphaned (dl : DeferredId) (g : ClientGame) : Prop :=
  well_formed g
  /\ (dl < nextDeferred g)%nat
  /\ forall d a, pending g !! d <> Some (K_connect a dl).

(** The calls [connectToHost] makes when it rejects an address by
    itself, with [arg] the reason. *)
Definition rejection_events (address : string) (dialog : DeferredId)
    (arg : JsVal) : list Event :=
  [StatusScreen_showConnecting address dialog;
   ConnectDeferred_errback arg;
   Log_write ("Error connecting to " +:+ address) (Some arg);
   Deferred_cancel dialog;
   StatusScreen_showConnectionFailed arg].

(** The game once [connectToHost] has shown the dialog and made [calls]. *)
Definition connect_left (address : string) (calls : list Event)
    (g : ClientGame) : ClientGame :=
  set_trace
    (trace g ++ StatusScreen_showConnecting address (nextDeferred g) :: calls)
    (set_nextDeferred (S (nextDeferred g)) g).

(** The calls [connectToHost] makes between showing the dialog and an
    error that ends it: none when [new goog.Uri(address)] throws; when the
    error is that of [settings.userName], the [errback] for an address that
    failed validation. *)
Definition calls_before_error (address : string) (g : ClientGame)
  : list Event :=
  match goog_Uri (env g) address with
  | inl _ => []
  | inr uri =>
      if validAddress uri then []
      else [ConnectDeferred_errback (InvalidAddress address)]
  end.

(** Between [g] and [g']: no dialog was cancelled. *)
Definition same_cancels (g g' : ClientGame) : Prop :=
  forall dl, cancels dl g' = cancels dl g.

(** Between [g] and [g']: no dialog was cancelled more than once. *)
Definition cancel_once (g g' : ClientGame) : Prop :=
  forall dl, (cancels dl g' <= cancels dl g + 1)%nat.

(** The game when both setup steps have succeeded and ticking has
    started, before the launch target is looked at. *)
Definition ready (e : Env) (host : option string) (s : UserSettings)
    (isFullScreen supportsLocking : bool) : ClientGame :=
  mkClientGame e s host false isFullScreen supportsLocking ∅ 2%nat
    [ScreenManager_setScreen SplashScreen;
     GraphicsContext_setup 0%nat;
     RenderState_setup 1%nat;
     ScreenManager_popAllScreens;
     StartTicking].

(** The outcomes of the setup steps that have to arrive as inputs: those
    of the steps whose deferred had not fired when it was returned. *)
Definition setup_outcomes (e : Env) (o1 o2 : Settled) : list Input :=
  match graphicsContext_setup e with
  | None => [DeferredFired 0%nat o1]
  | Some _ => []
  end ++
  match renderState_setup e with
  | None => [DeferredFired 1%nat o2]
  | Some _ => []
  end.

End ClientReadings.

Module MoreSamples.
Import JS Sim Client Samples.

(** A command that is not a [PlayerMoveCommand]. *)
Definition other_command : Command := OtherCommand 3.

Definition q_back : Quaternion := mkQuaternion 0 1065353216 0 0.

(** A game in progress: the connection of [connecting] was established. *)
Definition playing : ClientGame :=
  run [DeferredFired 3%nat (Callback (JsStr "session"))] connecting.

End MoreSamples.


(* ===================================================================== *)
(** * Facts about [Sim.executeCommand] *)
(* ===================================================================== *)

Module SimFacts.
Import JS Sim Samples.

Section WithTools.

Variable tool_use :
  ToolId -> Command -> gmap EntityId Entity -> Completion (gmap EntityId Entity).

Abbreviation executeCommand := (Sim.executeCommand tool_use).
Abbreviation executeCommands := (Sim.executeCommands tool_use).


Lemma getHeldTool_rotated tid q w :
  getHeldTool tid (rotated tid q w) = getHeldTool tid w.
Proof.
  unfold getHeldTool, rotated, setRotation, getQuaternion; simpl.
  rewrite lookup_alter_eq. by destruct (entities w !! tid).
Qed.

Lemma executeCommand_unbound c command w :
  getTarget c w = None -> executeCommand c command w = Normal w.
Proof. intros H. unfold Sim.executeCommand; simpl. by rewrite H. Qed.

Lemma executeCommand_move c tid e q actions w :
  getTarget c w = Some (tid, e) ->
  executeCommand c (PlayerMoveCommand q actions) w =
    if ToBoolean actions then
      match heldTool e with
      | Some tool =>
          use tool_use tool (PlayerMoveCommand q actions) (rotated tid q w)
      | None => Normal (rotated tid q w)
      end
    else Normal (rotated tid q w).
Proof.
  intros H. unfold Sim.executeCommand; simpl. rewrite H.
  destruct (ToBoolean actions); [|done].
  change (setRotation tid _ (getQuaternion q w)) with (rotated tid q w).
  rewrite getHeldTool_rotated. unfold getHeldTool.
  unfold getTarget in H. destruct (target c) as [id|]; [|done].
  destruct (entities w !! id) as [e'|] eqn:E; [|done].
  injection H as -> ->. by rewrite E.
Qed.

Lemma uses_added_use tool command w0 w :
  useLog w = useLog w0 ->
  uses_added w0 (use tool_use tool command w) = [(tool, command)].
Proof.
  intros H. unfold uses_added, use.
  destruct (tool_use tool command (entities w)); simpl;
    rewrite H, drop_app_length; done.
Qed.

Lemma uses_added_none w0 w :
  useLog w = useLog w0 -> uses_added w0 (Normal w) = [].
Proof.
  intros H. unfold uses_added; simpl. rewrite H. apply drop_all.
Qed.

(** One command against two worlds that hold the same entities: the
    scratch quaternion is written before it is read and the log is only
    appended to, so neither shows in the entities reached. *)
Lemma executeCommand_same_entities c command w1 w2 :
  entities w1 = entities w2 ->
  let r1 := executeCommand c command w1 in
  let r2 := executeCommand c command w2 in
  thrown r1 = thrown r2
  /\ entities (state_of r1) = entities (state_of r2)
  /\ exists l, useLog (state_of r1) = useLog w1 ++ l
               /\ useLog (state_of r2) = useLog w2 ++ l.
Proof.
  intros H. cbv zeta.
  assert (Same : forall v1 v2 : World, entities v1 = entities v2 ->
            useLog v1 = useLog w1 -> useLog v2 = useLog w2 ->
            thrown (Normal v1) = thrown (Normal v2)
            /\ entities (state_of (Normal v1)) = entities (state_of (Normal v2))
            /\ exists l, useLog (state_of (Normal v1)) = useLog w1 ++ l
                         /\ useLog (state_of (Normal v2)) = useLog w2 ++ l).
  { intros v1 v2 He H1 H2. split; [done|]. split; [done|].
    exists []. simpl. by rewrite H1, H2, !app_nil_r. }
  unfold Sim.executeCommand, getTarget; simpl. rewrite <- H.
  destruct (target c) as [id|]; [|by apply Same].
  destruct (entities w1 !! id) as [e|] eqn:E; [|by apply Same].
  destruct command as [q actions|]; [|by apply Same].
  assert (Hr : entities (setRotation id q (getQuaternion q w1)) =
               entities (setRotation id q (getQuaternion q w2))).
  { unfold setRotation, getQuaternion; simpl. by rewrite H. }
  simpl. destruct (ToBoolean actions); [|by apply Same].
  unfold getHeldTool. rewrite <- Hr.
  destruct (entities (setRotation id q (getQuaternion q w1)) !! id) as [e'|];
    [|by apply Same].
  destruct (heldTool e') as [tool|]; [|by apply Same].
  unfold use. rewrite <- Hr.
  destruct (tool_use tool (PlayerMoveCommand q actions) _); simpl;
    (split; [done|]); (split; [done|]); by eexists.
Qed.

Lemma executeCommand_throw_from_tool c command w e :
  thrown (executeCommand c command w) = Some e ->
  exists tool ents, thrown (tool_use tool command ents) = Some e.
Proof.
  unfold Sim.executeCommand, getTarget; simpl.
  destruct (target c) as [id|]; [|done].
  destruct (entities w !! id); [|done].
  destruct command as [q actions|]; [|done].
  destruct (ToBoolean actions); [|done].
  destruct (getHeldTool _ _) as [tool|]; [|done].
  unfold use. intros H. exists tool. eexists.
  destruct (tool_use tool (PlayerMoveCommand q actions) _) eqn:E;
    [done|]. simpl in H. rewrite E. exact H.
Qed.

(** ** The claims *)

(** C2 (as amended): a [PlayerMoveCommand] executed by a controller whose
    bound target holds a tool invokes the tool's [use] once for the whole
    command when the command's [actions] value is truthy, and not at all
    when it is falsy; the invocation receives the command.  For a list of
    actions that is one invocation whatever the length of the list. *)
Theorem executeCommand_uses_tool_once_per_command
    c tid e tool q actions w :
  getTarget c w = Some (tid, e) ->
  heldTool e = Some tool ->
  uses_added w (executeCommand c (PlayerMoveCommand q actions) w) =
    (if ToBoolean actions then [(tool, PlayerMoveCommand q actions)] else [])
  /\ (forall l, actions = JsArr l ->
        uses_added w (executeCommand c (PlayerMoveCommand q actions) w) =
          [(tool, PlayerMoveCommand q actions)]).
Proof.
  intros Ht Hh.
  assert (G : uses_added w (executeCommand c (PlayerMoveCommand q actions) w) =
    (if ToBoolean actions then [(tool, PlayerMoveCommand q actions)] else [])).
  { rewrite (executeCommand_move _ _ _ _ _ _ Ht), Hh.
    destruct (ToBoolean actions).
    - by apply uses_added_use.
    - by apply uses_added_none. }
  split; [exact G|]. intros l ->. exact G.
Qed.

(** C5: a command never makes [executeCommand] throw by itself.  With no
    bound target the world is left as it was.  With a bound target that
    holds no tool the command's rotation is written to the target, the
    target's position and (absent) tool are kept, every other entity is
    kept, and [use] is not invoked.  A throw, if any, is the held tool's. *)
Theorem executeCommand_absorbs_stale_commands c command w :
  (getTarget c w = None -> executeCommand c command w = Normal w)
  /\ (forall tid e,
        getTarget c w = Some (tid, e) -> heldTool e = None ->
        exists w',
          executeCommand c command w = Normal w'
          /\ uses_added w (Normal w') = []
          /\ match command with
             | PlayerMoveCommand q _ =>
                 entities w' =
                   <[tid := mkEntity (position e) q None]> (entities w)
             | OtherCommand _ => w' = w
             end)
  /\ (forall err,
        thrown (executeCommand c command w) = Some err ->
        exists tool ents, thrown (tool_use tool command ents) = Some err).
Proof.
  split; [apply executeCommand_unbound|].
  split; [|apply executeCommand_throw_from_tool].
  intros tid e Ht Hh. destruct command as [q actions|].
  - exists (rotated tid q w).
    rewrite (executeCommand_move _ _ _ _ _ _ Ht), Hh.
    split; [by destruct (ToBoolean actions)|].
    split; [by apply uses_added_none|].
    unfold rotated, setRotation, getQuaternion; simpl.
    unfold getTarget in Ht. destruct (target c) as [id|]; [|done].
    destruct (entities w !! id) as [e'|] eqn:E; [|done].
    injection Ht as -> ->.
    apply map_eq; intros i. destruct (decide (tid = i)) as [->|Hne].
    + by rewrite lookup_alter_eq, lookup_insert_eq, E, <- Hh.
    + by rewrite lookup_alter_ne, lookup_insert_ne.
  - exists w. unfold Sim.executeCommand; simpl. rewrite Ht.
    split; [done|]. split; [by apply uses_added_none|done].
Qed.

Lemma executeCommands_same_entities c commands : forall w1 w2,
  entities w1 = entities w2 ->
  let r1 := executeCommands c commands w1 in
  let r2 := executeCommands c commands w2 in
  thrown r1 = thrown r2
  /\ entities (state_of r1) = entities (state_of r2)
  /\ exists l, useLog (state_of r1) = useLog w1 ++ l
               /\ useLog (state_of r2) = useLog w2 ++ l.
Proof.
  induction commands as [|command rest IH]; intros w1 w2 H; cbv zeta.
  - split; [done|]. split; [done|]. exists []. by rewrite !app_nil_r.
  - simpl.
    destruct (executeCommand_same_entities c command w1 w2 H)
      as (Ht & He & l & L1 & L2).
    destruct (executeCommand c command w1) as [w1'|e1 w1'],
             (executeCommand c command w2) as [w2'|e2 w2'];
      simpl in *; try discriminate Ht.
    + destruct (IH w1' w2' He) as (Ht' & He' & l' & L1' & L2').
      split; [done|]. split; [done|]. exists (l ++ l').
      by rewrite L1', L2', L1, L2, !app_assoc.
    + split; [done|]. split; [done|]. by exists l.
Qed.

(** C7: what a sequence of commands does is a function of the starting
    entities and the sequence alone.  Two runs from copies of the same
    starting entities, whatever the scratch quaternion and the invocation
    log hold at the start of each, end alike (normally, or by the same
    throw at the same command), with the same entities and after the same
    invocations of tools. *)
Theorem executeCommands_deterministic c commands ents q1 q2 log1 log2 :
  let w1 := mkWorld ents q1 log1 in
  let w2 := mkWorld ents q2 log2 in
  let r1 := executeCommands c commands w1 in
  let r2 := executeCommands c commands w2 in
  entities (state_of r1) = entities (state_of r2)
  /\ thrown r1 = thrown r2
  /\ uses_added w1 r1 = uses_added w2 r2.
Proof.
  cbv zeta.
  destruct (executeCommands_same_entities c commands
              (mkWorld ents q1 log1) (mkWorld ents q2 log2) eq_refl)
    as (Ht & He & l & L1 & L2).
  split; [exact He|]. split; [exact Ht|].
  unfold uses_added. rewrite L1, L2. simpl.
  by rewrite !drop_app_length.
Qed.

End WithTools.

(** ** Concrete runs *)

Example two_actions_one_use :
  uses_added sample_world (executeCommand idle_tool armed two_actions sample_world)
  = [(7%nat, two_actions)].
Proof. reflexivity. Qed.

Example empty_action_list_one_use :
  uses_added sample_world (executeCommand idle_tool armed no_actions sample_world)
  = [(7%nat, no_actions)].
Proof. reflexivity. Qed.

(** The same with [actions] a bit mask: two bits set, one [use]; no
    bit set, none. *)
Example two_action_bits_one_use :
  uses_added sample_world
    (executeCommand idle_tool armed (PlayerMoveCommand q_turned (JsNum 3))
       sample_world)
  = [(7%nat, PlayerMoveCommand q_turned (JsNum 3))].
Proof. reflexivity. Qed.

Example no_action_bit_no_use :
  uses_added sample_world
    (executeCommand idle_tool armed (PlayerMoveCommand q_turned (JsNum 0))
       sample_world)
  = [].
Proof. reflexivity. Qed.

(** C2, as stated, fails: it asks for one [use] per action of the list. *)
Lemma executeCommand_not_once_per_action :
  ~ (forall tool_use c tid e tool q (l : list JsVal) w,
       getTarget c w = Some (tid, e) ->
       heldTool e = Some tool ->
       uses_added w
         (Sim.executeCommand tool_use c (PlayerMoveCommand q (JsArr l)) w) =
       List.map (fun _ => (tool, PlayerMoveCommand q (JsArr l))) l).
Proof.
  intros H.
  specialize (H idle_tool armed 1%nat
                (mkEntity origin q_identity (Some 7%nat)) 7%nat q_turned
                [JsNum 1; JsNum 2] sample_world eq_refl eq_refl).
  discriminate H.
Qed.

Lemma executeCommand_uses_tool_once_per_command_witness :
  getTarget armed sample_world =
    Some (1%nat, mkEntity origin q_identity (Some 7%nat))
  /\ heldTool (mkEntity origin q_identity (Some 7%nat)) = Some 7%nat
  /\ uses_added sample_world
       (Sim.executeCommand idle_tool armed two_actions sample_world) =
     [(7%nat, two_actions)].
Proof.
  split; [reflexivity|]. split; [reflexivity|].
  exact (proj1 (executeCommand_uses_tool_once_per_command idle_tool armed
                  1%nat (mkEntity origin q_identity (Some 7%nat)) 7%nat
                  q_turned (JsArr [JsNum 1; JsNum 2]) sample_world
                  eq_refl eq_refl)).
Defined.

Lemma executeCommand_absorbs_stale_commands_witness :
  getTarget unbound sample_world = None
  /\ Sim.executeCommand idle_tool unbound two_actions sample_world =
     Normal sample_world
  /\ getTarget unarmed sample_world =
       Some (2%nat, mkEntity origin q_identity None)
  /\ heldTool (mkEntity origin q_identity None) = None
  /\ exists w',
       Sim.executeCommand idle_tool unarmed two_actions sample_world = Normal w'
       /\ uses_added sample_world (Normal w') = []
       /\ entities w' =
            <[2%nat := mkEntity origin q_turned None]> (entities sample_world).
Proof.
  split; [reflexivity|].
  split; [exact (proj1 (executeCommand_absorbs_stale_commands idle_tool
                          unbound two_actions sample_world) eq_refl)|].
  split; [reflexivity|]. split; [reflexivity|].
  exact (proj1 (proj2 (executeCommand_absorbs_stale_commands idle_tool
                         unarmed two_actions sample_world))
           2%nat (mkEntity origin q_identity None) eq_refl eq_refl).
Defined.

Example unarmed_target_is_rotated :
  (entities (state_of (Sim.executeCommand idle_tool unarmed two_actions sample_world)))
    !! 2%nat = Some (mkEntity origin q_turned None)
  /\ useLog (state_of (Sim.executeCommand idle_tool unarmed two_actions sample_world))
     = [].
Proof. split; reflexivity. Qed.

End SimFacts.

(* ===================================================================== *)
(** * Facts about [Client] *)
(* ===================================================================== *)

Module ClientFacts.
Import JS Client Samples.

(** ** Frames: what a statement leaves alone *)

(** Reading [this] before a statement: decide the branch, then go on. *)
Ltac at_game g refl :=
  intros g; cbv beta;
  repeat match goal with
         | |- context [if ?c then _ else _] => destruct c
         end;
  try match goal with
      | |- ?R g (state_of (Normal g)) => apply refl
      | |- ?R g (state_of (?a g)) =>
          cut (keeps R a); [let Hq := fresh in intros Hq; exact (Hq g)|]
      end.

Create HintDb frames.

Section Frames.

(** A relation between the game before and after a statement that holds
    across sequencing, plain calls, assertions, assignments to the in-game
    flag, and a popup pushed with its callbacks left waiting. *)
Variable R : ClientGame -> ClientGame -> Prop.
Hypothesis R_refl : forall g, R g g.
Hypothesis R_trans : forall g1 g2 g3, R g1 g2 -> R g2 g3 -> R g1 g3.
Hypothesis R_emit : forall e, plain e = true -> keeps R (emit e).
Hypothesis R_assert : forall c, keeps R (assert c).
Hypothesis R_set_inGame_ : forall b, keeps R (fun g => Normal (set_inGame_ b g)).
Hypothesis R_popup : forall (screen : DeferredId -> Screen) k,
  is_popup k = true ->
  keeps R (fun g =>
             let '(d, g) :=
               emit_returning (fun d => ScreenManager_pushScreen (screen d)) g in
             register d k g).

#[local] Set Default Proof Using "All".

Lemma keeps_skip : keeps R skip.
Proof. intros g. apply R_refl. Qed.

Lemma keeps_seq a b : keeps R a -> keeps R b -> keeps R (a >> b).
Proof.
  intros Ha Hb g. unfold seq. specialize (Ha g).
  destruct (a g) as [g1|e g1]; simpl in *; [|done].
  eapply R_trans; [exact Ha|apply Hb].
Qed.

#[local] Hint Resolve keeps_seq keeps_skip R_assert R_set_inGame_ : frames.
#[local] Hint Extern 1 (keeps _ (emit _)) =>
  (apply R_emit; reflexivity) : frames.

Lemma keeps_refreshSettings_ : keeps R refreshSettings_.
Proof. unfold refreshSettings_. at_game g R_refl; auto 10 with frames. Qed.

Lemma keeps_showErrorPopup l m a : keeps R (showErrorPopup l m a).
Proof. unfold showErrorPopup. auto with frames. Qed.

Lemma keeps_setupFailed_ m a : keeps R (setupFailed_ m a).
Proof. unfold setupFailed_. auto using keeps_showErrorPopup with frames. Qed.

Lemma keeps_playClick : keeps R playClick.
Proof. unfold playClick. at_game g R_refl; auto with frames. Qed.

Lemma keeps_toggleFullscreen : keeps R toggleFullscreen.
Proof.
  unfold toggleFullscreen.
  at_game g R_refl; auto 10 using keeps_playClick with frames.
Qed.

Lemma keeps_enterGame_ : keeps R enterGame_.
Proof. unfold enterGame_. auto with frames. Qed.

Lemma keeps_exitGame_ : keeps R exitGame_.
Proof. unfold exitGame_. auto with frames. Qed.

Lemma keeps_gotoMainMenuScreen : keeps R gotoMainMenuScreen.
Proof.
  unfold gotoMainMenuScreen.
  at_game g R_refl; auto using keeps_exitGame_ with frames.
Qed.

Lemma keeps_popup_input b :
  keeps R (fun g => if isInGame g then emit (Input_setEnabled b) g
                    else Normal g).
Proof. at_game g R_refl; auto with frames. Qed.

Lemma keeps_prePopup_ : keeps R prePopup_.
Proof.
  unfold prePopup_. auto using keeps_playClick, keeps_popup_input with frames.
Qed.

Lemma keeps_postPopup_ : keeps R postPopup_.
Proof.
  unfold postPopup_. auto using keeps_playClick, keeps_popup_input with frames.
Qed.

Lemma keeps_gotoGameScreen_ session : keeps R (gotoGameScreen_ session).
Proof. unfold gotoGameScreen_. auto using keeps_enterGame_ with frames. Qed.

Lemma keeps_settingsPopupCallback v : keeps R (settingsPopupCallback v).
Proof.
  intros g. unfold settingsPopupCallback.
  destruct (GetIdentifier _ _) as [e|b]; [apply R_refl|].
  destruct (loose_eq_save b);
    apply keeps_seq;
    auto using keeps_refreshSettings_, keeps_postPopup_ with frames.
Qed.

Lemma keeps_showSettingsPopup : keeps R showSettingsPopup.
Proof.
  unfold showSettingsPopup. apply keeps_seq; [apply keeps_prePopup_|].
  by apply (R_popup SettingsScreen).
Qed.

Lemma keeps_showHelpPopup : keeps R showHelpPopup.
Proof.
  unfold showHelpPopup. apply keeps_seq; [apply keeps_prePopup_|].
  by apply (R_popup HelpScreen).
Qed.

(** The public methods other than [connectToHost]. *)
Lemma keeps_public i :
  match i with
  | DeferredFired _ _ | Call_connectToHost _ => False
  | _ => True
  end ->
  keeps R (deliver i).
Proof.
  destruct i; intros H; try (by destruct H); intros g; simpl.
  - apply keeps_toggleFullscreen.
  - apply keeps_gotoMainMenuScreen.
  - apply keeps_showSettingsPopup.
  - apply keeps_showHelpPopup.
  - by apply R_emit.
  - by apply R_emit.
  - apply keeps_playClick.
  - apply R_assert.
  - apply R_assert.
  - apply R_assert.
  - apply keeps_showErrorPopup.
  - by apply R_emit.
Qed.

End Frames.

Lemma count_app p t1 t2 : count p (t1 ++ t2) = (count p t1 + count p t2)%nat.
Proof. unfold count. by rewrite List.filter_app, length_app. Qed.

Lemma added_app g t : added g (set_trace (trace g ++ t) g) = t.
Proof. unfold added; simpl. apply drop_app_length. Qed.

Lemma plain_not_step2 e : plain e = true -> is_RenderState_setup e = false.
Proof. by destruct e. Qed.

Lemma plain_not_cancel e dl : plain e = true -> is_cancel_of dl e = false.
Proof. by destruct e. Qed.

(** ** Step 2 of setup stays uninvoked *)

Lemma step2_quiet_refl g : step2_quiet g g.
Proof. by split. Qed.

Lemma step2_quiet_trans g1 g2 g3 :
  step2_quiet g1 g2 -> step2_quiet g2 g3 -> step2_quiet g1 g3.
Proof. intros [H1 K1] [H2 K2]. split; [congruence|]. auto. Qed.

Abbreviation quiet := (keeps step2_quiet).

Lemma quiet_emit e : is_RenderState_setup e = false -> quiet (emit e).
Proof.
  intros He g. split; simpl; [|done].
  rewrite count_app. unfold count at 2; simpl. rewrite He. simpl. lia.
Qed.

Lemma quiet_plain e : plain e = true -> quiet (emit e).
Proof. intros He. by apply quiet_emit, plain_not_step2. Qed.

Lemma quiet_register d k : k <> K_graphicsSetup -> quiet (register d k).
Proof.
  intros Hk g. split; simpl; [done|]. intros d'.
  destruct (decide (d = d')) as [->|Hne].
  - rewrite lookup_insert_eq. congruence.
  - by rewrite lookup_insert_ne.
Qed.

Lemma quiet_assert c : quiet (assert c).
Proof.
  intros g. unfold assert.
  destruct (_ && _); apply step2_quiet_refl.
Qed.

Lemma quiet_set_inGame_ b : quiet (fun g => Normal (set_inGame_ b g)).
Proof. intros g. by split. Qed.

(** A state that differs by events that are not step 2 and by nothing
    in [pending]. *)
Ltac quiet_now :=
  split; simpl; [rewrite ?count_app; unfold count; simpl; lia|done].

Lemma quiet_popup (screen : DeferredId -> Screen) k :
  is_popup k = true ->
  quiet (fun g =>
           let '(d, g) :=
             emit_returning (fun d => ScreenManager_pushScreen (screen d)) g in
           register d k g).
Proof.
  intros Hk g. unfold emit_returning. cbv zeta.
  eapply step2_quiet_trans; [|apply quiet_register; by destruct k]. quiet_now.
Qed.

(** The frame lemmas at [step2_quiet]. *)
Abbreviation quietly L :=
  (L step2_quiet step2_quiet_refl step2_quiet_trans quiet_plain quiet_assert
     quiet_set_inGame_ quiet_popup).

Lemma quiet_seq a b : quiet a -> quiet b -> quiet (a >> b).
Proof. apply (quietly keeps_seq). Qed.

Lemma quiet_connectSettled address dialog o :
  quiet (connectSettled address dialog o).
Proof.
  destruct o; simpl;
    (apply quiet_seq; [by apply quiet_emit|]);
    (apply quiet_seq; [by apply quiet_emit|]);
    [apply (quietly keeps_gotoGameScreen_)|by apply quiet_emit].
Qed.

Lemma quiet_attemptConnection uri dn deferred g :
  step2_quiet g (attemptConnection uri dn deferred g).2.
Proof.
  unfold attemptConnection, connectToRemoteHost_, connectToLocalHost_,
    emit_returning.
  destruct (negb (hasFired deferred)); [|apply step2_quiet_refl].
  destruct (String.eqb (getScheme uri) "ws").
  - simpl. destruct (gf_net_connect _ _ _); quiet_now.
  - destruct (String.eqb (getScheme uri) "local"); quiet_now.
Qed.

Lemma quiet_connectWith address dialog uri :
  quiet (connectWith address dialog uri).
Proof.
  intros g. unfold connectWith. cbv zeta.
  assert (Settle : forall deferred g2 g3,
            step2_quiet g g2 -> step2_quiet g2 g3 ->
            step2_quiet g
              (state_of
                 match deferred with
                 | Unfired => Normal g3
                 | Fired o => connectSettled address dialog o g3
                 | ChainedBehind d =>
                     register d (K_connect address dialog) g3
                 end)).
  { intros deferred g2 g3 H2 H3.
    eapply step2_quiet_trans; [exact H2|].
    eapply step2_quiet_trans; [exact H3|].
    destruct deferred as [|o|d].
    - apply step2_quiet_refl.
    - apply quiet_connectSettled.
    - apply quiet_register. discriminate. }
  destruct (negb (validAddress uri)).
  - set (g2 := set_trace _ g).
    assert (H2 : step2_quiet g g2) by (subst g2; quiet_now).
    simpl env. destruct (settings_userName _) as [e|name]; [exact H2|].
    pose proof (quiet_attemptConnection uri
                  (sanitizeDisplayName (env g) name)
                  (Fired (Errback (InvalidAddress address))) g2) as H3.
    destruct (attemptConnection _ _ _ g2) as [deferred g3].
    by apply (Settle deferred g2 g3).
  - destruct (settings_userName _) as [e|name]; [apply step2_quiet_refl|].
    pose proof (quiet_attemptConnection uri
                  (sanitizeDisplayName (env g) name) Unfired g) as H3.
    destruct (attemptConnection _ _ _ g) as [deferred g3].
    apply (Settle deferred g g3); [apply step2_quiet_refl|exact H3].
Qed.

Lemma quiet_connectToHost address : quiet (connectToHost address).
Proof.
  intros g. unfold connectToHost, emit_returning. cbv zeta.
  set (g1 := set_trace _ _).
  assert (H1 : step2_quiet g g1) by (subst g1; quiet_now).
  destruct (goog_Uri (env g1) address) as [e|uri]; [exact H1|].
  eapply step2_quiet_trans; [exact H1|apply quiet_connectWith].
Qed.

Lemma quiet_setupSucceeded_ : quiet setupSucceeded_.
Proof.
  unfold setupSucceeded_. apply quiet_seq; [by apply quiet_emit|].
  apply quiet_seq; [by apply quiet_emit|].
  intros g. destruct (launchOptions_host g) as [host|].
  - destruct (negb _);
      [apply quiet_connectToHost|apply (quietly keeps_gotoMainMenuScreen)].
  - apply (quietly keeps_gotoMainMenuScreen).
Qed.

Lemma quiet_renderSetupSettled o : quiet (renderSetupSettled o).
Proof.
  destruct o; simpl;
    [apply quiet_setupSucceeded_|apply (quietly keeps_setupFailed_)].
Qed.

(** The callbacks of step 1 are the only ones to invoke step 2, and
    only on success. *)
Lemma quiet_resume k o :
  (k = K_graphicsSetup -> exists arg, o = Errback arg) ->
  quiet (resume k o).
Proof.
  intros Hk. destruct k; simpl.
  - destruct (Hk eq_refl) as [arg ->]. apply (quietly keeps_setupFailed_).
  - apply quiet_renderSetupSettled.
  - apply quiet_connectSettled.
  - destruct o; [apply (quietly keeps_settingsPopupCallback)|].
    intros g. apply step2_quiet_refl.
  - apply (quietly keeps_postPopup_).
Qed.

Lemma quiet_deliver i g :
  (forall d v, i = DeferredFired d (Callback v) ->
               pending g !! d <> Some K_graphicsSetup) ->
  step2_quiet g (state_of (deliver i g)).
Proof.
  intros Hi. destruct i as [d o| | | | |address|frame|frame| | | | |location message opt_arg|]; simpl.
  - destruct (pending g !! d) as [k|] eqn:E; [|apply step2_quiet_refl].
    eapply step2_quiet_trans; [|apply quiet_resume].
    + split; simpl; [done|]. intros d'.
      destruct (decide (d = d')) as [->|Hne].
      * by rewrite lookup_delete_eq.
      * by rewrite lookup_delete_ne.
    + intros ->. destruct o as [v|arg]; [|by eexists].
      by destruct (Hi d v eq_refl).
  - apply (quietly keeps_toggleFullscreen).
  - apply (quietly keeps_gotoMainMenuScreen).
  - apply (quietly keeps_showSettingsPopup).
  - apply (quietly keeps_showHelpPopup).
  - apply quiet_connectToHost.
  - by apply (quietly keeps_public (Call_update frame)).
  - by apply (quietly keeps_public (Call_render frame)).
  - by apply (quietly keeps_public Call_playClick).
  - by apply (quietly keeps_public Call_pushSinglePlayerMenuScreen).
  - by apply (quietly keeps_public Call_pushMultiPlayerMenuScreen).
  - by apply (quietly keeps_public Call_pushCreateMapMenuScreen).
  - by apply (quietly keeps_public
                (Call_showErrorPopup location message opt_arg)).
  - by apply (quietly keeps_public Call_disposeInternal).
Qed.

(** Over a whole run: while the deferreds that carry the callbacks of
    step 1 are among [P] and none of them fires with success, step 2 is
    not invoked. *)
Lemma run_quiet (P : DeferredId -> Prop) inputs : forall g,
  (forall d, pending g !! d = Some K_graphicsSetup -> P d) ->
  (forall d v, P d -> DeferredFired d (Callback v) ∉ inputs) ->
  count is_RenderState_setup (trace (run inputs g)) =
  count is_RenderState_setup (trace g).
Proof.
  induction inputs as [|i rest IH]; intros g HP Hin; [done|].
  simpl. destruct (quiet_deliver i g) as [Hc Hp].
  - intros d v -> Hd. apply (Hin d v (HP d Hd)). left.
  - rewrite IH, Hc; [done|by auto|].
    intros d v Hd Hr. apply (Hin d v Hd). by right.
Qed.


Lemma setupFailed__eq message arg g :
  setupFailed_ message arg g =
  Normal (set_trace (trace g ++ setup_error message arg) g).
Proof.
  unfold setupFailed_, showErrorPopup, seq, emit, setup_error; simpl.
  by rewrite <- app_assoc.
Qed.

Lemma deliver_nothing_waiting d o g :
  pending g !! d = None -> deliver (DeferredFired d o) g = Normal g.
Proof. intros H. simpl. by rewrite H. Qed.

(** C1: step 2 of setup ([renderState_.setup()]) is invoked only after
    the deferred of step 1 ([graphicsContext_.setup]) fired with success.
    - While step 2 has not been invoked and [d] alone carries the callbacks
      of step 1, no sequence of inputs in which [d] does not fire with
      success gets step 2 invoked.
    - If [d] fires with failure, the game ends its handler normally, having
      cleared all screens and shown the setup error and nothing else; the
      in-game flag is as before, nothing is left waiting on [d] (were it to
      fire again, nothing would happen), and step 2 is not invoked by any
      later input.
    - A launch starts in such a state.  With step 1 still to fire, the
      splash screen is set, step 1 is called and its callbacks wait on
      deferred 0; once that fails, no callbacks wait on anything, so no
      deferred that fires changes the game.  With step 1 already failed,
      the error is surfaced during construction and, again, nothing waits
      and step 2 is never invoked.  Only with step 1 already succeeded is
      step 2 called during construction. *)
Theorem setup_step2_only_after_step1_succeeded :
  (forall g d inputs,
     count is_RenderState_setup (trace g) = 0%nat ->
     (forall d', pending g !! d' = Some K_graphicsSetup -> d' = d) ->
     (forall v, DeferredFired d (Callback v) ∉ inputs) ->
     count is_RenderState_setup (trace (run inputs g)) = 0%nat)
  /\ (forall g d arg,
        count is_RenderState_setup (trace g) = 0%nat ->
        (forall d', pending g !! d' = Some K_graphicsSetup -> d' = d) ->
        pending g !! d = Some K_graphicsSetup ->
        exists g1,
          deliver (DeferredFired d (Errback arg)) g = Normal g1
          /\ added g g1 =
               setup_error "Unable to create the graphics context" arg
          /\ inGame_ g1 = inGame_ g
          /\ pending g1 = delete d (pending g)
          /\ (forall o, deliver (DeferredFired d o) g1 = Normal g1)
          /\ forall inputs,
               count is_RenderState_setup (trace (run inputs g1)) = 0%nat)
  /\ (forall e host s fs sl,
        let g0 := state_of (new_ClientGame e host s fs sl) in
        match graphicsContext_setup e with
        | None =>
            new_ClientGame e host s fs sl = Normal g0
            /\ trace g0 = [ScreenManager_setScreen SplashScreen;
                           GraphicsContext_setup 0%nat]
            /\ pending g0 = {[0%nat := K_graphicsSetup]}
            /\ inGame_ g0 = false
            /\ forall arg d o,
                 let g1 :=
                   state_of (deliver (DeferredFired 0%nat (Errback arg)) g0) in
                 pending g1 = ∅
                 /\ inGame_ g1 = false
                 /\ deliver (DeferredFired d o) g1 = Normal g1
        | Some (Errback arg) =>
            new_ClientGame e host s fs sl = Normal g0
            /\ trace g0 = [ScreenManager_setScreen SplashScreen;
                           GraphicsContext_setup 0%nat]
                          ++ setup_error
                               "Unable to create the graphics context" arg
            /\ pending g0 = ∅
            /\ inGame_ g0 = false
            /\ (forall d o, deliver (DeferredFired d o) g0 = Normal g0)
            /\ forall inputs,
                 count is_RenderState_setup (trace (run inputs g0)) = 0%nat
        | Some (Callback _) =>
            new_ClientGame e host s fs sl =
            addCallbacks (renderState_setup e) 1%nat K_renderSetup
              renderSetupSettled
              (mkClientGame e s host false fs sl ∅ 2%nat
                 [ScreenManager_setScreen SplashScreen;
                  GraphicsContext_setup 0%nat;
                  RenderState_setup 1%nat])
        end).
Proof.
  split; [|split].
  - intros g d inputs H0 Hd Hin.
    rewrite (run_quiet (fun d' => d' = d)); [done|done|].
    intros d' v ->. apply Hin.
  - intros g d arg H0 Honly Hd. simpl. rewrite Hd. simpl.
    rewrite setupFailed__eq. eexists. split; [reflexivity|].
    split; [apply (added_app (set_pending _ g))|].
    split; [done|]. split; [done|].
    split; [intros o; apply deliver_nothing_waiting, lookup_delete_eq|].
    intros inputs. rewrite (run_quiet (fun _ => False)).
    + simpl. rewrite count_app, H0. reflexivity.
    + simpl. intros d'. destruct (decide (d = d')) as [->|Hne].
      * by rewrite lookup_delete_eq.
      * rewrite lookup_delete_ne by done. intros H. by destruct (Honly d' H).
    + by intros.
  - intros e host s fs sl. unfold new_ClientGame, beginSetup_, seq; simpl.
    destruct (graphicsContext_setup e) as [[v|arg]|]; simpl.
    + reflexivity.
    + rewrite setupFailed__eq. simpl.
      split; [done|]. split; [done|]. split; [done|]. split; [done|].
      split; [intros d o; by rewrite lookup_empty|].
      intros inputs. rewrite (run_quiet (fun _ => False)); [done| |by intros].
      simpl. intros d. by rewrite lookup_empty.
    + unfold emit_returning, register; simpl. rewrite insert_empty.
      split; [done|]. split; [done|]. split; [done|]. split; [done|].
      intros arg d o. rewrite lookup_singleton_eq. simpl.
      rewrite delete_singleton_eq.
      split; [done|]. split; [done|]. by rewrite lookup_empty.
Qed.

Lemma added_trace g g' t : trace g' = trace g ++ t -> added g g' = t.
Proof. intros H. unfold added. rewrite H. apply drop_app_length. Qed.

(** ** The in-game flag *)

(** C9: [toggleFullscreen], [prePopup_] and [postPopup_] end normally and
    leave the flag read by [isInGame()] as it was, whatever it was; so do
    the two methods that show a popup. *)
Theorem isInGame_kept_by_fullscreen_and_popups g :
  (exists g', toggleFullscreen g = Normal g' /\ isInGame g' = isInGame g)
  /\ (exists g', prePopup_ g = Normal g' /\ isInGame g' = isInGame g)
  /\ (exists g', postPopup_ g = Normal g' /\ isInGame g' = isInGame g)
  /\ (exists g', showSettingsPopup g = Normal g' /\ isInGame g' = isInGame g)
  /\ (exists g', showHelpPopup g = Normal g' /\ isInGame g' = isInGame g).
Proof.
  unfold toggleFullscreen, showSettingsPopup, showHelpPopup, prePopup_,
    postPopup_, playClick, seq, emit, skip, register, emit_returning, isInGame.
  destruct (soundFxMuted (settings g)), (inGame_ g) eqn:E,
    (display_isFullScreen g), (mouse_supportsLocking g),
    (mouseLock (settings g)); simpl; rewrite ?E; simpl;
    repeat split; eexists; (split; [reflexivity|simpl; try done]).
Qed.

(** ** The free identifier [settings] *)

Lemma connectSettled_set_settings s' address dialog o g :
  connectSettled address dialog o (set_settings s' g) =
  map_state (set_settings s') (connectSettled address dialog o g).
Proof.
  destruct o; unfold connectSettled, gotoGameScreen_, enterGame_, assert,
    seq, emit, isInGame; simpl; [|done].
  by destruct (ENABLE_ASSERTS (env g)), (inGame_ g).
Qed.

Lemma connectToHost_parsed g address uri :
  goog_Uri (env g) address = inr uri ->
  connectToHost address g =
  connectWith address (nextDeferred g) uri (dialog_shown address g).
Proof.
  intros H. unfold connectToHost, emit_returning. cbv zeta. simpl env.
  by rewrite H.
Qed.

Lemma connectToHost_unparsed g address e :
  goog_Uri (env g) address = inl e ->
  connectToHost address g = Throw e (dialog_shown address g).
Proof.
  intros H. unfold connectToHost, emit_returning. cbv zeta. simpl env.
  by rewrite H.
Qed.

(** C10 (as amended): a call of [connectToHost] evaluates
    [settings.userName], with [settings] a free identifier, whenever
    [new goog.Uri(address)] returns, whether or not the address then passes
    validation; when the constructor throws, the call ends there, before
    that expression.
    - When the constructor throws, the call ends in its error, having
      shown the connecting dialog and nothing else.
    - When it returns and the global object has no [settings], the call
      ends in a [ReferenceError], before any connector is invoked and
      without the connecting dialog being cancelled.
    - The instance field [this.settings] is not read, for any address:
      replacing it changes nothing in what the call does.
    - When the expression has a value, the display name given to
      [gf.net.connect] is the sanitized form of that value. *)
Theorem connectToHost_reads_free_settings g address :
  (forall e,
     goog_Uri (env g) address = inl e ->
     connectToHost address g = Throw e (dialog_shown address g))
  /\ (forall uri,
        goog_Uri (env g) address = inr uri ->
        globalScope (env g) !! "settings" = None ->
        exists g',
          connectToHost address g = Throw (ReferenceError "settings") g'
          /\ count is_connector (added g g') = 0%nat
          /\ count (is_cancel_of (nextDeferred g)) (added g g') = 0%nat)
  /\ (forall s',
        connectToHost address (set_settings s' g) =
        map_state (set_settings s') (connectToHost address g))
  /\ (forall name e,
        settings_userName (globalScope (env g)) = inr name ->
        e ∈ added g (state_of (connectToHost address g)) ->
        forall shown, displayName_of e = Some shown ->
        shown = sanitizeDisplayName (env g) name).
Proof.
  split; [apply connectToHost_unparsed|]. split; [|split].
  - intros uri Huri H. rewrite (connectToHost_parsed g address uri Huri).
    unfold connectWith, dialog_shown, settings_userName, GetIdentifier.
    cbv zeta.
    destruct (negb (validAddress _)); simpl; rewrite H; eexists;
      (split; [reflexivity|]).
    + erewrite added_trace; [|simpl; rewrite <- app_assoc; reflexivity]. done.
    + erewrite added_trace; [|simpl; reflexivity]. done.
  - intros s'. unfold connectToHost, emit_returning. cbv zeta. simpl.
    destruct (goog_Uri (env g) address) as [e|uri]; [done|].
    unfold connectWith. cbv zeta. simpl.
    destruct (negb (validAddress _)); simpl;
      (destruct (settings_userName _) as [e|name]; [done|]).
    + reflexivity.
    + unfold attemptConnection, connectToRemoteHost_, connectToLocalHost_,
        emit_returning; simpl.
      destruct (String.eqb _ "ws").
      * simpl. destruct (gf_net_connect _ _ _) as [o|]; [|reflexivity].
        apply (connectSettled_set_settings s' address (nextDeferred g) o
                 (set_trace _ (set_nextDeferred _ (set_trace _ (set_trace _
                   (set_nextDeferred _ g)))))).
      * destruct (String.eqb _ "local"); reflexivity.
  - intros name e Hname.
    destruct (goog_Uri (env g) address) as [err|uri] eqn:Huri.
    + rewrite (connectToHost_unparsed g address err Huri). simpl.
      rewrite (added_trace g (dialog_shown address g)
                 [StatusScreen_showConnecting address (nextDeferred g)]
                 eq_refl).
      intros Hin shown Hs.
      apply elem_of_cons in Hin as [->|Hin]; [discriminate Hs|].
      by apply elem_of_nil in Hin.
    + rewrite (connectToHost_parsed g address uri Huri).
      unfold connectWith, dialog_shown, emit_returning, attemptConnection,
        connectToRemoteHost_, connectToLocalHost_, emit_returning. cbv zeta.
      destruct (negb (validAddress _)); simpl; rewrite Hname; simpl;
        [|destruct (String.eqb _ "ws"); simpl;
          [destruct (gf_net_connect _ _ _) as [[session|arg]|]
          |destruct (String.eqb _ "local")]];
        simpl;
        unfold connectSettled, gotoGameScreen_, enterGame_, assert, seq, emit,
          register, isInGame;
        simpl;
        try destruct (ENABLE_ASSERTS (env g) && _); simpl;
        (erewrite added_trace; [|simpl; rewrite <- ?app_assoc; reflexivity]);
        intros Hin shown Hs;
        repeat (apply elem_of_cons in Hin as [->|Hin]; [try discriminate Hs|]);
        try (by apply elem_of_nil in Hin);
        injection Hs as <-; reflexivity.
Qed.

(** ** Address validation and dispatch *)

Lemma validAddress_absent_port uri :
  getScheme uri <> "" -> getDomain uri <> "" -> getPort uri = None ->
  validAddress uri = true.
Proof.
  intros Hs Hd Hp. unfold validAddress, port_value. rewrite Hp. simpl.
  apply String.eqb_neq in Hs, Hd. by rewrite Hs, Hd.
Qed.

Lemma validAddress_empty_part uri :
  getScheme uri = "" \/ getDomain uri = "" -> validAddress uri = false.
Proof.
  unfold validAddress. intros [H|H]; rewrite H; simpl; [done|].
  by rewrite andb_false_r.
Qed.

(** An address that fails validation: the deferred of the attempt gets the
    [errback] with the invalid-address message, and no connector is
    entered, whatever the global object binds. *)
Lemma connectToHost_invalid_address g address uri :
  goog_Uri (env g) address = inr uri ->
  validAddress uri = false ->
  let g' := state_of (connectToHost address g) in
  ConnectDeferred_errback (InvalidAddress address) ∈ added g g'
  /\ count is_connector (added g g') = 0%nat.
Proof.
  intros Huri Hv. rewrite (connectToHost_parsed g address uri Huri).
  unfold connectWith, dialog_shown. cbv zeta.
  rewrite Hv. simpl.
  destruct (settings_userName _) as [e|name]; simpl;
    unfold seq, emit; simpl;
    (erewrite added_trace; [|simpl; rewrite <- ?app_assoc; reflexivity]);
    (split; [set_solver|done]).
Qed.

(** An address that passes validation, when [settings.userName] has a
    value: the scheme decides the connector. *)
Lemma connectToHost_dispatch g address uri name :
  goog_Uri (env g) address = inr uri ->
  settings_userName (globalScope (env g)) = inr name ->
  validAddress uri = true ->
  let g' := state_of (connectToHost address g) in
  List.filter is_connector (added g g') =
    (if String.eqb (getScheme uri) "ws" then
       [InvokeConnector Remote uri;
        Net_connect (toString uri) (sanitizeDisplayName (env g) name)
          (S (nextDeferred g))]
     else if String.eqb (getScheme uri) "local" then
       [InvokeConnector Local uri]
     else [])
  /\ (String.eqb (getScheme uri) "ws" = false ->
      String.eqb (getScheme uri) "local" = false ->
      ConnectDeferred_errback (UnsupportedScheme (getScheme uri))
        ∈ added g g').
Proof.
  intros Huri Hname Hv. rewrite (connectToHost_parsed g address uri Huri).
  unfold connectWith, dialog_shown, emit_returning, attemptConnection,
    connectToRemoteHost_, connectToLocalHost_, emit_returning. cbv zeta.
  rewrite Hv. simpl. rewrite Hname. simpl.
  destruct (String.eqb _ "ws"); simpl;
    [destruct (gf_net_connect _ _ _) as [[session|arg]|]
    |destruct (String.eqb _ "local")];
    simpl;
    unfold connectSettled, gotoGameScreen_, enterGame_, assert, seq, emit,
      register, isInGame;
    simpl;
    try destruct (ENABLE_ASSERTS (env g) && _); simpl;
    (erewrite added_trace; [|simpl; rewrite <- ?app_assoc; reflexivity]);
    (split; [reflexivity|try done]).
  intros _ _. set_solver.
Qed.

(** C3 at an address without a port.  [getPort()] is [null] there, and
    [null != ''] holds, so the address passes validation: with
    [settings.userName] readable the remote connector is entered and no
    invalid-address [errback] is made; with [settings] unbound the call
    ends in the [ReferenceError], again with no [errback]. *)
Theorem connectToHost_address_without_port_passes :
  getPort (sample_Uri "ws://host.example") = None
  /\ validAddress (sample_Uri "ws://host.example") = true
  /\ connectToHost "ws://host.example" (at_menu crowded_scope) =
     Normal
       (mkClientGame (sample_env crowded_scope) sample_settings None false
          false true
          {[3%nat := K_connect "ws://host.example" 2%nat]} 4%nat
          (trace (at_menu crowded_scope) ++
           [StatusScreen_showConnecting "ws://host.example" 2%nat;
            InvokeConnector Remote (sample_Uri "ws://host.example");
            Net_connect "ws://host.example" "guest" 3%nat]))
  /\ connectToHost "ws://host.example" (at_menu bare_scope) =
     Throw (ReferenceError "settings")
       (mkClientGame (sample_env bare_scope) sample_settings None false
          false true ∅ 3%nat
          (trace (at_menu bare_scope) ++
           [StatusScreen_showConnecting "ws://host.example" 2%nat])).
Proof. split; [|split; [|split]]; vm_compute; reflexivity. Qed.

(** C4 where the global object binds no [settings]: addresses that pass
    validation, one per scheme, all end in the [ReferenceError] of line
    552; the only call made is the one that shows the connecting dialog. *)
Theorem connectToHost_valid_address_not_dispatched :
  Forall
    (fun address =>
       validAddress (sample_Uri address) = true
       /\ connectToHost address (at_menu bare_scope) =
          Throw (ReferenceError "settings")
            (mkClientGame (sample_env bare_scope) sample_settings None false
               false true ∅ 3%nat
               (trace (at_menu bare_scope) ++
                [StatusScreen_showConnecting address 2%nat])))
    ["ws://host.example:80"; "local://blk-0:1"; "ftp://host.example:21"].
Proof.
  repeat (apply Forall_cons; split; [split; vm_compute; reflexivity|]).
  apply Forall_nil_2.
Qed.

(** ** The connecting dialog: every dialog is cancelled at most once *)

Lemma cancels_trace dl g g' t :
  trace g' = trace g ++ t ->
  cancels dl g' = (cancels dl g + count (is_cancel_of dl) t)%nat.
Proof. intros H. unfold cancels. by rewrite H, count_app. Qed.

Lemma mild_refl g : mild g g.
Proof.
  intros W. split; [exact W|]. split; [done|]. split; [done|].
  split; [done|]. intros d a dl Hd Hp.
  destruct W as (W1 & _). apply W1 in Hp. lia.
Qed.

Lemma mild_trans g1 g2 g3 : mild g1 g2 -> mild g2 g3 -> mild g1 g3.
Proof.
  intros H12 H23 W1.
  destruct (H12 W1) as (W2 & N12 & C12 & P12 & K12).
  destruct (H23 W2) as (W3 & N23 & C23 & P23 & K23).
  split; [exact W3|]. split; [lia|].
  split; [intros dl Hdl; rewrite C23, C12 by lia; done|].
  split; [intros d Hd; rewrite P23, P12 by lia; done|].
  intros d a dl Hd Hp.
  destruct (decide (d < nextDeferred g2)%nat) as [Hlt|Hge].
  - rewrite P23 in Hp by done. by apply (K12 d a dl).
  - assert (nextDeferred g2 <= dl)%nat by (apply (K23 d a dl); [lia|done]).
    lia.
Qed.

(** The general way into [mild]. *)
Lemma mild_intro g g' :
  (well_formed g ->
   (nextDeferred g <= nextDeferred g')%nat
   /\ (forall dl, (dl < nextDeferred g)%nat \/ (nextDeferred g' <= dl)%nat ->
                  cancels dl g' = cancels dl g)
   /\ (forall d, (d < nextDeferred g)%nat -> pending g' !! d = pending g !! d)
   /\ (forall d k,
         (nextDeferred g <= d)%nat -> pending g' !! d = Some k ->
         (d < nextDeferred g')%nat
         /\ forall a dl, k = K_connect a dl ->
              (nextDeferred g <= dl < nextDeferred g')%nat
              /\ cancels dl g' = 0%nat
              /\ forall d2 a2,
                   (nextDeferred g <= d2)%nat ->
                   pending g' !! d2 = Some (K_connect a2 dl) -> d2 = d)) ->
  mild g g'.
Proof.
  intros H W. destruct (H W) as (N & C & P & K).
  destruct W as (W1 & W2 & W3 & W4).
  assert (Old : forall d k, (d < nextDeferred g)%nat ->
                  pending g' !! d = Some k -> pending g !! d = Some k).
  { intros d k Hd Hp. by rewrite <- P. }
  split; [|split; [exact N|split; [intros; apply C; by left|split; [exact P|]]]].
  - split; [|split; [|split]].
    + intros d k Hp.
      destruct (decide (d < nextDeferred g)%nat) as [Hlt|Hge].
      * apply Old, W1 in Hp; [lia|done].
      * apply K in Hp as [? _]; [done|lia].
    + intros d a dl Hp.
      destruct (decide (d < nextDeferred g)%nat) as [Hlt|Hge].
      * apply Old, W2 in Hp as [? ?]; [|done].
        split; [lia|]. rewrite C by (by left). done.
      * apply K in Hp as [_ Hk]; [|lia].
        destruct (Hk a dl eq_refl) as (? & ? & _). split; [lia|done].
    + intros dl Hdl. rewrite C by (by right). apply W3. lia.
    + intros d1 d2 a1 a2 dl H1 H2.
      destruct (decide (d1 < nextDeferred g)%nat) as [L1|G1],
               (decide (d2 < nextDeferred g)%nat) as [L2|G2].
      * apply (W4 d1 d2 a1 a2 dl); by apply Old.
      * apply Old, W2 in H1 as [? _]; [|done].
        apply K in H2 as [_ Hk]; [|lia].
        destruct (Hk a2 dl eq_refl) as (? & _). lia.
      * apply Old, W2 in H2 as [? _]; [|done].
        apply K in H1 as [_ Hk]; [|lia].
        destruct (Hk a1 dl eq_refl) as (? & _). lia.
      * pose proof H1 as H1'. apply K in H1' as [_ Hk]; [|lia].
        destruct (Hk a1 dl eq_refl) as (_ & _ & U). symmetry.
        apply (U d2 a2); [lia|done].
  - intros d a dl Hd Hp. apply K in Hp as [_ Hk]; [|done].
    destruct (Hk a dl eq_refl) as (? & _). lia.
Qed.

Lemma mild_plain e : plain e = true -> keeps mild (emit e).
Proof.
  intros He g. apply mild_intro. intros (W1 & W2 & W3 & W4). simpl.
  split; [lia|]. split; [|split; [done|]].
  - intros dl _. erewrite cancels_trace by reflexivity.
    unfold count; simpl. rewrite (plain_not_cancel e dl He). simpl. lia.
  - intros d k Hd Hp. apply W1 in Hp. lia.
Qed.

Lemma mild_assert c : keeps mild (assert c).
Proof. intros g. unfold assert. destruct (_ && _); apply mild_refl. Qed.

Lemma mild_set_inGame_ b : keeps mild (fun g => Normal (set_inGame_ b g)).
Proof.
  intros g. apply mild_intro. intros (W1 & W2 & W3 & W4). simpl.
  split; [lia|]. split; [done|]. split; [done|].
  intros d k Hd Hp. apply W1 in Hp. lia.
Qed.

(** A call that returns a new deferred, on which callbacks other than
    those of a connect attempt are left. *)
Lemma mild_wait (e : DeferredId -> Event) k g :
  (forall d dl, is_cancel_of dl (e d) = false) ->
  (forall a dl, k <> K_connect a dl) ->
  mild g (state_of (register (emit_returning e g).1 k (emit_returning e g).2)).
Proof.
  intros He Hk. apply mild_intro. intros (W1 & W2 & W3 & W4). simpl.
  split; [lia|]. split; [|split].
  - intros dl _. erewrite cancels_trace by reflexivity.
    unfold count; simpl. rewrite He. simpl. lia.
  - intros d Hd. rewrite lookup_insert_ne by lia. done.
  - intros d k' Hd Hp.
    destruct (decide (nextDeferred g = d)) as [<-|Hne].
    + rewrite lookup_insert_eq in Hp. injection Hp as <-.
      split; [lia|]. intros a dl ->. by destruct (Hk a dl).
    + rewrite lookup_insert_ne in Hp by done. apply W1 in Hp. lia.
Qed.

Lemma mild_popup (screen : DeferredId -> Screen) k :
  is_popup k = true ->
  keeps mild (fun g =>
                let '(d, g) :=
                  emit_returning
                    (fun d => ScreenManager_pushScreen (screen d)) g in
                register d k g).
Proof.
  intros Hk g.
  apply (mild_wait (fun d => ScreenManager_pushScreen (screen d)) k g);
    [done|]. intros a dl ->. discriminate Hk.
Qed.

(** The frame lemmas at [mild]. *)
Abbreviation mildly L :=
  (L mild mild_refl mild_trans mild_plain mild_assert mild_set_inGame_
     mild_popup).

(** The callbacks of a connect attempt, run on a game in which the
    dialog [dl] has not been cancelled: they cancel it once, and change
    no other count, no waiting callbacks and no name. *)
Lemma connectSettled_effect a dl o g :
  let g' := state_of (connectSettled a dl o g) in
  nextDeferred g' = nextDeferred g
  /\ pending g' = pending g
  /\ forall dl', cancels dl' g' =
                 (cancels dl' g + (if Nat.eqb dl dl' then 1 else 0))%nat.
Proof.
  cbv zeta.
  destruct o;
    unfold connectSettled, gotoGameScreen_, enterGame_, assert, seq, emit,
      isInGame; simpl;
    try destruct (ENABLE_ASSERTS (env g) && _); simpl;
    (split; [done|]); (split; [done|]); intros dl';
    (erewrite cancels_trace by (simpl; rewrite <- ?app_assoc; reflexivity));
    unfold count; simpl; destruct (Nat.eqb dl dl'); simpl; lia.
Qed.

Lemma plainly_event g0 g n e :
  plain e = true -> plainly g0 g n ->
  plainly g0 (set_trace (trace g ++ [e]) g) n.
Proof.
  intros He (P & N & C). split; [done|]. split; [done|]. intros dl.
  erewrite cancels_trace by reflexivity. unfold count; simpl.
  rewrite (plain_not_cancel e dl He), C. simpl. lia.
Qed.

Lemma plainly_returning g0 g n e :
  (forall d, plain (e d) = true) -> plainly g0 g n ->
  plainly g0 (emit_returning e g).2 (S n).
Proof.
  intros He (P & N & C). split; [done|]. split; [simpl; lia|]. intros dl.
  erewrite cancels_trace by reflexivity. unfold count; simpl.
  rewrite (plain_not_cancel (e (nextDeferred g)) dl (He _)), C. simpl. lia.
Qed.

Lemma attemptConnection_effect uri dn deferred g0 g n :
  plainly g0 g n ->
  (forall d, deferred <> ChainedBehind d) ->
  let r := attemptConnection uri dn deferred g in
  exists m,
    plainly g0 r.2 m
    /\ (n <= m)%nat
    /\ forall d, r.1 = ChainedBehind d ->
                 d = (nextDeferred g0 + n)%nat /\ m = S n.
Proof.
  intros Hg Hd. cbv zeta. unfold attemptConnection.
  destruct (negb (hasFired deferred)).
  - destruct (String.eqb _ "ws").
    + unfold connectToRemoteHost_.
      pose proof (plainly_returning g0 _ n
                    (Net_connect (toString uri) dn) (fun _ => eq_refl)
                    (plainly_event g0 g n (InvokeConnector Remote uri)
                       eq_refl Hg)) as H.
      destruct (emit_returning _ _) as [d g'] eqn:E.
      assert (d = (nextDeferred g0 + n)%nat) as ->.
      { injection E as <- _. simpl. by destruct Hg as (_ & -> & _). }
      simpl in H. destruct (gf_net_connect _ _ _); exists (S n); simpl;
        (split; [exact H|]); (split; [lia|]); [done|]. by intros d [= <-].
    + destruct (String.eqb _ "local"); exists n; simpl.
      * split; [by apply plainly_event|done].
      * split; [by apply plainly_event|done].
  - exists n. simpl. split; [done|]. split; [done|].
    intros d ->. by destruct (Hd d).
Qed.

(** The end of [connectToHost]: callbacks added to the deferred of the
    attempt. *)
Lemma mild_addCallbacks a deferred g g3 m :
  plainly g g3 m -> (1 <= m)%nat ->
  (forall d, deferred = ChainedBehind d ->
             (nextDeferred g < d < nextDeferred g3)%nat) ->
  mild g
    (state_of
       match deferred with
       | Unfired => Normal g3
       | Fired o => connectSettled a (nextDeferred g) o g3
       | ChainedBehind d => register d (K_connect a (nextDeferred g)) g3
       end).
Proof.
  intros (P & N & C) Hm Hd. apply mild_intro. intros (W1 & W2 & W3 & W4).
  destruct deferred as [|o|d].
  - simpl. rewrite P, N. split; [lia|]. split; [by intros|]. split; [done|].
    intros d k Hd' Hp. apply W1 in Hp. lia.
  - destruct (connectSettled_effect a (nextDeferred g) o g3) as (N' & P' & C').
    rewrite N', P', N, P. split; [lia|]. split; [|split; [done|]].
    + intros dl Hdl. rewrite C', C.
      destruct (Nat.eqb_spec (nextDeferred g) dl); lia.
    + intros d k Hd' Hp. apply W1 in Hp. lia.
  - specialize (Hd d eq_refl). simpl. rewrite P, N.
    split; [lia|]. split; [|split].
    + intros dl _. unfold cancels in *. simpl. apply C.
    + intros d' Hd'. rewrite lookup_insert_ne by lia. done.
    + intros d' k Hd' Hp.
      destruct (decide (d = d')) as [<-|Hne].
      * rewrite lookup_insert_eq in Hp. injection Hp as <-.
        split; [lia|]. intros a' dl [= <- <-]. split; [lia|].
        split; [unfold cancels in *; simpl; rewrite C; apply W3; lia|].
        intros d2 a2 Hd2 Hp2.
        destruct (decide (d = d2)) as [<-|Hne2]; [done|].
        rewrite lookup_insert_ne in Hp2 by done. apply W1 in Hp2. lia.
      * rewrite lookup_insert_ne in Hp by done. apply W1 in Hp. lia.
Qed.

(** [connectToHost] from the parse on: the dialog is the deferred handed
    out last, by the one plain call made since [g]. *)
Lemma mild_connectWith address uri g g1 :
  plainly g g1 1 ->
  mild g (state_of (connectWith address (nextDeferred g) uri g1)).
Proof.
  intros H1. unfold connectWith. cbv zeta.
  assert (Attempt : forall deferred g2 name,
            plainly g g2 1 -> (forall d, deferred <> ChainedBehind d) ->
            mild g
              (state_of
                 (let '(deferred', g3) :=
                    attemptConnection uri
                      (sanitizeDisplayName (env g2) name) deferred g2 in
                  match deferred' with
                  | Unfired => Normal g3
                  | Fired o => connectSettled address (nextDeferred g) o g3
                  | ChainedBehind d =>
                      register d (K_connect address (nextDeferred g)) g3
                  end))).
  { intros deferred g2 name H2 Hd.
    destruct (attemptConnection_effect uri
                (sanitizeDisplayName (env g2) name) deferred g g2 1 H2 Hd)
      as (m & H3 & Hm & Hc).
    destruct (attemptConnection _ _ _ g2) as [deferred' g3]. simpl in *.
    apply (mild_addCallbacks address deferred' g g3 m H3 Hm).
    intros d ->. destruct (Hc d eq_refl) as [-> ->].
    destruct H3 as (_ & -> & _). lia. }
  destruct (negb (validAddress uri)).
  - pose proof (plainly_event g g1 1
                  (ConnectDeferred_errback (InvalidAddress address))
                  eq_refl H1) as H2.
    set (g2 := set_trace _ g1) in *.
    destruct (settings_userName _) as [e|name].
    + apply (mild_addCallbacks address Unfired g g2 1 H2); [lia|done].
    + by apply Attempt.
  - destruct (settings_userName _) as [e|name].
    + apply (mild_addCallbacks address Unfired g g1 1 H1); [lia|done].
    + by apply Attempt.
Qed.

Lemma mild_connectToHost address : keeps mild (connectToHost address).
Proof.
  intros g. unfold connectToHost.
  pose proof (plainly_returning g g 0
                (StatusScreen_showConnecting address) (fun _ => eq_refl)) as H1.
  destruct (emit_returning _ g) as [dialog g1] eqn:E1.
  assert (dialog = nextDeferred g) as -> by (by injection E1 as <- _).
  simpl in H1. specialize (H1 ltac:(split; [done|split; [lia|done]])).
  destruct (goog_Uri (env g1) address) as [e|uri].
  - apply (mild_addCallbacks address Unfired g g1 1 H1); [lia|done].
  - by apply mild_connectWith.
Qed.

Lemma mild_seq a b : keeps mild a -> keeps mild b -> keeps mild (a >> b).
Proof. apply (mildly keeps_seq). Qed.

Lemma mild_setupSucceeded_ : keeps mild setupSucceeded_.
Proof.
  unfold setupSucceeded_. apply mild_seq; [by apply mild_plain|].
  apply mild_seq; [by apply mild_plain|].
  intros g. destruct (launchOptions_host g) as [host|].
  - destruct (negb _);
      [apply mild_connectToHost|apply (mildly keeps_gotoMainMenuScreen)].
  - apply (mildly keeps_gotoMainMenuScreen).
Qed.

Lemma mild_renderSetupSettled o : keeps mild (renderSetupSettled o).
Proof.
  destruct o; simpl;
    [apply mild_setupSucceeded_|apply (mildly keeps_setupFailed_)].
Qed.

(** A setup step is called and callbacks are added to its deferred:
    they run at once when it has fired, else they wait. *)
Lemma mild_setup_step (e : DeferredId -> Event) returned k run g :
  (forall d dl, is_cancel_of dl (e d) = false) ->
  (forall a dl, k <> K_connect a dl) ->
  (forall o, keeps mild (run o)) ->
  mild g
    (state_of
       (let '(d, g) := emit_returning e g in
        addCallbacks returned d k run g)).
Proof.
  intros He Hk Hrun. unfold addCallbacks. destruct returned as [o|].
  - eapply mild_trans; [|apply Hrun].
    apply mild_intro. intros (W1 & W2 & W3 & W4). simpl.
    split; [lia|]. split; [|split; [done|]].
    + intros dl _. erewrite cancels_trace by reflexivity.
      unfold count; simpl. rewrite He. simpl. lia.
    + intros d k' Hd Hp. apply W1 in Hp. lia.
  - by apply (mild_wait e k g).
Qed.

Lemma mild_graphicsSetupSettled o : keeps mild (graphicsSetupSettled o).
Proof.
  destruct o as [v|arg]; simpl; [|apply (mildly keeps_setupFailed_)].
  intros g.
  by apply (mild_setup_step RenderState_setup (renderState_setup (env g))
              K_renderSetup renderSetupSettled g);
    [| |apply mild_renderSetupSettled].
Qed.

Lemma mild_beginSetup_ : keeps mild beginSetup_.
Proof.
  unfold beginSetup_. apply mild_seq; [by apply mild_plain|]. intros g.
  by apply (mild_setup_step GraphicsContext_setup
              (graphicsContext_setup (env g)) K_graphicsSetup
              graphicsSetupSettled g);
    [| |apply mild_graphicsSetupSettled].
Qed.

(** Callbacks other than those of a connect attempt. *)
Lemma mild_resume k o :
  (forall a dl, k <> K_connect a dl) -> keeps mild (resume k o).
Proof.
  intros Hk. destruct k as [| |a dl| |]; simpl.
  - apply mild_graphicsSetupSettled.
  - apply mild_renderSetupSettled.
  - by destruct (Hk a dl).
  - destruct o; [apply (mildly keeps_settingsPopupCallback)|].
    intros g. apply mild_refl.
  - apply (mildly keeps_postPopup_).
Qed.

(** Taking callbacks off a deferred keeps the game well formed. *)
Lemma well_formed_delete d g :
  well_formed g -> well_formed (set_pending (delete d (pending g)) g).
Proof.
  intros (W1 & W2 & W3 & W4).
  assert (Sub : forall d' k, delete d (pending g) !! d' = Some k ->
                             pending g !! d' = Some k).
  { intros d' k H. apply lookup_delete_Some in H as [_ H]. exact H. }
  split; [|split; [|split]]; simpl.
  - intros d' k H. by apply (W1 d' k), Sub.
  - intros d' a dl H. by apply (W2 d' a dl), Sub.
  - exact W3.
  - intros d1 d2 a1 a2 dl H1 H2. apply (W4 d1 d2 a1 a2 dl); by apply Sub.
Qed.

(** ** One input *)

(** An input other than the outcome of a connect attempt. *)
Lemma deliver_mild i g :
  (forall d o a dl, i = DeferredFired d o ->
                    pending g !! d <> Some (K_connect a dl)) ->
  mild (match i with
        | DeferredFired d _ => set_pending (delete d (pending g)) g
        | _ => g
        end)
       (state_of (deliver i g)).
Proof.
  intros Hi. destruct i as [d o| | | | |address|frame|frame| | | | |location message opt_arg|]; simpl.
  - destruct (pending g !! d) as [k|] eqn:E.
    + apply mild_resume. intros a dl ->. by destruct (Hi d o a dl eq_refl).
    + rewrite delete_id by done. destruct g. apply mild_refl.
  - apply (mildly keeps_toggleFullscreen).
  - apply (mildly keeps_gotoMainMenuScreen).
  - apply (mildly keeps_showSettingsPopup).
  - apply (mildly keeps_showHelpPopup).
  - apply mild_connectToHost.
  - by apply (mildly keeps_public (Call_update frame)).
  - by apply (mildly keeps_public (Call_render frame)).
  - by apply (mildly keeps_public Call_playClick).
  - by apply (mildly keeps_public Call_pushSinglePlayerMenuScreen).
  - by apply (mildly keeps_public Call_pushMultiPlayerMenuScreen).
  - by apply (mildly keeps_public Call_pushCreateMapMenuScreen).
  - by apply (mildly keeps_public
                (Call_showErrorPopup location message opt_arg)).
  - by apply (mildly keeps_public Call_disposeInternal).
Qed.

(** The outcome of a connect attempt. *)
Lemma deliver_outcome d o a dl g :
  pending g !! d = Some (K_connect a dl) ->
  let g' := state_of (deliver (DeferredFired d o) g) in
  nextDeferred g' = nextDeferred g
  /\ pending g' = delete d (pending g)
  /\ forall dl', cancels dl' g' =
                 (cancels dl' g + (if Nat.eqb dl dl' then 1 else 0))%nat.
Proof.
  intros Hd. cbv zeta. simpl. rewrite Hd. simpl resume.
  destruct (connectSettled_effect a dl o
              (set_pending (delete d (pending g)) g)) as (N & P & C).
  split; [exact N|]. split; [exact P|exact C].
Qed.

(** An input is the outcome of a waiting connect attempt, or not. *)
Lemma outcome_or_not i g :
  (exists d o a dl, i = DeferredFired d o
                    /\ pending g !! d = Some (K_connect a dl))
  \/ (forall d o a dl, i = DeferredFired d o ->
                       pending g !! d <> Some (K_connect a dl)).
Proof.
  destruct i as [d o| | | | |address|frame|frame| | | | |location message opt_arg|]; try (right; discriminate).
  destruct (pending g !! d) as [[| |a dl| |]|] eqn:E;
    try (right; intros ? ? ? ? [= <- <-]; rewrite E; discriminate).
  left. by exists d, o, a, dl.
Qed.

Lemma well_formed_deliver i g :
  well_formed g -> well_formed (state_of (deliver i g)).
Proof.
  intros W.
  destruct (outcome_or_not i g) as [(d & o & a & dl & -> & Hd)|Hn].
  - destruct (deliver_outcome d o a dl g Hd) as (N & P & C).
    destruct W as (W1 & W2 & W3 & W4).
    assert (Sub : forall d' k, delete d (pending g) !! d' = Some k ->
                               d' <> d /\ pending g !! d' = Some k).
    { intros d' k H. by apply lookup_delete_Some in H as [? H]. }
    split; [|split; [|split]]; rewrite ?N, ?P.
    + intros d' k H. apply Sub in H as [_ H]. by apply (W1 d' k).
    + intros d' a' dl' H. apply Sub in H as [Hne H].
      destruct (W2 d' a' dl' H) as [? ?]. split; [done|]. rewrite C.
      destruct (Nat.eqb_spec dl dl') as [->|]; [|lia].
      by destruct Hne; apply (W4 d' d a' a dl').
    + intros dl' Hdl. rewrite C, W3 by done.
      destruct (Nat.eqb_spec dl dl') as [<-|]; [|lia].
      destruct (W2 d a dl Hd). lia.
    + intros d1 d2 a1 a2 dl' H1 H2.
      apply Sub in H1 as [_ H1]. apply Sub in H2 as [_ H2].
      by apply (W4 d1 d2 a1 a2 dl').
  - apply (deliver_mild i g Hn).
    destruct i; try done. by apply well_formed_delete.
Qed.

(** ** A connect attempt from its start to after its outcome *)

Lemma awaiting_deliver d a dl i g :
  awaiting d a dl g -> (forall o, i <> DeferredFired d o) ->
  awaiting d a dl (state_of (deliver i g)).
Proof.
  intros [W Hd] Hi. split; [by apply well_formed_deliver|].
  destruct (outcome_or_not i g) as [(d' & o & a' & dl' & -> & Hd')|Hn].
  - destruct (deliver_outcome d' o a' dl' g Hd') as (_ & -> & _).
    rewrite lookup_delete_ne; [done|]. intros ->. by destruct (Hi o).
  - assert (Hlt : (d < nextDeferred g)%nat).
    { destruct W as (W1 & _). by apply (W1 d (K_connect a dl)). }
    destruct i as [d' o| | | | |address|frame|frame| | | | |location message opt_arg|];
      try (destruct (deliver_mild _ g Hn W) as (_ & _ & _ & P & _);
           by rewrite P).
    destruct (deliver_mild _ g Hn (well_formed_delete d' g W))
      as (_ & _ & _ & P & _).
    rewrite P by done. simpl. rewrite lookup_delete_ne; [done|].
    intros ->. by destruct (Hi o).
Qed.

Lemma settled_after_outcome d a dl o g :
  awaiting d a dl g -> settled dl (state_of (deliver (DeferredFired d o) g)).
Proof.
  intros [W Hd]. split; [by apply well_formed_deliver|].
  destruct (deliver_outcome d o a dl g Hd) as (N & P & C).
  destruct W as (W1 & W2 & W3 & W4). destruct (W2 d a dl Hd) as [Hlt H0].
  rewrite N, P, C, H0, Nat.eqb_refl. split; [done|]. split; [|done].
  intros d' a' H. apply lookup_delete_Some in H as [Hne H].
  by destruct Hne; apply (W4 d d' a a' dl).
Qed.

Lemma settled_deliver dl i g :
  settled dl g -> settled dl (state_of (deliver i g)).
Proof.
  intros (W & Hlt & Hno & H1). split; [by apply well_formed_deliver|].
  destruct (outcome_or_not i g) as [(d' & o & a' & dl' & -> & Hd')|Hn].
  - destruct (deliver_outcome d' o a' dl' g Hd') as (N & P & C).
    rewrite N, P, C, H1. split; [done|]. split.
    + intros d a H. apply lookup_delete_Some in H as [_ H].
      by apply (Hno d a).
    + destruct (Nat.eqb_spec dl' dl) as [->|]; [|lia].
      by destruct (Hno d' a').
  - assert (M : exists g0,
              well_formed g0 /\ nextDeferred g0 = nextDeferred g
              /\ cancels dl g0 = cancels dl g
              /\ (forall d a, pending g0 !! d <> Some (K_connect a dl))
              /\ mild g0 (state_of (deliver i g))).
    { destruct i as [d' o| | | | |address|frame|frame| | | | |location message opt_arg|];
        try (exists g; split; [done|]; split; [done|]; split; [done|];
             split; [done|]; by apply (deliver_mild _ g Hn)).
      exists (set_pending (delete d' (pending g)) g).
      split; [by apply well_formed_delete|]. split; [done|]. split; [done|].
      split; [|by apply (deliver_mild _ g Hn)].
      simpl. intros d a H. apply lookup_delete_Some in H as [_ H].
      by apply (Hno d a). }
    destruct M as (g0 & W0 & N0 & C0 & Hno0 & M).
    destruct (M W0) as (_ & N & C & P & K). rewrite N0 in *.
    split; [lia|]. split; [|by rewrite C, C0].
    intros d a H.
    destruct (decide (d < nextDeferred g)%nat) as [L|G].
    + rewrite P in H by done. by apply (Hno0 d a).
    + apply K in H; lia.
Qed.

Lemma run_app inputs1 inputs2 g :
  run (inputs1 ++ inputs2) g = run inputs2 (run inputs1 g).
Proof. revert g. induction inputs1 as [|i rest IH]; intros g; simpl; auto. Qed.

Lemma well_formed_run inputs : forall g,
  well_formed g -> well_formed (run inputs g).
Proof.
  induction inputs as [|i rest IH]; intros g W; [done|].
  simpl. by apply IH, well_formed_deliver.
Qed.

Lemma awaiting_run d a dl inputs : forall g,
  awaiting d a dl g -> (forall o, DeferredFired d o ∉ inputs) ->
  awaiting d a dl (run inputs g).
Proof.
  induction inputs as [|i rest IH]; intros g H Hin; [done|].
  simpl. apply IH.
  - apply awaiting_deliver; [done|]. intros o ->. apply (Hin o). left.
  - intros o Ho. apply (Hin o). by right.
Qed.

Lemma settled_run dl inputs : forall g,
  settled dl g -> settled dl (run inputs g).
Proof.
  induction inputs as [|i rest IH]; intros g H; [done|].
  simpl. by apply IH, settled_deliver.
Qed.

Lemma well_formed_launch e host s fs sl :
  well_formed (state_of (new_ClientGame e host s fs sl)).
Proof.
  apply mild_beginSetup_.
  split; [|split; [|split]]; simpl; done.
Qed.

(** Over a whole run: the dialog of a waiting connect attempt is not
    cancelled before the attempt's outcome, and is cancelled exactly once
    from the outcome on, whatever else reaches the game. *)
Lemma dialog_cancelled_once g d a dl o before after :
  well_formed g ->
  pending g !! d = Some (K_connect a dl) ->
  (forall o', DeferredFired d o' ∉ before) ->
  cancels dl (run before g) = 0%nat
  /\ cancels dl (run (before ++ DeferredFired d o :: after) g) = 1%nat.
Proof.
  intros W Hd Hin.
  pose proof (awaiting_run d a dl before g (conj W Hd) Hin) as A.
  split.
  - destruct A as [(_ & W2 & _) Hd']. by destruct (W2 d a dl Hd').
  - rewrite run_app. simpl.
    by destruct (settled_run dl after _ (settled_after_outcome d a dl o _ A))
      as (_ & _ & _ & ?).
Qed.

(** ** The outcome of a connect attempt *)

Lemma connectSettled_eq address dialog o g :
  connectSettled address dialog o g =
  (match o with
   | Callback session => gotoGameScreen_ session
   | Errback arg => emit (StatusScreen_showConnectionFailed arg)
   end)
    (set_trace (trace g ++ cancel_events address dialog o) g).
Proof.
  destruct o; unfold connectSettled, cancel_events, seq, emit, set_trace;
    simpl; rewrite <- ?app_assoc; reflexivity.
Qed.



(** C6: on both outcomes of the connector the connecting dialog is
    cancelled exactly once, and before the transition.
    - When the deferred [d] of [gf.net.connect] fires while the callbacks
      of the attempt wait on it, the handler first logs and cancels the
      dialog, the in-game flag still as it was, and only then makes the
      transition: entering the game and setting the game screen on
      success, showing the connection-failed error on failure.  The events
      added hold one cancellation of the dialog, followed by those of the
      transition, and [d] no longer carries callbacks.
    - When [gf.net.connect] returns a deferred that has already fired,
      the same callbacks run inside [connectToHost], after the dialog was
      shown, the address parsed and the connector entered, with the same
      effect.
    - Over a whole run of a well-formed game: the dialog of a waiting
      attempt has not been cancelled as long as the outcome has not
      arrived, and has been cancelled exactly once ever after, whatever
      other inputs come before and after the outcome.
    - Every game reached from a launch is well formed. *)
Theorem connect_outcome_cancels_dialog_once :
  (forall g d address dialog o,
     pending g !! d = Some (K_connect address dialog) ->
     let r := deliver (DeferredFired d o) g in
     let g_mid := dialog_cancelled address dialog d o g in
     r = (match o with
          | Callback session => gotoGameScreen_ session
          | Errback arg => emit (StatusScreen_showConnectionFailed arg)
          end) g_mid
     /\ inGame_ g_mid = inGame_ g
     /\ added g (state_of r) =
          cancel_events address dialog o ++ transition_events o g
     /\ count (is_cancel_of dialog) (added g (state_of r)) = 1%nat
     /\ inGame_ (state_of r) =
          match o with Callback _ => true | Errback _ => inGame_ g end
     /\ pending (state_of r) !! d = None)
  /\ (forall g address uri name o,
        let dialog := nextDeferred g in
        goog_Uri (env g) address = inr uri ->
        settings_userName (globalScope (env g)) = inr name ->
        validAddress uri = true ->
        getScheme uri = "ws" ->
        gf_net_connect (env g) (toString uri)
          (sanitizeDisplayName (env g) name) = Some o ->
        let r := connectToHost address g in
        r = connectSettled address dialog o (connect_sent address uri name g)
        /\ added g (state_of r) =
             added g (connect_sent address uri name g)
             ++ cancel_events address dialog o
             ++ transition_events o g
        /\ count (is_cancel_of dialog) (added g (state_of r)) = 1%nat)
  /\ (forall g d address dialog o before after,
        well_formed g ->
        pending g !! d = Some (K_connect address dialog) ->
        (forall o', DeferredFired d o' ∉ before) ->
        cancels dialog (run before g) = 0%nat
        /\ cancels dialog (run (before ++ DeferredFired d o :: after) g)
           = 1%nat)
  /\ (forall e host s fs sl inputs,
        well_formed (run inputs (state_of (new_ClientGame e host s fs sl)))).
Proof.
  split; [|split; [|split]];
    [| |apply dialog_cancelled_once
     |intros; apply well_formed_run, well_formed_launch].
  - intros g d address dialog o Hd. cbv zeta. simpl. rewrite Hd. simpl resume.
    rewrite connectSettled_eq. split; [reflexivity|]. split; [reflexivity|].
    unfold dialog_cancelled, transition_events, cancel_events.
    destruct o as [session|arg];
      unfold gotoGameScreen_, enterGame_, assert, seq, emit, isInGame; simpl.
    + destruct (ENABLE_ASSERTS (env g)), (inGame_ g) eqn:E; simpl;
        (erewrite !added_trace; [|simpl; rewrite <- ?app_assoc; reflexivity..]);
        unfold count; simpl; rewrite Nat.eqb_refl; simpl;
        rewrite ?lookup_delete_eq; done.
    + (erewrite !added_trace; [|simpl; rewrite <- ?app_assoc; reflexivity..]).
      unfold count; simpl; rewrite Nat.eqb_refl; simpl.
      rewrite ?lookup_delete_eq; done.
  - intros g address uri name o dialog Huri Hname Hv Hs Hc.
    assert (E : connectToHost address g =
                connectSettled address dialog o
                  (connect_sent address uri name g)).
    { rewrite (connectToHost_parsed g address uri Huri).
      unfold connectWith, dialog_shown, emit_returning, attemptConnection,
        connectToRemoteHost_, emit_returning. cbv zeta.
      rewrite Hv. simpl. rewrite Hname. simpl.
      rewrite Hs. simpl. rewrite Hc.
      unfold connect_sent. simpl. fold dialog.
      by rewrite <- !app_assoc. }
    cbv zeta. split; [exact E|]. rewrite E, connectSettled_eq.
    unfold transition_events, connect_sent, cancel_events. fold dialog.
    destruct o as [session|arg];
      unfold gotoGameScreen_, enterGame_, assert, seq, emit, isInGame; simpl.
    + destruct (ENABLE_ASSERTS (env g)), (inGame_ g) eqn:E'; simpl;
        (erewrite !added_trace; [|simpl; rewrite <- ?app_assoc; reflexivity..]);
        unfold count; simpl; rewrite Nat.eqb_refl; simpl; done.
    + (erewrite !added_trace; [|simpl; rewrite <- ?app_assoc; reflexivity..]).
      unfold count; simpl; rewrite Nat.eqb_refl; simpl. done.
Qed.


(** ** The settings dialog *)

(** The callback never reads its parameter. *)
Lemma settingsPopupCallback_ignores_result v1 v2 g :
  settingsPopupCallback v1 g = settingsPopupCallback v2 g.
Proof. reflexivity. Qed.

(** C8 on three runs of the settings dialog from the main menu.
    - The dialog completes with ['save'] and the global object binds no
      [buttonId]: the callback ends in a [ReferenceError]; no setting is
      re-applied and the resume logic does not run.
    - The dialog completes with ['save'] and a global [buttonId] holds
      ['cancel']: the settings are not re-applied; the resume logic runs.
    - The dialog completes with ['cancel'] and a global [buttonId] holds
      ['save']: the settings are re-applied. *)
Theorem settings_dialog_result_not_consulted :
  let save := DeferredFired 2%nat (Callback (JsStr "save")) in
  let cancel := DeferredFired 2%nat (Callback (JsStr "cancel")) in
  (pending (settings_open bare_scope) !! 2%nat = Some K_settingsPopup
   /\ thrown (deliver save (settings_open bare_scope)) =
        Some (ReferenceError "buttonId")
   /\ added (settings_open bare_scope)
        (state_of (deliver save (settings_open bare_scope))) = [])
  /\ (thrown (deliver save (settings_open crowded_scope)) = None
      /\ added (settings_open crowded_scope)
           (state_of (deliver save (settings_open crowded_scope))) =
         [PlayAmbient "click"])
  /\ (thrown (deliver cancel (settings_open saving_scope)) = None
      /\ added (settings_open saving_scope)
           (state_of (deliver cancel (settings_open saving_scope))) =
         [Mouse_setSensitivity 1; Mouse_setLockOnFocus true; Mouse_unlock;
          Music_setMuted false; PlayAmbient "click"]).
Proof.
  cbv zeta.
  split; [split; [|split]|split; split]; vm_compute; reflexivity.
Qed.

(** ** Witnesses *)

Lemma setup_step2_only_after_step1_succeeded_witness :
  let inputs := [Call_toggleFullscreen;
                 DeferredFired 0%nat (Errback (JsStr "no WebGL"));
                 Call_showHelpPopup] in
  count is_RenderState_setup (trace (launched bare_scope)) = 0%nat
  /\ (forall d', pending (launched bare_scope) !! d' = Some K_graphicsSetup ->
                 d' = 0%nat)
  /\ (forall v, DeferredFired 0%nat (Callback v) ∉ inputs)
  /\ count is_RenderState_setup (trace (run inputs (launched bare_scope)))
     = 0%nat.
Proof.
  cbv zeta.
  assert (H1 : count is_RenderState_setup (trace (launched bare_scope)) = 0%nat)
    by reflexivity.
  assert (H2 : forall d', pending (launched bare_scope) !! d'
                          = Some K_graphicsSetup -> d' = 0%nat).
  { intros d' H.
    change (pending (launched bare_scope))
      with ({[0%nat := K_graphicsSetup]} : gmap DeferredId Continuation) in H.
    apply lookup_singleton_Some in H as [? _]. done. }
  assert (H3 : forall v, DeferredFired 0%nat (Callback v)
                         ∉ [Call_toggleFullscreen;
                            DeferredFired 0%nat (Errback (JsStr "no WebGL"));
                            Call_showHelpPopup]).
  { intros v H. repeat (apply elem_of_cons in H as [H|H]; [discriminate H|]).
    by apply elem_of_nil in H. }
  split; [exact H1|]. split; [exact H2|]. split; [exact H3|].
  exact (proj1 setup_step2_only_after_step1_succeeded
           (launched bare_scope) 0%nat _ H1 H2 H3).
Defined.

Lemma connectToHost_reads_free_settings_witness :
  goog_Uri (env (at_menu bare_scope)) "ws://host.example:80" =
    inr (sample_Uri "ws://host.example:80")
  /\ globalScope (env (at_menu bare_scope)) !! "settings" = None
  /\ exists g',
       connectToHost "ws://host.example:80" (at_menu bare_scope) =
         Throw (ReferenceError "settings") g'
       /\ count is_connector (added (at_menu bare_scope) g') = 0%nat
       /\ count (is_cancel_of (nextDeferred (at_menu bare_scope)))
            (added (at_menu bare_scope) g') = 0%nat.
Proof.
  split; [reflexivity|]. split; [reflexivity|].
  exact (proj1 (proj2 (connectToHost_reads_free_settings (at_menu bare_scope)
                         "ws://host.example:80"))
           (sample_Uri "ws://host.example:80") eq_refl eq_refl).
Defined.

(** C10, as stated, fails: not every call reaches the expression
    [settings.userName].  For an address with a malformed percent-escape
    [new goog.Uri(address)] (line 538) throws, and the call ends in that
    [URIError] with the global [settings] never read. *)
Lemma connectToHost_not_always_at_settings :
  ~ (forall g address,
       globalScope (env g) !! "settings" = None ->
       thrown (connectToHost address g) = Some (ReferenceError "settings")).
Proof.
  intros H.
  specialize (H (at_menu bare_scope) "ws://%zz:80" eq_refl).
  vm_compute in H. discriminate H.
Qed.

Example malformed_escape_ends_before_settings :
  connectToHost "ws://%zz:80" (at_menu bare_scope) =
  Throw (URIError "URI malformed")
    (mkClientGame (sample_env bare_scope) sample_settings None false
       false true ∅ 3%nat
       (trace (at_menu bare_scope) ++
        [StatusScreen_showConnecting "ws://%zz:80" 2%nat])).
Proof. vm_compute; reflexivity. Qed.

Lemma connect_outcome_cancels_dialog_once_witness :
  let before := [Call_toggleFullscreen; Call_showHelpPopup] in
  let after := [Call_gotoMainMenuScreen;
                DeferredFired 3%nat (Callback (JsStr "late"))] in
  let refused := DeferredFired 3%nat (Errback (JsStr "refused")) in
  well_formed connecting
  /\ pending connecting !! 3%nat =
       Some (K_connect "ws://host.example:80" 2%nat)
  /\ (forall o', DeferredFired 3%nat o' ∉ before)
  /\ cancels 2%nat (run before connecting) = 0%nat
  /\ cancels 2%nat (run (before ++ refused :: after) connecting) = 1%nat.
Proof.
  cbv zeta.
  assert (W : well_formed connecting).
  { unfold connecting, at_menu, launched.
    apply well_formed_run, well_formed_run, well_formed_launch. }
  assert (H : pending connecting !! 3%nat =
              Some (K_connect "ws://host.example:80" 2%nat))
    by (vm_compute; reflexivity).
  assert (B : forall o', DeferredFired 3%nat o'
                         ∉ [Call_toggleFullscreen; Call_showHelpPopup]).
  { intros o' Hin.
    repeat (apply elem_of_cons in Hin as [Hin|Hin]; [discriminate Hin|]).
    by apply elem_of_nil in Hin. }
  split; [exact W|]. split; [exact H|]. split; [exact B|].
  exact (proj1 (proj2 (proj2 connect_outcome_cancels_dialog_once))
           connecting 3%nat "ws://host.example:80" 2%nat
           (Errback (JsStr "refused"))
           [Call_toggleFullscreen; Call_showHelpPopup]
           [Call_gotoMainMenuScreen;
            DeferredFired 3%nat (Callback (JsStr "late"))] W H B).
Defined.

Example refused_connection_surfaces_one_error :
  added connecting
    (state_of (deliver (DeferredFired 3%nat (Errback (JsStr "refused")))
                 connecting)) =
  [Log_write "Error connecting to ws://host.example:80" (Some (JsStr "refused"));
   Deferred_cancel 2%nat;
   StatusScreen_showConnectionFailed (JsStr "refused")].
Proof. vm_compute; reflexivity. Qed.

Example established_connection_enters_game :
  let g := state_of (deliver (DeferredFired 3%nat (Callback (JsStr "session")))
                       connecting) in
  isInGame g = true
  /\ added connecting g =
     [Log_write "Connection established to ws://host.example:80" None;
      Deferred_cancel 2%nat;
      ScreenManager_setScreen (GameScreen (JsStr "session"))].
Proof. cbv zeta. split; vm_compute; reflexivity. Qed.

Example empty_host_is_rejected :
  added (at_menu crowded_scope)
    (state_of (connectToHost "ws://" (at_menu crowded_scope))) =
  [StatusScreen_showConnecting "ws://" 2%nat;
   ConnectDeferred_errback (InvalidAddress "ws://");
   Log_write "Error connecting to ws://" (Some (InvalidAddress "ws://"));
   Deferred_cancel 2%nat;
   StatusScreen_showConnectionFailed (InvalidAddress "ws://")].
Proof. vm_compute; reflexivity. Qed.

End ClientFacts.

(* ===================================================================== *)
(** * Sequences of commands *)
(* ===================================================================== *)

Module SimSequences.
Import JS Sim Samples SimReadings MoreSamples SimFacts.

Section WithTools.

Variable tool_use :
  ToolId -> Command -> gmap EntityId Entity -> Completion (gmap EntityId Entity).

Abbreviation executeCommand := (Sim.executeCommand tool_use).
Abbreviation executeCommands := (Sim.executeCommands tool_use).

Lemma getTarget_lookup c w tid e :
  getTarget c w = Some (tid, e) <->
  target c = Some tid /\ entities w !! tid = Some e.
Proof.
  unfold getTarget. destruct (target c) as [id|]; [|by split; [|intros []]].
  destruct (entities w !! id) as [e'|] eqn:E.
  - split.
    + by intros [= <- <-].
    + intros [[= <-] H]. rewrite E in H. by injection H as <-.
  - split; [done|]. intros [[= <-] H]. rewrite E in H. done.
Qed.

Lemma entities_rotated tid e q w :
  entities w !! tid = Some e ->
  entities (rotated tid q w) =
    <[tid := mkEntity (position e) q (heldTool e)]> (entities w).
Proof.
  intros E. unfold rotated, setRotation, getQuaternion; simpl.
  apply map_eq; intros i. destruct (decide (tid = i)) as [->|Hne].
  - by rewrite lookup_alter_eq, lookup_insert_eq, E.
  - by rewrite lookup_alter_ne, lookup_insert_ne.
Qed.

Lemma executeCommand_other c typeId w :
  executeCommand c (OtherCommand typeId) w = Normal w.
Proof.
  unfold Sim.executeCommand; simpl. by destruct (getTarget c w) as [[tid e]|].
Qed.

(** X1: The rotation is replaced, not accumulated, and nothing else of the
    world is written by the controller itself: a target that holds no tool
    ends a sequence of commands with the rotation of the last
    [PlayerMoveCommand] (its own if there is none), at the position it had;
    every other entity is as it was, no tool was used, and the sequence
    ends normally. *)
Theorem executeCommands_last_rotation_wins c tid commands : forall e w,
  getTarget c w = Some (tid, e) ->
  heldTool e = None ->
  exists w',
    executeCommands c commands w = Normal w'
    /\ entities w' =
         <[tid := mkEntity (position e)
                    (last_rotation commands (rotation e)) None]> (entities w)
    /\ useLog w' = useLog w.
Proof.
  induction commands as [|command rest IH]; intros e w Ht Hh.
  - exists w. split; [done|]. split; [|done]. simpl.
    apply getTarget_lookup in Ht as [_ E]. destruct e as [p r h].
    simpl in *. subst h. by rewrite insert_id.
  - pose proof Ht as Ht'. apply getTarget_lookup in Ht' as [Hc E].
    destruct command as [q actions|typeId].
    + assert (Hw : executeCommand c (PlayerMoveCommand q actions) w =
                   Normal (rotated tid q w)).
      { rewrite (executeCommand_move _ _ _ _ _ _ _ Ht), Hh.
        by destruct (ToBoolean actions). }
      pose proof (entities_rotated tid e q w E) as Hr. rewrite Hh in Hr.
      destruct (IH (mkEntity (position e) q None) (rotated tid q w))
        as (w' & Hrun & He & Hl); [|done|].
      { apply getTarget_lookup. split; [done|].
        by rewrite Hr, lookup_insert_eq. }
      exists w'. simpl. rewrite Hw. simpl. split; [exact Hrun|].
      split; [|by rewrite Hl].
      rewrite He, Hr. simpl. by rewrite insert_insert_eq.
    + destruct (IH e w Ht Hh) as (w' & Hrun & He & Hl).
      exists w'. simpl.
      rewrite executeCommand_other. simpl. done.
Qed.

(** X2: Commands that are not [PlayerMoveCommand]s are ignored, whatever the
    controller is bound to and whatever its target holds: a sequence of
    them ends normally in the world it started in. *)
Theorem executeCommands_ignores_other_commands c typeIds w :
  executeCommands c (List.map OtherCommand typeIds) w = Normal w.
Proof.
  induction typeIds as [|typeId rest IH]; [done|].
  simpl. rewrite executeCommand_other. simpl. exact IH.
Qed.

(** X3: The rotation is written before the tool is used, and the controller
    writes nothing after it: the tool's [use] is given the entities with
    the command's rotation already on the target, and the command ends as
    that call ends, with the entities that call left; the scratch
    quaternion holds the command's rotation. *)
Theorem executeCommand_rotates_before_use c tid e tool q actions w :
  getTarget c w = Some (tid, e) ->
  heldTool e = Some tool ->
  ToBoolean actions = true ->
  let command := PlayerMoveCommand q actions in
  let seen := <[tid := mkEntity (position e) q (Some tool)]> (entities w) in
  let r := executeCommand c command w in
  thrown r = thrown (tool_use tool command seen)
  /\ entities (state_of r) = state_of (tool_use tool command seen)
  /\ tmpQuat_ (state_of r) = q.
Proof.
  intros Ht Hh Ha. cbv zeta.
  rewrite (executeCommand_move _ _ _ _ _ _ _ Ht), Hh, Ha.
  apply getTarget_lookup in Ht as [_ E].
  unfold use. rewrite (entities_rotated tid e q w E), Hh.
  by destruct (tool_use tool (PlayerMoveCommand q actions) _).
Qed.

End WithTools.

Lemma executeCommands_last_rotation_wins_witness :
  getTarget unarmed sample_world =
    Some (2%nat, mkEntity origin q_identity None)
  /\ heldTool (mkEntity origin q_identity None) = None
  /\ exists w',
       Sim.executeCommands idle_tool unarmed
         [two_actions; other_command; PlayerMoveCommand q_back (JsNum 0);
          other_command]
         sample_world = Normal w'
       /\ entities w' =
            <[2%nat := mkEntity origin q_back None]> (entities sample_world)
       /\ useLog w' = useLog sample_world.
Proof.
  split; [reflexivity|]. split; [reflexivity|].
  exact (executeCommands_last_rotation_wins idle_tool unarmed 2%nat
           [two_actions; other_command; PlayerMoveCommand q_back (JsNum 0);
            other_command]
           (mkEntity origin q_identity None) sample_world eq_refl eq_refl).
Defined.

Lemma executeCommand_rotates_before_use_witness :
  getTarget armed sample_world =
    Some (1%nat, mkEntity origin q_identity (Some 7%nat))
  /\ heldTool (mkEntity origin q_identity (Some 7%nat)) = Some 7%nat
  /\ ToBoolean (JsArr [JsNum 1; JsNum 2]) = true
  /\ entities (state_of (Sim.executeCommand idle_tool armed two_actions
                           sample_world)) =
     <[1%nat := mkEntity origin q_turned (Some 7%nat)]> (entities sample_world)
  /\ tmpQuat_ (state_of (Sim.executeCommand idle_tool armed two_actions
                           sample_world)) = q_turned.
Proof.
  split; [reflexivity|]. split; [reflexivity|]. split; [reflexivity|].
  exact (proj2 (executeCommand_rotates_before_use idle_tool armed 1%nat
                  (mkEntity origin q_identity (Some 7%nat)) 7%nat q_turned
                  (JsArr [JsNum 1; JsNum 2]) sample_world
                  eq_refl eq_refl eq_refl)).
Defined.

End SimSequences.

(* ===================================================================== *)
(** * The client session: menus, popups, launch *)
(* ===================================================================== *)

Module ClientSessions.
Import JS Client Samples ClientReadings MoreSamples ClientFacts.

(** ** Address validation *)

(** X4: [validAddress] (lines 539-542) holds exactly of the addresses with a
    scheme, a domain and a port other than [0]: an absent port ([null])
    passes the comparison with [''], port [0] fails it. *)
Theorem validAddress_rejects_port_zero uri :
  validAddress uri = true <->
  getScheme uri <> "" /\ getDomain uri <> "" /\ getPort uri <> Some 0.
Proof.
  unfold validAddress, port_value.
  rewrite !andb_true_iff, !negb_true_iff, !String.eqb_neq.
  destruct (getPort uri) as [n|]; simpl.
  - rewrite Z.eqb_neq. split.
    + intros [[Hs Hd] Hp]. split; [done|]. split; [done|]. by intros [= ->].
    + intros (Hs & Hd & Hp). split; [done|]. intros ->. by destruct Hp.
  - split; [by intros [[? ?] _]|]. by intros (? & ? & _).
Qed.

(** ** The main menu *)

(** X5: [gotoMainMenuScreen] never trips the assertion of [exitGame_]: it
    ends normally from every game, in or out of a game, with assertions
    enabled or not; the game is then out of a game and the main menu is the
    one call made.  From there the three menu pushes pass their assertion
    and do nothing; in a game, with assertions enabled, each of them
    throws instead. *)
Theorem gotoMainMenuScreen_leaves_the_game g :
  (exists g',
     gotoMainMenuScreen g = Normal g'
     /\ isInGame g' = false
     /\ added g g' = [ScreenManager_setScreen MainMenuScreen]
     /\ pending g' = pending g
     /\ pushSinglePlayerMenuScreen g' = Normal g'
     /\ pushMultiPlayerMenuScreen g' = Normal g'
     /\ pushCreateMapMenuScreen g' = Normal g')
  /\ (isInGame g && ENABLE_ASSERTS (env g) = true ->
      pushSinglePlayerMenuScreen g = Throw AssertionError g
      /\ pushMultiPlayerMenuScreen g = Throw AssertionError g
      /\ pushCreateMapMenuScreen g = Throw AssertionError g).
Proof.
  unfold gotoMainMenuScreen, exitGame_, pushSinglePlayerMenuScreen,
    pushMultiPlayerMenuScreen, pushCreateMapMenuScreen, assert, seq, emit,
    skip, isInGame.
  destruct (inGame_ g) eqn:E, (ENABLE_ASSERTS (env g)) eqn:A; simpl;
    rewrite ?E, ?A; simpl;
    (split; [eexists; split; [reflexivity|]; simpl; rewrite ?A, ?E; simpl;
             split; [done|]; split; [apply drop_app_length|done]
            |done]).
Qed.

Lemma gotoMainMenuScreen_eq g :
  exists g',
    gotoMainMenuScreen g = Normal g'
    /\ inGame_ g' = false
    /\ trace g' = trace g ++ [ScreenManager_setScreen MainMenuScreen].
Proof.
  unfold gotoMainMenuScreen, exitGame_, assert, seq, emit, skip, isInGame.
  destruct (inGame_ g) eqn:E, (ENABLE_ASSERTS (env g)); simpl;
    rewrite ?E; simpl; eexists; (split; [reflexivity|]); simpl;
    rewrite ?E; done.
Qed.

(** ** Popups and the input manager *)

Lemma input_enabled_app t1 t2 :
  input_enabled (t1 ++ t2) =
  fold_left
    (fun last e => match e with Input_setEnabled b => Some b | _ => last end)
    t2 (input_enabled t1).
Proof. apply fold_left_app. Qed.

(** X6: The help dialog brackets its stay: opening it clicks, disables input
    when in a game, and pushes the screen; whichever way its deferred then
    fires ([addBoth]), the game clicks again and re-enables input when in a
    game.  The in-game flag is kept, and the callbacks are taken off again,
    so that a second firing does nothing. *)
Theorem help_popup_restores_input g o :
  let d := nextDeferred g in
  let g1 := state_of (showHelpPopup g) in
  let g2 := state_of (deliver (DeferredFired d o) g1) in
  added g g2 =
    click g ++ (if inGame_ g then [Input_setEnabled false] else [])
    ++ [ScreenManager_pushScreen (HelpScreen d)]
    ++ click g ++ (if inGame_ g then [Input_setEnabled true] else [])
  /\ thrown (deliver (DeferredFired d o) g1) = None
  /\ isInGame g2 = isInGame g
  /\ (isInGame g = true -> input_enabled (trace g2) = Some true)
  /\ pending g2 !! d = None
  /\ deliver (DeferredFired d o) g2 = Normal g2.
Proof.
  cbv zeta.
  unfold showHelpPopup, prePopup_, playClick, seq, emit, register,
    emit_returning, isInGame, click.
  destruct (soundFxMuted (settings g)) eqn:M, (inGame_ g) eqn:E; simpl;
    rewrite ?E; simpl; rewrite lookup_insert_eq; simpl;
    unfold postPopup_, playClick, seq, emit, isInGame; simpl;
    rewrite ?M; simpl; rewrite ?E; simpl;
    (split; [apply added_trace; simpl; rewrite <- ?app_assoc; reflexivity|]);
    (split; [done|]); (split; [done|]);
    (split; [try done; intros _; rewrite !input_enabled_app; reflexivity|]);
    rewrite lookup_delete_eq; done.
Qed.

Lemma set_trace_nil g : set_trace (trace g ++ []) g = g.
Proof. destruct g. unfold set_trace; simpl. by rewrite app_nil_r. Qed.

Lemma set_trace_set_trace t1 t2 g :
  set_trace (trace (set_trace (trace g ++ t1) g) ++ t2)
    (set_trace (trace g ++ t1) g) =
  set_trace (trace g ++ t1 ++ t2) g.
Proof. unfold set_trace; simpl. by rewrite <- app_assoc. Qed.

Lemma playClick_eq g :
  playClick g = Normal (set_trace (trace g ++ click g) g).
Proof.
  unfold playClick, click, emit.
  destruct (soundFxMuted (settings g)); simpl; [|done].
  by rewrite set_trace_nil.
Qed.

Lemma popup_input_eq b g :
  (if isInGame g then emit (Input_setEnabled b) g else Normal g) =
  Normal (set_trace
            (trace g ++ if inGame_ g then [Input_setEnabled b] else []) g).
Proof.
  unfold isInGame, emit. destruct (inGame_ g); [done|].
  by rewrite set_trace_nil.
Qed.

Lemma prePopup__eq g :
  prePopup_ g =
  Normal (set_trace
            (trace g ++ click g ++
             if inGame_ g then [Input_setEnabled false] else []) g).
Proof.
  unfold prePopup_, seq. rewrite playClick_eq.
  unfold and_then; cbv beta iota.
  rewrite popup_input_eq, set_trace_set_trace. reflexivity.
Qed.

Lemma postPopup__eq g :
  postPopup_ g =
  Normal (set_trace
            (trace g ++ click g ++
             if inGame_ g then [Input_setEnabled true] else []) g).
Proof.
  unfold postPopup_, seq. rewrite playClick_eq.
  unfold and_then; cbv beta iota.
  rewrite popup_input_eq, set_trace_set_trace. reflexivity.
Qed.

(** The calls of [refreshSettings_]. *)
Lemma refreshSettings__eq g :
  refreshSettings_ g =
  Normal (set_trace
            (trace g ++
             [Mouse_setSensitivity (mouseSensitivity (settings g));
              Mouse_setLockOnFocus (mouseLock (settings g));
              if inGame_ g && mouseLock (settings g)
              then Mouse_lock else Mouse_unlock;
              Music_setMuted (musicMuted (settings g))]) g).
Proof.
  unfold refreshSettings_, seq, emit.
  destruct (inGame_ g && mouseLock (settings g)); simpl;
    unfold set_trace; simpl; rewrite <- !app_assoc; reflexivity.
Qed.

Lemma input_enabled_last t b :
  input_enabled (t ++ [Input_setEnabled b]) = Some b.
Proof. by rewrite input_enabled_app. Qed.

Lemma input_enabled_click t g :
  input_enabled (t ++ click g) = input_enabled t.
Proof.
  rewrite input_enabled_app. unfold click.
  by destruct (soundFxMuted (settings g)).
Qed.

(** X7: The settings dialog does not: its callbacks are added with
    [addCallback], and the callback reads the free identifier [buttonId]
    before it resumes.  In a game, input is enabled again after the dialog
    only if its deferred fired with success and the global object binds
    [buttonId]; otherwise the last call on the input manager is the one
    that disabled it. *)
Theorem settings_popup_may_leave_input_disabled g o :
  isInGame g = true ->
  let d := nextDeferred g in
  let g1 := state_of (showSettingsPopup g) in
  let g2 := state_of (deliver (DeferredFired d o) g1) in
  input_enabled (trace g2) =
    Some match o with
         | Callback _ =>
             match globalScope (env g) !! "buttonId" with
             | Some _ => true
             | None => false
             end
         | Errback _ => false
         end.
Proof.
  unfold isInGame. intros E. cbv zeta.
  unfold showSettingsPopup, seq. rewrite prePopup__eq, E. simpl.
  unfold register, emit_returning. simpl.
  rewrite lookup_insert_eq.
  assert (Opened : forall t,
            input_enabled
              (((trace g ++ click g ++ [Input_setEnabled false]) ++
                [ScreenManager_pushScreen (SettingsScreen (nextDeferred g))])
               ++ t) =
            fold_left
              (fun last e =>
                 match e with Input_setEnabled b => Some b | _ => last end)
              t (Some false)).
  { intros t. rewrite !input_enabled_app. simpl.
    rewrite fold_left_app. reflexivity. }
  destruct o as [v|arg]; simpl.
  - unfold settingsPopupCallback, GetIdentifier. simpl.
    destruct (globalScope (env g) !! "buttonId") as [b|]; simpl.
    + unfold seq. destruct (loose_eq_save b).
      * rewrite refreshSettings__eq. simpl. rewrite postPopup__eq. simpl.
        rewrite E. rewrite app_assoc. apply input_enabled_last.
      * unfold skip. simpl. rewrite postPopup__eq. simpl.
        rewrite E. rewrite app_assoc. apply input_enabled_last.
    + rewrite <- (app_nil_r (_ ++ [ScreenManager_pushScreen _])).
      apply Opened.
  - rewrite <- (app_nil_r (_ ++ [ScreenManager_pushScreen _])).
    apply Opened.
Qed.

Lemma settings_popup_may_leave_input_disabled_witness :
  isInGame playing = true
  /\ input_enabled
       (trace
          (run [Call_showSettingsPopup;
                DeferredFired 4%nat (Errback (JsStr "closed"))] playing)) =
     Some false.
Proof.
  split; [vm_compute; reflexivity|].
  exact (settings_popup_may_leave_input_disabled playing
           (Errback (JsStr "closed")) eq_refl).
Defined.

(** ** Launch *)

Lemma setupSucceeded__eq g :
  setupSucceeded_ g =
  (fun g =>
     match launchOptions_host g with
     | Some host =>
         if negb (String.eqb host "") then connectToHost host g
         else gotoMainMenuScreen g
     | None => gotoMainMenuScreen g
     end)
    (set_trace (trace g ++ [ScreenManager_popAllScreens; StartTicking]) g).
Proof.
  unfold setupSucceeded_, seq, emit. simpl.
  unfold set_trace at 1 2. simpl. rewrite <- app_assoc. reflexivity.
Qed.

(** X8: When both setup steps succeed, the game reaches the same point
    whether their deferreds had fired when they were returned or fire
    later: the splash screen was set, the two steps were called in order,
    all screens were popped and ticking was started, once each, and
    nothing is left waiting.  From there a non-empty launch host is
    connected to, and otherwise (no host, or the empty string) the main
    menu is shown. *)
Theorem launch_success_reaches_ready e host s fs sl v1 v2 :
  (forall arg, graphicsContext_setup e <> Some (Errback arg)) ->
  (forall arg, renderState_setup e <> Some (Errback arg)) ->
  let g := run (setup_outcomes e (Callback v1) (Callback v2))
             (state_of (new_ClientGame e host s fs sl)) in
  g = state_of
        match host with
        | Some h =>
            if negb (String.eqb h "") then connectToHost h (ready e host s fs sl)
            else gotoMainMenuScreen (ready e host s fs sl)
        | None => gotoMainMenuScreen (ready e host s fs sl)
        end
  /\ (host = None \/ host = Some "" ->
      g = mkClientGame e s host false fs sl ∅ 2%nat
            (trace (ready e host s fs sl) ++
             [ScreenManager_setScreen MainMenuScreen])).
Proof.
  intros HG HR. cbv zeta.
  assert (Route :
    state_of (setupSucceeded_
                (mkClientGame e s host false fs sl ∅ 2%nat
                   [ScreenManager_setScreen SplashScreen;
                    GraphicsContext_setup 0%nat;
                    RenderState_setup 1%nat])) =
    state_of
      match host with
      | Some h =>
          if negb (String.eqb h "") then connectToHost h (ready e host s fs sl)
          else gotoMainMenuScreen (ready e host s fs sl)
      | None => gotoMainMenuScreen (ready e host s fs sl)
      end).
  { rewrite setupSucceeded__eq. reflexivity. }
  assert (Reached :
    run (setup_outcomes e (Callback v1) (Callback v2))
      (state_of (new_ClientGame e host s fs sl)) =
    state_of (setupSucceeded_
                (mkClientGame e s host false fs sl ∅ 2%nat
                   [ScreenManager_setScreen SplashScreen;
                    GraphicsContext_setup 0%nat;
                    RenderState_setup 1%nat]))).
  { unfold setup_outcomes, new_ClientGame, beginSetup_, seq, emit,
      emit_returning, addCallbacks, register; simpl.
    destruct (graphicsContext_setup e) as [[w1|arg1]|] eqn:G;
      [|by destruct (HG arg1)|]; simpl;
      unfold emit_returning, addCallbacks, register; simpl.
    - destruct (renderState_setup e) as [[w2|arg2]|] eqn:Rn;
        [|by destruct (HR arg2)|]; simpl; [done|].
      rewrite insert_empty, lookup_singleton_eq, delete_singleton_eq.
      reflexivity.
    - rewrite insert_empty, lookup_singleton_eq, delete_singleton_eq. simpl.
      unfold emit_returning, addCallbacks, register; simpl.
      destruct (renderState_setup e) as [[w2|arg2]|] eqn:Rn;
        [|by destruct (HR arg2)|]; simpl; [done|].
      rewrite insert_empty, lookup_singleton_eq, delete_singleton_eq.
      reflexivity. }
  split; [by rewrite Reached, Route|].
  intros Hhost. rewrite Reached, Route.
  unfold gotoMainMenuScreen, seq, emit, skip, isInGame, ready.
  by destruct Hhost as [->| ->].
Qed.

(** X9: When step 2 of setup fails, now or later, after step 1 succeeded:
    all screens are popped and the error popup is shown with the message
    of step 2 and the reason ([null] for a falsy reason); ticking is not
    started, no screen is set and nothing is left waiting. *)
Theorem launch_step2_failure_is_surfaced e host s fs sl v1 arg :
  (forall arg1, graphicsContext_setup e <> Some (Errback arg1)) ->
  (renderState_setup e = None \/ renderState_setup e = Some (Errback arg)) ->
  run (setup_outcomes e (Callback v1) (Errback arg))
    (state_of (new_ClientGame e host s fs sl)) =
  mkClientGame e s host false fs sl ∅ 2%nat
    ([ScreenManager_setScreen SplashScreen;
      GraphicsContext_setup 0%nat;
      RenderState_setup 1%nat]
     ++ setup_error "Unable to setup graphics resources" arg).
Proof.
  intros HG HR.
  unfold setup_outcomes, new_ClientGame, beginSetup_, seq, emit,
    emit_returning, addCallbacks, register; simpl.
  destruct (graphicsContext_setup e) as [[w1|arg1]|] eqn:G;
    [|by destruct (HG arg1)|]; simpl;
    unfold emit_returning, addCallbacks, register; simpl.
  - destruct HR as [-> | ->]; simpl; [|done].
    rewrite insert_empty, lookup_singleton_eq, delete_singleton_eq.
    reflexivity.
  - rewrite insert_empty, lookup_singleton_eq, delete_singleton_eq. simpl.
    unfold emit_returning, addCallbacks, register; simpl.
    destruct HR as [-> | ->]; simpl; [|done].
    rewrite insert_empty, lookup_singleton_eq, delete_singleton_eq.
    reflexivity.
Qed.

Lemma launch_success_reaches_ready_witness :
  (forall arg,
     graphicsContext_setup (sample_env crowded_scope) <> Some (Errback arg))
  /\ (forall arg,
        renderState_setup (sample_env crowded_scope) <> Some (Errback arg))
  /\ at_menu crowded_scope =
     state_of (gotoMainMenuScreen
                 (ready (sample_env crowded_scope) None sample_settings
                    false true)).
Proof.
  assert (H1 : forall arg,
            graphicsContext_setup (sample_env crowded_scope)
            <> Some (Errback arg)) by done.
  assert (H2 : forall arg,
            renderState_setup (sample_env crowded_scope)
            <> Some (Errback arg)) by done.
  split; [exact H1|]. split; [exact H2|].
  exact (proj1 (launch_success_reaches_ready (sample_env crowded_scope) None
                  sample_settings false true JsUndefined JsUndefined H1 H2)).
Defined.

Lemma launch_step2_failure_is_surfaced_witness :
  (forall arg1,
     graphicsContext_setup (sample_env bare_scope) <> Some (Errback arg1))
  /\ (renderState_setup (sample_env bare_scope) = None
      \/ renderState_setup (sample_env bare_scope)
         = Some (Errback (JsStr "no shaders")))
  /\ run [DeferredFired 0%nat (Callback JsUndefined);
          DeferredFired 1%nat (Errback (JsStr "no shaders"))]
       (launched bare_scope) =
     mkClientGame (sample_env bare_scope) sample_settings None false false
       true ∅ 2%nat
       [ScreenManager_setScreen SplashScreen;
        GraphicsContext_setup 0%nat;
        RenderState_setup 1%nat;
        ScreenManager_popAllScreens;
        StatusScreen_showError "setup" "Unable to setup graphics resources"
          (JsStr "no shaders")].
Proof.
  assert (H1 : forall arg1,
            graphicsContext_setup (sample_env bare_scope)
            <> Some (Errback arg1)) by done.
  assert (H2 : renderState_setup (sample_env bare_scope) = None
               \/ renderState_setup (sample_env bare_scope)
                  = Some (Errback (JsStr "no shaders"))) by (by left).
  split; [exact H1|]. split; [exact H2|].
  exact (launch_step2_failure_is_surfaced (sample_env bare_scope) None
           sample_settings false true JsUndefined (JsStr "no shaders") H1 H2).
Defined.

End ClientSessions.

(* ===================================================================== *)
(** * Connect attempts that end inside [connectToHost] *)
(* ===================================================================== *)

Module ClientConnections.
Import JS Client Samples ClientReadings MoreSamples ClientFacts.

(** ** What [connectToHost] comes to, case by case *)

Lemma connectToHost_invalid_eq g address uri name :
  goog_Uri (env g) address = inr uri ->
  settings_userName (globalScope (env g)) = inr name ->
  validAddress uri = false ->
  connectToHost address g =
  Normal (set_trace
            (trace g ++
             rejection_events address (nextDeferred g) (InvalidAddress address))
            (set_nextDeferred (S (nextDeferred g)) g)).
Proof.
  intros Huri Hname Hv. rewrite (connectToHost_parsed g address uri Huri).
  unfold connectWith, dialog_shown. cbv zeta.
  rewrite Hv. simpl. rewrite Hname.
  unfold connectSettled, seq, emit, rejection_events, set_trace; simpl.
  rewrite <- !app_assoc. reflexivity.
Qed.

Lemma connectToHost_unsupported_eq g address uri name :
  goog_Uri (env g) address = inr uri ->
  settings_userName (globalScope (env g)) = inr name ->
  validAddress uri = true ->
  String.eqb (getScheme uri) "ws" = false ->
  String.eqb (getScheme uri) "local" = false ->
  connectToHost address g =
  Normal (set_trace
            (trace g ++
             rejection_events address (nextDeferred g)
               (UnsupportedScheme (getScheme uri)))
            (set_nextDeferred (S (nextDeferred g)) g)).
Proof.
  intros Huri Hname Hv Hws Hlocal.
  rewrite (connectToHost_parsed g address uri Huri).
  unfold connectWith, dialog_shown, attemptConnection. cbv zeta.
  rewrite Hv. simpl. rewrite Hname. simpl.
  rewrite Hws, Hlocal.
  unfold connectSettled, seq, emit, rejection_events, set_trace; simpl.
  rewrite <- !app_assoc. reflexivity.
Qed.

Lemma connectToHost_local_eq g address uri name :
  goog_Uri (env g) address = inr uri ->
  settings_userName (globalScope (env g)) = inr name ->
  validAddress uri = true ->
  getScheme uri = "local" ->
  connectToHost address g =
  Normal (connect_left address [InvokeConnector Local uri] g).
Proof.
  intros Huri Hname Hv Hs.
  rewrite (connectToHost_parsed g address uri Huri).
  unfold connectWith, dialog_shown, attemptConnection,
    connectToLocalHost_. cbv zeta.
  rewrite Hv. simpl. rewrite Hname. simpl. rewrite Hs. simpl.
  unfold connect_left, set_trace; simpl. rewrite <- !app_assoc. reflexivity.
Qed.

(** The calls made after the dialog by a call of [connectToHost] that
    ends in an error. *)
Lemma connectToHost_throw_eq g address e :
  match goog_Uri (env g) address with
  | inl e' => e' = e
  | inr _ => settings_userName (globalScope (env g)) = inl e
  end ->
  connectToHost address g =
  Throw e (connect_left address (calls_before_error address g) g).
Proof.
  unfold calls_before_error.
  destruct (goog_Uri (env g) address) as [e'|uri] eqn:Huri.
  - intros ->. by rewrite (connectToHost_unparsed g address e Huri).
  - intros He. rewrite (connectToHost_parsed g address uri Huri).
    unfold connectWith, dialog_shown. cbv zeta.
    destruct (validAddress uri); simpl; rewrite He;
      unfold connect_left, set_trace; simpl; rewrite <- ?app_assoc;
      reflexivity.
Qed.

(** ** Dialogs without callbacks *)

Lemma orphaned_deliver dl i g :
  orphaned dl g ->
  orphaned dl (state_of (deliver i g))
  /\ cancels dl (state_of (deliver i g)) = cancels dl g.
Proof.
  intros (W & Hlt & Hno).
  assert (W' := well_formed_deliver i g W).
  destruct (outcome_or_not i g) as [(d' & o & a' & dl' & -> & Hd')|Hn].
  - destruct (deliver_outcome d' o a' dl' g Hd') as (N & P & C).
    split; [split; [done|split]|].
    + rewrite N. done.
    + rewrite P. intros d a H. apply lookup_delete_Some in H as [_ H].
      by apply (Hno d a).
    + rewrite C. destruct (Nat.eqb_spec dl' dl) as [->|]; [|lia].
      by destruct (Hno d' a').
  - assert (M : exists g0,
              well_formed g0 /\ nextDeferred g0 = nextDeferred g
              /\ cancels dl g0 = cancels dl g
              /\ (forall d a, pending g0 !! d <> Some (K_connect a dl))
              /\ mild g0 (state_of (deliver i g))).
    { destruct i as [d' o| | | | |address|frame|frame| | | | |location message opt_arg|];
        try (exists g; split; [done|]; split; [done|]; split; [done|];
             split; [done|]; by apply (deliver_mild _ g Hn)).
      exists (set_pending (delete d' (pending g)) g).
      split; [by apply well_formed_delete|]. split; [done|]. split; [done|].
      split; [|by apply (deliver_mild _ g Hn)].
      simpl. intros d a H. apply lookup_delete_Some in H as [_ H].
      by apply (Hno d a). }
    destruct M as (g0 & W0 & N0 & C0 & Hno0 & M).
    destruct (M W0) as (_ & N & C & P & K). rewrite N0 in *.
    split; [split; [done|split]|].
    + lia.
    + intros d a H.
      destruct (decide (d < nextDeferred g)%nat) as [L|G].
      * rewrite P in H by done. by apply (Hno0 d a).
      * apply K in H; lia.
    + by rewrite C, C0.
Qed.

Lemma orphaned_run dl inputs : forall g,
  orphaned dl g ->
  orphaned dl (run inputs g) /\ cancels dl (run inputs g) = cancels dl g.
Proof.
  induction inputs as [|i rest IH]; intros g H; [done|].
  simpl. destruct (orphaned_deliver dl i g H) as [H' C].
  destruct (IH _ H') as [H'' C']. split; [done|]. by rewrite C', C.
Qed.

(** The dialog of a call of [connectToHost] that left no callbacks. *)
Lemma connectToHost_orphans g address :
  well_formed g ->
  pending (state_of (connectToHost address g)) = pending g ->
  (nextDeferred g < nextDeferred (state_of (connectToHost address g)))%nat ->
  orphaned (nextDeferred g) (state_of (connectToHost address g)).
Proof.
  intros W P N.
  destruct (mild_connectToHost address g W) as (W' & _).
  split; [exact W'|]. split; [exact N|].
  rewrite P. intros d a H.
  destruct W as (_ & W2 & _). apply W2 in H as [H _]. lia.
Qed.

Lemma cancels_fresh g :
  well_formed g -> cancels (nextDeferred g) g = 0%nat.
Proof. intros (_ & _ & W3 & _). by apply W3. Qed.

Lemma cancels_rejection address dl arg :
  count (is_cancel_of dl) (rejection_events address dl arg) = 1%nat.
Proof. unfold count; simpl. by rewrite Nat.eqb_refl. Qed.

(** A call of [connectToHost] that rejects the address by itself. *)
Lemma rejection_is_final g address arg inputs :
  well_formed g ->
  connectToHost address g =
    Normal (set_trace
              (trace g ++ rejection_events address (nextDeferred g) arg)
              (set_nextDeferred (S (nextDeferred g)) g)) ->
  cancels (nextDeferred g)
    (run inputs
       (set_trace (trace g ++ rejection_events address (nextDeferred g) arg)
          (set_nextDeferred (S (nextDeferred g)) g))) = 1%nat.
Proof.
  intros W E.
  pose proof (connectToHost_orphans g address W) as O.
  rewrite E in O. simpl in O. specialize (O eq_refl ltac:(lia)).
  destruct (orphaned_run _ inputs _ O) as [_ ->].
  erewrite cancels_trace by reflexivity.
  by rewrite cancels_fresh, cancels_rejection.
Qed.

(** ** The theorems *)

(** X10: An address that fails validation, when [settings.userName] can be
    read: [connectToHost] ends normally having shown the connecting
    dialog, made the [errback] with the invalid-address message, logged the
    error, cancelled the dialog and shown the connection-failed dialog with
    that message, in this order and nothing else: no connector is entered,
    no callbacks are left waiting, the in-game flag is as it was.  Whatever
    reaches the game afterwards, that dialog stays cancelled exactly
    once. *)
Theorem connectToHost_invalid_address_is_surfaced g address uri name :
  well_formed g ->
  goog_Uri (env g) address = inr uri ->
  settings_userName (globalScope (env g)) = inr name ->
  validAddress uri = false ->
  exists g',
    connectToHost address g = Normal g'
    /\ added g g' =
         rejection_events address (nextDeferred g) (InvalidAddress address)
    /\ pending g' = pending g
    /\ inGame_ g' = inGame_ g
    /\ forall inputs, cancels (nextDeferred g) (run inputs g') = 1%nat.
Proof.
  intros W Huri Hname Hv.
  pose proof (connectToHost_invalid_eq g address uri name Huri Hname Hv) as E.
  eexists. split; [exact E|].
  split; [by apply added_trace|]. split; [done|]. split; [done|].
  intros inputs. by apply rejection_is_final.
Qed.

(** X11: An address that passes validation with a scheme other than [ws] and
    [local], when [settings.userName] can be read: the same course with
    the unsupported-scheme message. *)
Theorem connectToHost_unsupported_scheme_is_surfaced g address uri name :
  well_formed g ->
  goog_Uri (env g) address = inr uri ->
  settings_userName (globalScope (env g)) = inr name ->
  validAddress uri = true ->
  getScheme uri <> "ws" ->
  getScheme uri <> "local" ->
  exists g',
    connectToHost address g = Normal g'
    /\ added g g' =
         rejection_events address (nextDeferred g)
           (UnsupportedScheme (getScheme uri))
    /\ pending g' = pending g
    /\ inGame_ g' = inGame_ g
    /\ forall inputs, cancels (nextDeferred g) (run inputs g') = 1%nat.
Proof.
  intros W Huri Hname Hv Hws Hlocal.
  apply String.eqb_neq in Hws, Hlocal.
  pose proof (connectToHost_unsupported_eq g address uri name Huri Hname Hv
                Hws Hlocal) as E.
  eexists. split; [exact E|].
  split; [by apply added_trace|]. split; [done|]. split; [done|].
  intros inputs. by apply rejection_is_final.
Qed.

(** X12: A [local] address that passes validation, when [settings.userName]
    can be read: the local connector is entered and does nothing (its body
    is commented out), so the deferred of the attempt never fires.
    [connectToHost] ends normally having shown the connecting dialog and
    nothing else; no callbacks wait on anything new, and no input that
    reaches the game afterwards cancels the dialog. *)
Theorem connectToHost_local_never_settles g address uri name :
  well_formed g ->
  goog_Uri (env g) address = inr uri ->
  settings_userName (globalScope (env g)) = inr name ->
  validAddress uri = true ->
  getScheme uri = "local" ->
  exists g',
    connectToHost address g = Normal g'
    /\ added g g' =
         [StatusScreen_showConnecting address (nextDeferred g);
          InvokeConnector Local uri]
    /\ pending g' = pending g
    /\ inGame_ g' = inGame_ g
    /\ forall inputs, cancels (nextDeferred g) (run inputs g') = 0%nat.
Proof.
  intros W Huri Hname Hv Hs.
  pose proof (connectToHost_local_eq g address uri name Huri Hname Hv Hs) as E.
  eexists. split; [exact E|].
  split; [by apply added_trace|]. split; [done|]. split; [done|].
  intros inputs.
  pose proof (connectToHost_orphans g address W) as O.
  rewrite E in O. simpl in O. specialize (O eq_refl ltac:(lia)).
  destruct (orphaned_run _ inputs _ O) as [_ ->].
  erewrite cancels_trace by reflexivity.
  by rewrite cancels_fresh.
Qed.

(** X13: A call of [connectToHost] that ends in an error leaves its
    connecting dialog up for good.  The error [e] is either the one
    [new goog.Uri(address)] throws (line 538), or, when the constructor
    returns, the one the expression [settings.userName] throws (line 552:
    no global [settings], or one that is [undefined] or [null]).  Either
    way the call ends in [e] with the dialog shown and before callbacks
    are added to the deferred of the attempt, so nothing that reaches the
    game afterwards cancels the dialog; for an address that failed
    validation the [errback] made before the second error is never
    reported. *)
Theorem connectToHost_error_leaves_dialog g address e :
  well_formed g ->
  match goog_Uri (env g) address with
  | inl e' => e' = e
  | inr _ => settings_userName (globalScope (env g)) = inl e
  end ->
  exists g',
    connectToHost address g = Throw e g'
    /\ added g g' =
         StatusScreen_showConnecting address (nextDeferred g)
         :: calls_before_error address g
    /\ pending g' = pending g
    /\ forall inputs, cancels (nextDeferred g) (run inputs g') = 0%nat.
Proof.
  intros W He.
  pose proof (connectToHost_throw_eq g address e He) as E.
  eexists. split; [exact E|].
  split; [by apply added_trace|]. split; [done|].
  intros inputs.
  pose proof (connectToHost_orphans g address W) as O.
  rewrite E in O. simpl in O. specialize (O eq_refl ltac:(lia)).
  destruct (orphaned_run _ inputs _ O) as [_ ->].
  erewrite cancels_trace by reflexivity.
  rewrite cancels_fresh by done. unfold calls_before_error.
  destruct (goog_Uri (env g) address) as [e'|uri]; [done|].
  by destruct (validAddress uri).
Qed.

(** ** Witnesses *)

Lemma well_formed_at_menu scope : well_formed (at_menu scope).
Proof.
  unfold at_menu, launched. apply well_formed_run, well_formed_launch.
Qed.

Lemma connectToHost_invalid_address_is_surfaced_witness :
  let g := at_menu crowded_scope in
  well_formed g
  /\ goog_Uri (env g) "ws://" = inr (sample_Uri "ws://")
  /\ settings_userName (globalScope (env g)) = inr (JsStr "guest")
  /\ validAddress (sample_Uri "ws://") = false
  /\ exists g',
       connectToHost "ws://" g = Normal g'
       /\ added g g' =
            rejection_events "ws://" (nextDeferred g) (InvalidAddress "ws://")
       /\ forall inputs, cancels (nextDeferred g) (run inputs g') = 1%nat.
Proof.
  cbv zeta.
  assert (H0 : goog_Uri (env (at_menu crowded_scope)) "ws://"
               = inr (sample_Uri "ws://")) by (vm_compute; reflexivity).
  assert (H1 : settings_userName (globalScope (env (at_menu crowded_scope)))
               = inr (JsStr "guest")) by (vm_compute; reflexivity).
  assert (H2 : validAddress (sample_Uri "ws://") = false)
    by (vm_compute; reflexivity).
  split; [apply well_formed_at_menu|]. split; [exact H0|].
  split; [exact H1|]. split; [exact H2|].
  destruct (connectToHost_invalid_address_is_surfaced (at_menu crowded_scope)
              "ws://" (sample_Uri "ws://") (JsStr "guest")
              (well_formed_at_menu crowded_scope) H0 H1 H2)
    as (g' & E & A & _ & _ & C).
  exists g'. split; [exact E|]. split; [exact A|exact C].
Defined.

Lemma connectToHost_unsupported_scheme_is_surfaced_witness :
  let g := at_menu crowded_scope in
  let address := "ftp://host.example:21" in
  let uri := sample_Uri "ftp://host.example:21" in
  well_formed g
  /\ goog_Uri (env g) address = inr uri
  /\ settings_userName (globalScope (env g)) = inr (JsStr "guest")
  /\ validAddress uri = true
  /\ getScheme uri <> "ws"
  /\ getScheme uri <> "local"
  /\ exists g',
       connectToHost address g = Normal g'
       /\ added g g' =
            rejection_events address (nextDeferred g)
              (UnsupportedScheme (getScheme uri))
       /\ forall inputs, cancels (nextDeferred g) (run inputs g') = 1%nat.
Proof.
  cbv zeta.
  assert (H0 : goog_Uri (env (at_menu crowded_scope)) "ftp://host.example:21"
               = inr (sample_Uri "ftp://host.example:21"))
    by (vm_compute; reflexivity).
  assert (H1 : settings_userName (globalScope (env (at_menu crowded_scope)))
               = inr (JsStr "guest")) by (vm_compute; reflexivity).
  assert (H2 : validAddress (sample_Uri "ftp://host.example:21") = true)
    by (vm_compute; reflexivity).
  assert (H3 : getScheme (sample_Uri "ftp://host.example:21") <> "ws")
    by (vm_compute; discriminate).
  assert (H4 : getScheme (sample_Uri "ftp://host.example:21") <> "local")
    by (vm_compute; discriminate).
  split; [apply well_formed_at_menu|]. split; [exact H0|].
  split; [exact H1|]. split; [exact H2|].
  split; [exact H3|]. split; [exact H4|].
  destruct (connectToHost_unsupported_scheme_is_surfaced
              (at_menu crowded_scope) "ftp://host.example:21"
              (sample_Uri "ftp://host.example:21") (JsStr "guest")
              (well_formed_at_menu crowded_scope) H0 H1 H2 H3 H4)
    as (g' & E & A & _ & _ & C).
  exists g'. split; [exact E|]. split; [exact A|exact C].
Defined.

Lemma connectToHost_local_never_settles_witness :
  let g := at_menu crowded_scope in
  let address := "local://blk-0:1" in
  let uri := sample_Uri "local://blk-0:1" in
  well_formed g
  /\ goog_Uri (env g) address = inr uri
  /\ settings_userName (globalScope (env g)) = inr (JsStr "guest")
  /\ validAddress uri = true
  /\ getScheme uri = "local"
  /\ exists g',
       connectToHost address g = Normal g'
       /\ pending g' = pending g
       /\ forall inputs, cancels (nextDeferred g) (run inputs g') = 0%nat.
Proof.
  cbv zeta.
  assert (H0 : goog_Uri (env (at_menu crowded_scope)) "local://blk-0:1"
               = inr (sample_Uri "local://blk-0:1"))
    by (vm_compute; reflexivity).
  assert (H1 : settings_userName (globalScope (env (at_menu crowded_scope)))
               = inr (JsStr "guest")) by (vm_compute; reflexivity).
  assert (H2 : validAddress (sample_Uri "local://blk-0:1") = true)
    by (vm_compute; reflexivity).
  assert (H3 : getScheme (sample_Uri "local://blk-0:1") = "local")
    by (vm_compute; reflexivity).
  split; [apply well_formed_at_menu|]. split; [exact H0|].
  split; [exact H1|]. split; [exact H2|]. split; [exact H3|].
  destruct (connectToHost_local_never_settles
              (at_menu crowded_scope) "local://blk-0:1"
              (sample_Uri "local://blk-0:1") (JsStr "guest")
              (well_formed_at_menu crowded_scope) H0 H1 H2 H3)
    as (g' & E & _ & P & _ & C).
  exists g'. split; [exact E|]. split; [exact P|exact C].
Defined.

Lemma connectToHost_error_leaves_dialog_witness :
  let g := at_menu bare_scope in
  well_formed g
  /\ goog_Uri (env g) "ws://host.example:80" =
       inr (sample_Uri "ws://host.example:80")
  /\ settings_userName (globalScope (env g)) = inl (ReferenceError "settings")
  /\ exists g',
       connectToHost "ws://host.example:80" g =
         Throw (ReferenceError "settings") g'
       /\ forall inputs, cancels (nextDeferred g) (run inputs g') = 0%nat.
Proof.
  cbv zeta.
  assert (H0 : goog_Uri (env (at_menu bare_scope)) "ws://host.example:80"
               = inr (sample_Uri "ws://host.example:80"))
    by (vm_compute; reflexivity).
  assert (H1 : settings_userName (globalScope (env (at_menu bare_scope)))
               = inl (ReferenceError "settings")) by (vm_compute; reflexivity).
  assert (H : match goog_Uri (env (at_menu bare_scope))
                      "ws://host.example:80" with
              | inl e' => e' = ReferenceError "settings"
              | inr _ =>
                  settings_userName (globalScope (env (at_menu bare_scope)))
                  = inl (ReferenceError "settings")
              end) by (rewrite H0; exact H1).
  split; [apply well_formed_at_menu|]. split; [exact H0|]. split; [exact H1|].
  destruct (connectToHost_error_leaves_dialog
              (at_menu bare_scope) "ws://host.example:80"
              (ReferenceError "settings")
              (well_formed_at_menu bare_scope) H)
    as (g' & E & _ & _ & C).
  exists g'. split; [exact E|exact C].
Defined.

(** The other error: the constructor throws, the dialog stays. *)
Example malformed_escape_leaves_dialog inputs :
  let g := at_menu crowded_scope in
  exists g',
    connectToHost "ws://%zz:80" g = Throw (URIError "URI malformed") g'
    /\ added g g' = [StatusScreen_showConnecting "ws://%zz:80" 2%nat]
    /\ cancels 2%nat (run inputs g') = 0%nat.
Proof.
  cbv zeta.
  assert (N : nextDeferred (at_menu crowded_scope) = 2%nat)
    by (vm_compute; reflexivity).
  assert (U : goog_Uri (env (at_menu crowded_scope)) "ws://%zz:80"
              = inl (URIError "URI malformed")) by (vm_compute; reflexivity).
  pose proof (well_formed_at_menu crowded_scope) as W.
  revert N U W. generalize (at_menu crowded_scope) as g. intros g N U W.
  assert (He : match goog_Uri (env g) "ws://%zz:80" with
               | inl e' => e' = URIError "URI malformed"
               | inr _ =>
                   settings_userName (globalScope (env g))
                   = inl (URIError "URI malformed")
               end) by (by rewrite U).
  pose proof (connectToHost_throw_eq g "ws://%zz:80" _ He) as E.
  pose proof (connectToHost_orphans g "ws://%zz:80" W) as O.
  rewrite E in O. simpl in O. specialize (O eq_refl ltac:(lia)).
  unfold calls_before_error in E, O. rewrite U in E, O.
  eexists. split; [exact E|].
  split; [rewrite <- N; by apply added_trace|].
  destruct (orphaned_run _ inputs _ O) as [_ H].
  rewrite <- N, H. erewrite cancels_trace by reflexivity.
  by rewrite cancels_fresh.
Qed.

(** ** No dialog is cancelled twice *)

(** Between [g] and [g']: no dialog was cancelled. *)
Lemma same_cancels_refl g : same_cancels g g.
Proof. by intros dl. Qed.

Lemma same_cancels_trans g1 g2 g3 :
  same_cancels g1 g2 -> same_cancels g2 g3 -> same_cancels g1 g3.
Proof. intros H1 H2 dl. by rewrite H2, H1. Qed.

Lemma same_cancels_plain e : plain e = true -> keeps same_cancels (emit e).
Proof.
  intros He g dl. simpl. erewrite cancels_trace by reflexivity.
  unfold count; simpl. rewrite (plain_not_cancel e dl He). simpl. lia.
Qed.

Lemma same_cancels_assert c : keeps same_cancels (assert c).
Proof. intros g. unfold assert. destruct (_ && _); apply same_cancels_refl. Qed.

Lemma same_cancels_set_inGame_ b :
  keeps same_cancels (fun g => Normal (set_inGame_ b g)).
Proof. by intros g dl. Qed.

Lemma same_cancels_returning (e : DeferredId -> Event) g :
  (forall d dl, is_cancel_of dl (e d) = false) ->
  same_cancels g (emit_returning e g).2.
Proof.
  intros He dl. simpl. erewrite cancels_trace by reflexivity.
  unfold count; simpl. rewrite He. simpl. lia.
Qed.

Lemma same_cancels_popup (screen : DeferredId -> Screen) k :
  is_popup k = true ->
  keeps same_cancels
    (fun g =>
       let '(d, g) :=
         emit_returning (fun d => ScreenManager_pushScreen (screen d)) g in
       register d k g).
Proof.
  intros _ g.
  apply (same_cancels_returning
           (fun d => ScreenManager_pushScreen (screen d)) g). done.
Qed.

(** The frame lemmas at [same_cancels]. *)
Abbreviation calmly L :=
  (L same_cancels same_cancels_refl same_cancels_trans same_cancels_plain
     same_cancels_assert same_cancels_set_inGame_ same_cancels_popup).

Lemma cancel_once_refl g : cancel_once g g.
Proof. intros dl. lia. Qed.

Lemma cancel_once_calm g : forall g', same_cancels g g' -> cancel_once g g'.
Proof. intros g' H dl. rewrite H. lia. Qed.

Lemma calm_then_once g1 g2 g3 :
  same_cancels g1 g2 -> cancel_once g2 g3 -> cancel_once g1 g3.
Proof. intros H1 H2 dl. rewrite <- H1. apply H2. Qed.

Lemma once_then_calm g1 g2 g3 :
  cancel_once g1 g2 -> same_cancels g2 g3 -> cancel_once g1 g3.
Proof. intros H1 H2 dl. rewrite H2. apply H1. Qed.

Lemma cancel_once_connectSettled a dl o :
  keeps cancel_once (connectSettled a dl o).
Proof.
  intros g dl'. destruct (connectSettled_effect a dl o g) as (_ & _ & C).
  rewrite C. destruct (Nat.eqb dl dl'); lia.
Qed.

Lemma plainly_same_cancels g0 g n : plainly g0 g n -> same_cancels g0 g.
Proof. intros (_ & _ & C). exact C. Qed.

Lemma cancel_once_connectWith address uri g g1 :
  plainly g g1 1 ->
  cancel_once g (state_of (connectWith address (nextDeferred g) uri g1)).
Proof.
  intros H1. unfold connectWith.
  assert (Attempt : forall deferred g2 name,
            plainly g g2 1 -> (forall d, deferred <> ChainedBehind d) ->
            cancel_once g
              (state_of
                 (let '(deferred', g3) :=
                    attemptConnection uri
                      (sanitizeDisplayName (env g2) name) deferred g2 in
                  match deferred' with
                  | Unfired => Normal g3
                  | Fired o => connectSettled address (nextDeferred g) o g3
                  | ChainedBehind d =>
                      register d (K_connect address (nextDeferred g)) g3
                  end))).
  { intros deferred g2 name H2 Hd.
    destruct (attemptConnection_effect uri
                (sanitizeDisplayName (env g2) name) deferred g g2 1 H2 Hd)
      as (m & H3 & _ & _).
    destruct (attemptConnection _ _ _ g2) as [deferred' g3]. simpl in *.
    apply plainly_same_cancels in H3.
    destruct deferred' as [|o|d].
    - by apply cancel_once_calm.
    - eapply calm_then_once; [exact H3|apply cancel_once_connectSettled].
    - by apply cancel_once_calm. }
  destruct (negb (validAddress uri)).
  - pose proof (plainly_event g g1 1
                  (ConnectDeferred_errback (InvalidAddress address))
                  eq_refl H1) as H2.
    set (g2 := set_trace _ g1) in *.
    destruct (settings_userName _) as [e|name].
    + by apply cancel_once_calm, (plainly_same_cancels g g2 1).
    + by apply Attempt.
  - destruct (settings_userName _) as [e|name].
    + by apply cancel_once_calm, (plainly_same_cancels g g1 1).
    + by apply Attempt.
Qed.

Lemma cancel_once_connectToHost address :
  keeps cancel_once (connectToHost address).
Proof.
  intros g. unfold connectToHost.
  pose proof (plainly_returning g g 0
                (StatusScreen_showConnecting address) (fun _ => eq_refl)) as H1.
  destruct (emit_returning _ g) as [dialog g1] eqn:E1.
  simpl in H1. specialize (H1 ltac:(split; [done|split; [lia|done]])).
  assert (dialog = nextDeferred g) as -> by (by injection E1 as <- _).
  destruct (goog_Uri (env g1) address) as [e|uri].
  - by apply cancel_once_calm, (plainly_same_cancels g g1 1).
  - by apply cancel_once_connectWith.
Qed.

Lemma cancel_once_setupSucceeded_ : keeps cancel_once setupSucceeded_.
Proof.
  intros g. rewrite ClientSessions.setupSucceeded__eq. cbv beta.
  eapply calm_then_once.
  - intros dl.
    rewrite (cancels_trace dl g
               (set_trace
                  (trace g ++ [ScreenManager_popAllScreens; StartTicking]) g)
               [ScreenManager_popAllScreens; StartTicking] eq_refl).
    unfold count; simpl. lia.
  - destruct (launchOptions_host _) as [host|].
    + destruct (negb _); [apply cancel_once_connectToHost|].
      apply cancel_once_calm, (calmly keeps_gotoMainMenuScreen).
    + apply cancel_once_calm, (calmly keeps_gotoMainMenuScreen).
Qed.

Lemma cancel_once_renderSetupSettled o :
  keeps cancel_once (renderSetupSettled o).
Proof.
  destruct o; simpl; [apply cancel_once_setupSucceeded_|].
  intros g. apply cancel_once_calm, (calmly keeps_setupFailed_).
Qed.

(** A setup step is called and callbacks are added to its deferred. *)
Lemma cancel_once_setup_step (e : DeferredId -> Event) returned k run g :
  (forall d dl, is_cancel_of dl (e d) = false) ->
  (forall o, keeps cancel_once (run o)) ->
  cancel_once g
    (state_of
       (let '(d, g) := emit_returning e g in
        addCallbacks returned d k run g)).
Proof.
  intros He Hrun.
  pose proof (same_cancels_returning e g He) as H.
  destruct (emit_returning e g) as [d g1]. simpl in H.
  unfold addCallbacks. destruct returned as [o|].
  - eapply calm_then_once; [exact H|apply Hrun].
  - by apply cancel_once_calm.
Qed.

Lemma cancel_once_graphicsSetupSettled o :
  keeps cancel_once (graphicsSetupSettled o).
Proof.
  destruct o as [v|arg]; simpl;
    [|intros g; apply cancel_once_calm, (calmly keeps_setupFailed_)].
  intros g.
  by apply (cancel_once_setup_step RenderState_setup
              (renderState_setup (env g)) K_renderSetup renderSetupSettled g);
    [|apply cancel_once_renderSetupSettled].
Qed.

Lemma cancel_once_beginSetup_ : keeps cancel_once beginSetup_.
Proof.
  intros g. unfold beginSetup_, seq, emit. simpl.
  eapply calm_then_once.
  - apply (same_cancels_plain (ScreenManager_setScreen SplashScreen) eq_refl g).
  - by apply (cancel_once_setup_step GraphicsContext_setup
                (graphicsContext_setup (env g)) K_graphicsSetup
                graphicsSetupSettled);
      [|apply cancel_once_graphicsSetupSettled].
Qed.

Lemma cancel_once_resume k o : keeps cancel_once (resume k o).
Proof.
  destruct k as [| |a dl| |]; simpl.
  - apply cancel_once_graphicsSetupSettled.
  - apply cancel_once_renderSetupSettled.
  - apply cancel_once_connectSettled.
  - destruct o; intros g; apply cancel_once_calm;
      [apply (calmly keeps_settingsPopupCallback)|apply same_cancels_refl].
  - intros g. apply cancel_once_calm, (calmly keeps_postPopup_).
Qed.

(** No input gets a dialog cancelled twice. *)
Lemma cancel_once_deliver i g : cancel_once g (state_of (deliver i g)).
Proof.
  destruct i as [d o| | | | |address|frame|frame| | | | |location message opt_arg|]; simpl.
  - destruct (pending g !! d) as [k|]; [|apply cancel_once_refl].
    eapply calm_then_once; [|apply cancel_once_resume]. by intros dl.
  - apply cancel_once_calm, (calmly keeps_toggleFullscreen).
  - apply cancel_once_calm, (calmly keeps_gotoMainMenuScreen).
  - apply cancel_once_calm, (calmly keeps_showSettingsPopup).
  - apply cancel_once_calm, (calmly keeps_showHelpPopup).
  - apply cancel_once_connectToHost.
  - by apply cancel_once_calm, (calmly keeps_public (Call_update frame)).
  - by apply cancel_once_calm, (calmly keeps_public (Call_render frame)).
  - by apply cancel_once_calm, (calmly keeps_public Call_playClick).
  - by apply cancel_once_calm,
      (calmly keeps_public Call_pushSinglePlayerMenuScreen).
  - by apply cancel_once_calm,
      (calmly keeps_public Call_pushMultiPlayerMenuScreen).
  - by apply cancel_once_calm,
      (calmly keeps_public Call_pushCreateMapMenuScreen).
  - by apply cancel_once_calm,
      (calmly keeps_public (Call_showErrorPopup location message opt_arg)).
  - by apply cancel_once_calm, (calmly keeps_public Call_disposeInternal).
Qed.

Lemma at_most_once_deliver i g :
  well_formed g ->
  (forall dl, (cancels dl g <= 1)%nat) ->
  forall dl, (cancels dl (state_of (deliver i g)) <= 1)%nat.
Proof.
  intros W H dl. destruct (cancels dl g) as [|n] eqn:C.
  - pose proof (cancel_once_deliver i g dl). lia.
  - assert (n = 0%nat) as -> by (specialize (H dl); lia).
    assert (S : settled dl g).
    { destruct W as (W1 & W2 & W3 & W4).
      split; [done|]. split; [|split; [|done]].
      - destruct (decide (dl < nextDeferred g)%nat) as [L|G]; [done|].
        rewrite W3 in C by lia. done.
      - intros d a Hp. apply W2 in Hp as [_ Hp]. by rewrite Hp in C. }
    destruct (settled_deliver dl i g S) as (_ & _ & _ & ->). done.
Qed.

(** X14: Over every run from a launch, no dialog is cancelled more than once:
    not the dialog of an attempt that was rejected inside [connectToHost],
    not that of an attempt whose outcome arrived later, not one shown for
    the launch host during setup. *)
Theorem no_dialog_is_cancelled_twice e host s fs sl inputs dl :
  (cancels dl (run inputs (state_of (new_ClientGame e host s fs sl))) <= 1)%nat.
Proof.
  assert (Run : forall inputs g,
            well_formed g -> (forall dl, (cancels dl g <= 1)%nat) ->
            forall dl, (cancels dl (run inputs g) <= 1)%nat).
  { clear. intros inputs. induction inputs as [|i rest IH]; intros g W H; [done|].
    simpl. apply IH.
    - by apply well_formed_deliver.
    - by apply at_most_once_deliver. }
  apply Run; [apply well_formed_launch|].
  intros dl'. unfold new_ClientGame.
  pose proof (cancel_once_beginSetup_
                (mkClientGame e s host false fs sl ∅ 0%nat []) dl') as H.
  exact H.
Qed.

End ClientConnections.

(* ===================================================================== *)
(** * Invariants of a session *)
(* ===================================================================== *)

Module ClientInvariants.
Import JS Client Samples ClientReadings MoreSamples ClientFacts.

(** ** Frames for the session handlers *)

Create HintDb sessions.

Lemma toggleFullscreen_eq g :
  toggleFullscreen g =
  Normal
    (set_trace
       (trace g ++ click g ++
        Display_toggleFullScreen ::
        if inGame_ g && negb (display_isFullScreen g)
           && mouse_supportsLocking g && mouseLock (settings g)
        then [Mouse_lock] else []) g).
Proof.
  unfold toggleFullscreen, seq. rewrite ClientSessions.playClick_eq.
  unfold and_then, emit, skip; cbv beta iota. simpl.
  destruct (inGame_ g && negb (display_isFullScreen g)
            && mouse_supportsLocking g && mouseLock (settings g));
    simpl; unfold set_trace; simpl; rewrite <- !app_assoc; reflexivity.
Qed.

Section Calls.

(** A relation that holds across every call of a class holds across any
    number of them. *)
Variable R : ClientGame -> ClientGame -> Prop.
Variable P : Event -> bool.
Hypothesis R_refl : forall g, R g g.
Hypothesis R_trans : forall g1 g2 g3, R g1 g2 -> R g2 g3 -> R g1 g3.
Hypothesis R_each : forall e g,
  P e = true -> R g (set_trace (trace g ++ [e]) g).

#[local] Set Default Proof Using "All".

Lemma calls_keep t : forall g,
  forallb P t = true -> R g (set_trace (trace g ++ t) g).
Proof.
  induction t as [|e t IH]; intros g H.
  - rewrite ClientSessions.set_trace_nil. apply R_refl.
  - simpl in H. apply andb_true_iff in H as [He Ht].
    eapply R_trans; [apply (R_each e g He)|].
    replace (set_trace (trace g ++ e :: t) g)
      with (set_trace (trace (set_trace (trace g ++ [e]) g) ++ t)
              (set_trace (trace g ++ [e]) g)); [by apply IH|].
    unfold set_trace; simpl. by rewrite <- app_assoc.
Qed.

End Calls.

Section Pointer.

(** A relation that holds across every call that is not a [lifecycle]
    call holds across the two methods that may lock the mouse. *)
Variable R : ClientGame -> ClientGame -> Prop.
Hypothesis R_refl : forall g, R g g.
Hypothesis R_trans : forall g1 g2 g3, R g1 g2 -> R g2 g3 -> R g1 g3.
Hypothesis R_any : forall e g,
  lifecycle e = false -> R g (set_trace (trace g ++ [e]) g).

#[local] Set Default Proof Using "All".

Lemma pointer_calls t g :
  forallb (fun e => negb (lifecycle e)) t = true ->
  R g (set_trace (trace g ++ t) g).
Proof.
  apply (calls_keep R (fun e => negb (lifecycle e)) R_refl R_trans).
  intros e g' He. apply R_any. by apply negb_true_iff.
Qed.

Lemma pointer_refreshSettings_ : keeps R refreshSettings_.
Proof.
  intros g. rewrite ClientSessions.refreshSettings__eq. simpl.
  apply pointer_calls. by destruct (inGame_ g && mouseLock (settings g)).
Qed.

Lemma pointer_toggleFullscreen : keeps R toggleFullscreen.
Proof.
  intros g. rewrite toggleFullscreen_eq. simpl.
  apply pointer_calls. unfold click.
  by destruct (soundFxMuted (settings g)),
       (inGame_ g && negb (display_isFullScreen g)
        && mouse_supportsLocking g && mouseLock (settings g)).
Qed.

End Pointer.

Section Sessions.

(** A relation between the game before and after a statement that holds
    across [incidental] calls, a deferred handed out, callbacks other than
    those of setup left waiting or taken off, the two methods that may lock
    the mouse, and the two ways into and out of a game. *)
Variable R : ClientGame -> ClientGame -> Prop.
Hypothesis R_refl : forall g, R g g.
Hypothesis R_trans : forall g1 g2 g3, R g1 g2 -> R g2 g3 -> R g1 g3.
Hypothesis R_call : forall e g,
  incidental e = true -> R g (set_trace (trace g ++ [e]) g).
Hypothesis R_next : forall g, R g (set_nextDeferred (S (nextDeferred g)) g).
Hypothesis R_wait : forall d k g,
  is_setup k = false -> R g (set_pending (<[d := k]> (pending g)) g).
Hypothesis R_done : forall d g, R g (set_pending (delete d (pending g)) g).
Hypothesis R_refresh : keeps R refreshSettings_.
Hypothesis R_toggle : keeps R toggleFullscreen.
Hypothesis R_menu : keeps R gotoMainMenuScreen.
Hypothesis R_game : forall session, keeps R (gotoGameScreen_ session).

#[local] Set Default Proof Using "All".

Lemma session_skip : keeps R skip.
Proof. intros g. apply R_refl. Qed.

Lemma session_emit e : incidental e = true -> keeps R (emit e).
Proof. intros He g. by apply R_call. Qed.

Lemma session_seq a b : keeps R a -> keeps R b -> keeps R (a >> b).
Proof.
  intros Ha Hb g. unfold seq. specialize (Ha g).
  destruct (a g) as [g1|e g1]; simpl in *; [|done].
  eapply R_trans; [exact Ha|apply Hb].
Qed.

Lemma session_returning (e : DeferredId -> Event) g :
  (forall d, incidental (e d) = true) -> R g (emit_returning e g).2.
Proof.
  intros He. eapply R_trans; [apply R_next|].
  apply (R_call (e (nextDeferred g))
           (set_nextDeferred (S (nextDeferred g)) g)), He.
Qed.

#[local] Hint Resolve session_seq session_skip : sessions.
#[local] Hint Extern 1 (keeps _ (emit _)) =>
  (apply session_emit; reflexivity) : sessions.

Lemma session_playClick : keeps R playClick.
Proof. unfold playClick. at_game g R_refl; auto with sessions. Qed.

Lemma session_popup_input b :
  keeps R (fun g => if isInGame g then emit (Input_setEnabled b) g
                    else Normal g).
Proof. at_game g R_refl; auto with sessions. Qed.

Lemma session_prePopup_ : keeps R prePopup_.
Proof.
  unfold prePopup_.
  auto using session_playClick, session_popup_input with sessions.
Qed.

Lemma session_postPopup_ : keeps R postPopup_.
Proof.
  unfold postPopup_.
  auto using session_playClick, session_popup_input with sessions.
Qed.

Lemma session_settingsPopupCallback v : keeps R (settingsPopupCallback v).
Proof.
  intros g. unfold settingsPopupCallback.
  destruct (GetIdentifier _ _) as [e|b]; [apply R_refl|].
  destruct (loose_eq_save b);
    apply session_seq;
    auto using R_refresh, session_postPopup_ with sessions.
Qed.

Lemma session_popup (screen : DeferredId -> Screen) k :
  is_popup k = true ->
  keeps R (fun g =>
             let '(d, g) :=
               emit_returning (fun d => ScreenManager_pushScreen (screen d)) g in
             register d k g).
Proof.
  intros Hk g.
  pose proof (session_returning
                (fun d => ScreenManager_pushScreen (screen d)) g
                (fun _ => eq_refl)) as H.
  destruct (emit_returning _ g) as [d g1]. simpl in *.
  eapply R_trans; [exact H|]. apply R_wait. by destruct k.
Qed.

Lemma session_showSettingsPopup : keeps R showSettingsPopup.
Proof.
  unfold showSettingsPopup. apply session_seq; [apply session_prePopup_|].
  by apply (session_popup SettingsScreen).
Qed.

Lemma session_showHelpPopup : keeps R showHelpPopup.
Proof.
  unfold showHelpPopup. apply session_seq; [apply session_prePopup_|].
  by apply (session_popup HelpScreen).
Qed.

Lemma session_connectSettled address dialog o :
  keeps R (connectSettled address dialog o).
Proof.
  destruct o; simpl;
    (apply session_seq; [by apply session_emit|]);
    (apply session_seq; [by apply session_emit|]);
    [apply R_game|by apply session_emit].
Qed.

Lemma session_attemptConnection uri dn deferred g :
  R g (attemptConnection uri dn deferred g).2.
Proof.
  unfold attemptConnection, connectToRemoteHost_, connectToLocalHost_.
  destruct (negb (hasFired deferred)); [|apply R_refl].
  destruct (String.eqb (getScheme uri) "ws").
  - pose proof (session_returning (Net_connect (toString uri) dn)
                  (set_trace (trace g ++ [InvokeConnector Remote uri]) g)
                  (fun _ => eq_refl)) as H.
    destruct (emit_returning _ _) as [d g1]. simpl in H.
    assert (H' : R g g1).
    { eapply R_trans; [|exact H]. by apply R_call. }
    by destruct (gf_net_connect _ _ _).
  - destruct (String.eqb (getScheme uri) "local"); simpl; by apply R_call.
Qed.

Lemma session_connectWith address dialog uri g g1 :
  R g g1 -> R g (state_of (connectWith address dialog uri g1)).
Proof.
  intros H1. unfold connectWith.
  assert (Settle : forall deferred g2 g3,
            R g g2 -> R g2 g3 ->
            R g
              (state_of
                 match deferred with
                 | Unfired => Normal g3
                 | Fired o => connectSettled address dialog o g3
                 | ChainedBehind d =>
                     register d (K_connect address dialog) g3
                 end)).
  { intros deferred g2 g3 H2 H3.
    eapply R_trans; [exact H2|].
    eapply R_trans; [exact H3|].
    destruct deferred as [|o|d].
    - apply R_refl.
    - apply session_connectSettled.
    - by apply R_wait. }
  destruct (negb (validAddress uri)).
  - set (g2 := set_trace _ g1).
    assert (H2 : R g g2).
    { eapply R_trans; [exact H1|]. subst g2. by apply R_call. }
    destruct (settings_userName _) as [e|name]; [exact H2|].
    pose proof (session_attemptConnection uri
                  (sanitizeDisplayName (env g2) name)
                  (Fired (Errback (InvalidAddress address))) g2) as H3.
    destruct (attemptConnection _ _ _ g2) as [deferred g3].
    by apply (Settle deferred g2 g3).
  - destruct (settings_userName _) as [e|name]; [exact H1|].
    pose proof (session_attemptConnection uri
                  (sanitizeDisplayName (env g1) name) Unfired g1) as H3.
    destruct (attemptConnection _ _ _ g1) as [deferred g3].
    by apply (Settle deferred g1 g3).
Qed.

Lemma session_connectToHost address : keeps R (connectToHost address).
Proof.
  intros g. unfold connectToHost.
  pose proof (session_returning (StatusScreen_showConnecting address) g
                (fun _ => eq_refl)) as H1.
  destruct (emit_returning _ g) as [dialog g1]. simpl in H1.
  destruct (goog_Uri (env g1) address) as [e|uri]; [exact H1|].
  by apply session_connectWith.
Qed.

Lemma session_assert c : keeps R (assert c).
Proof. intros g. unfold assert. destruct (_ && _); apply R_refl. Qed.

(** Callbacks other than those of a setup step. *)
Lemma session_resume k o : is_setup k = false -> keeps R (resume k o).
Proof.
  intros Hk. destruct k; simpl; try discriminate Hk.
  - apply session_connectSettled.
  - destruct o; [apply session_settingsPopupCallback|apply session_skip].
  - apply session_postPopup_.
Qed.

(** An input other than the outcome of a setup step. *)
Lemma session_deliver i g :
  (forall d o k, i = DeferredFired d o -> pending g !! d = Some k ->
                 is_setup k = false) ->
  R g (state_of (deliver i g)).
Proof.
  intros Hi. destruct i as [d o| | | | |address|frame|frame| | | | |location message opt_arg|]; simpl.
  - destruct (pending g !! d) as [k|] eqn:E; [|apply R_refl].
    eapply R_trans; [apply (R_done d)|].
    apply session_resume. by apply (Hi d o).
  - apply R_toggle.
  - apply R_menu.
  - apply session_showSettingsPopup.
  - apply session_showHelpPopup.
  - apply session_connectToHost.
  - by apply (session_emit (ScreenManager_update frame)).
  - by apply (session_emit (ScreenManager_render frame)).
  - apply session_playClick.
  - apply session_assert.
  - apply session_assert.
  - apply session_assert.
  - by apply (session_emit
                (StatusScreen_showError location message
                   (js_or opt_arg JsNull))).
  - by apply (session_emit Game_disposeInternal).
Qed.

End Sessions.

(** ** The in-game flag and the screen *)

Lemma last_screen_app t1 t2 :
  last_screen (t1 ++ t2) =
  fold_left
    (fun last e =>
       match e with ScreenManager_setScreen s => Some s | _ => last end)
    t2 (last_screen t1).
Proof. apply fold_left_app. Qed.

Lemma last_screen_other t e :
  is_setScreen e = false -> last_screen (t ++ [e]) = last_screen t.
Proof. intros He. rewrite last_screen_app. by destruct e. Qed.

Lemma sync_refl g : stays_in_sync g g.
Proof. by intros H. Qed.

Lemma sync_trans g1 g2 g3 :
  stays_in_sync g1 g2 -> stays_in_sync g2 g3 -> stays_in_sync g1 g3.
Proof. intros H1 H2 H. by apply H2, H1. Qed.

Lemma sync_other e g :
  is_setScreen e = false -> stays_in_sync g (set_trace (trace g ++ [e]) g).
Proof.
  intros He H. unfold in_sync in *. simpl. by rewrite last_screen_other.
Qed.

Lemma sync_any e g :
  lifecycle e = false -> stays_in_sync g (set_trace (trace g ++ [e]) g).
Proof. intros He. apply sync_other. by destruct e. Qed.

Lemma sync_call e g :
  incidental e = true -> stays_in_sync g (set_trace (trace g ++ [e]) g).
Proof. intros He. apply sync_other. by destruct e. Qed.

Lemma sync_next g :
  stays_in_sync g (set_nextDeferred (S (nextDeferred g)) g).
Proof. by intros H. Qed.

Lemma sync_pending p g : stays_in_sync g (set_pending p g).
Proof. by intros H. Qed.

Lemma sync_wait d k g :
  is_setup k = false ->
  stays_in_sync g (set_pending (<[d := k]> (pending g)) g).
Proof. intros _. apply sync_pending. Qed.

Lemma sync_done d g :
  stays_in_sync g (set_pending (delete d (pending g)) g).
Proof. apply sync_pending. Qed.

(** Both ways across the border of a game leave the flag and the screen
    in agreement, whatever they were. *)
Lemma in_sync_gotoMainMenuScreen g :
  in_sync (state_of (gotoMainMenuScreen g)).
Proof.
  unfold gotoMainMenuScreen, exitGame_, assert, seq, emit, skip, isInGame,
    in_sync.
  destruct (inGame_ g) eqn:E, (ENABLE_ASSERTS (env g)); simpl;
    rewrite ?E; simpl; rewrite last_screen_app; simpl; done.
Qed.

Lemma sync_menu : keeps stays_in_sync gotoMainMenuScreen.
Proof. intros g _. apply in_sync_gotoMainMenuScreen. Qed.

Lemma sync_game session : keeps stays_in_sync (gotoGameScreen_ session).
Proof.
  intros g H. revert H.
  unfold gotoGameScreen_, enterGame_, assert, seq, emit, isInGame, in_sync.
  destruct (inGame_ g) eqn:E, (ENABLE_ASSERTS (env g)); simpl;
    rewrite ?E; simpl; rewrite ?last_screen_app; simpl; done.
Qed.

(** The session frames at [stays_in_sync]. *)
Abbreviation in_step L :=
  (L stays_in_sync sync_refl sync_trans sync_call sync_next sync_wait
     sync_done
     (pointer_refreshSettings_ stays_in_sync sync_refl sync_trans sync_any)
     (pointer_toggleFullscreen stays_in_sync sync_refl sync_trans sync_any)
     sync_menu sync_game).

Lemma sync_emit e : is_setScreen e = false -> keeps stays_in_sync (emit e).
Proof. intros He g. by apply sync_other. Qed.

Lemma sync_seq a b :
  keeps stays_in_sync a -> keeps stays_in_sync b -> keeps stays_in_sync (a >> b).
Proof. apply (in_step session_seq). Qed.

Lemma sync_setupFailed_ m a : keeps stays_in_sync (setupFailed_ m a).
Proof.
  unfold setupFailed_, showErrorPopup.
  apply sync_seq; by apply sync_emit.
Qed.

Lemma sync_setupSucceeded_ : keeps stays_in_sync setupSucceeded_.
Proof.
  unfold setupSucceeded_.
  apply sync_seq; [by apply sync_emit|].
  apply sync_seq; [by apply sync_emit|].
  intros g. destruct (launchOptions_host g) as [host|].
  - destruct (negb _); [apply (in_step session_connectToHost)|apply sync_menu].
  - apply sync_menu.
Qed.

Lemma sync_renderSetupSettled o : keeps stays_in_sync (renderSetupSettled o).
Proof.
  destruct o; simpl; [apply sync_setupSucceeded_|apply sync_setupFailed_].
Qed.

(** A setup step is called and callbacks are added to its deferred. *)
Lemma sync_setup_step (e : DeferredId -> Event) returned k run g :
  (forall d, is_setScreen (e d) = false) ->
  (forall o, keeps stays_in_sync (run o)) ->
  stays_in_sync g
    (state_of
       (let '(d, g) := emit_returning e g in
        addCallbacks returned d k run g)).
Proof.
  intros He Hrun.
  assert (H : stays_in_sync g (emit_returning e g).2).
  { eapply sync_trans; [apply sync_next|].
    apply (sync_other (e (nextDeferred g))
             (set_nextDeferred (S (nextDeferred g)) g)), He. }
  destruct (emit_returning e g) as [d g1]. simpl in H.
  unfold addCallbacks. destruct returned as [o|].
  - eapply sync_trans; [exact H|apply Hrun].
  - eapply sync_trans; [exact H|apply sync_pending].
Qed.

Lemma sync_graphicsSetupSettled o :
  keeps stays_in_sync (graphicsSetupSettled o).
Proof.
  destruct o as [v|arg]; simpl; [|apply sync_setupFailed_].
  intros g.
  by apply (sync_setup_step RenderState_setup (renderState_setup (env g))
              K_renderSetup renderSetupSettled g);
    [|apply sync_renderSetupSettled].
Qed.

Lemma sync_deliver i g : stays_in_sync g (state_of (deliver i g)).
Proof.
  destruct i as [d o| | | | |address|frame|frame| | | | |location message opt_arg|];
    [|by apply (in_step session_deliver)..].
  simpl. destruct (pending g !! d) as [k|] eqn:E; [|apply sync_refl].
  eapply sync_trans; [apply (sync_done d)|].
  destruct k as [| |a dl| |];
    [apply sync_graphicsSetupSettled|apply sync_renderSetupSettled|..];
    by apply (in_step session_resume).
Qed.

Lemma in_sync_launch e host s fs sl :
  in_sync (state_of (new_ClientGame e host s fs sl)).
Proof.
  set (g1 := mkClientGame e s host false fs sl ∅ 0%nat
                [ScreenManager_setScreen SplashScreen]).
  change (in_sync
            (state_of
               (let '(d, g) := emit_returning GraphicsContext_setup g1 in
                addCallbacks (graphicsContext_setup e) d K_graphicsSetup
                  graphicsSetupSettled g))).
  apply (sync_setup_step GraphicsContext_setup (graphicsContext_setup e)
           K_graphicsSetup graphicsSetupSettled g1);
    [done|apply sync_graphicsSetupSettled|reflexivity].
Qed.

(** X15: Over every run from a launch, [isInGame()] holds exactly when the
    screen last given to [screenManager_.setScreen] is a game screen:
    the flag is raised only on the way to the game screen and lowered on
    every way to the main menu, and an assertion that fails on the way
    leaves both as they were. *)
Theorem isInGame_agrees_with_screen e host s fs sl inputs :
  in_sync (run inputs (state_of (new_ClientGame e host s fs sl))).
Proof.
  assert (Run : forall inputs g, in_sync g -> in_sync (run inputs g)).
  { clear. intros inputs.
    induction inputs as [|i rest IH]; intros g H; [done|].
    simpl. by apply IH, sync_deliver. }
  apply Run, in_sync_launch.
Qed.

(** ** Setup ends once *)

Lemma setup_ends_trace g g' t :
  trace g' = trace g ++ t ->
  setup_ends g' = (setup_ends g + count is_popAllScreens t)%nat.
Proof. intros H. unfold setup_ends. by rewrite H, count_app. Qed.

Lemma ticking_starts_trace g g' t :
  trace g' = trace g ++ t ->
  ticking_starts g' = (ticking_starts g + count is_StartTicking t)%nat.
Proof. intros H. unfold ticking_starts. by rewrite H, count_app. Qed.

Lemma setup_ends_added g t :
  setup_ends (set_trace (trace g ++ t) g) =
    (setup_ends g + count is_popAllScreens t)%nat.
Proof. by apply setup_ends_trace. Qed.

Lemma ticking_starts_added g t :
  ticking_starts (set_trace (trace g ++ t) g) =
    (ticking_starts g + count is_StartTicking t)%nat.
Proof. by apply ticking_starts_trace. Qed.

(** The counts of a game that differs by calls that end nothing. *)
Ltac ends_now :=
  unfold setup_ends, ticking_starts, count; simpl;
  rewrite ?List.filter_app, ?length_app; simpl; lia.

Lemma setup_quiet_refl g : setup_quiet g g.
Proof. by split; [|split]. Qed.

Lemma setup_quiet_trans g1 g2 g3 :
  setup_quiet g1 g2 -> setup_quiet g2 g3 -> setup_quiet g1 g3.
Proof.
  intros (H1 & T1 & K1) (H2 & T2 & K2).
  split; [congruence|]. split; [congruence|]. auto.
Qed.

(** A call that ends nothing. *)
Lemma setup_quiet_event e g :
  is_popAllScreens e = false -> is_StartTicking e = false ->
  setup_quiet g (set_trace (trace g ++ [e]) g).
Proof.
  intros H1 H2. split; [|split; [|done]].
  - rewrite setup_ends_added. unfold count; simpl. rewrite H1. simpl. lia.
  - rewrite ticking_starts_added. unfold count; simpl. rewrite H2. simpl. lia.
Qed.

Lemma setup_quiet_any e g :
  lifecycle e = false -> setup_quiet g (set_trace (trace g ++ [e]) g).
Proof. intros He. by apply setup_quiet_event; destruct e. Qed.

Lemma setup_quiet_call e g :
  incidental e = true -> setup_quiet g (set_trace (trace g ++ [e]) g).
Proof. intros He. by apply setup_quiet_event; destruct e. Qed.

Lemma setup_quiet_next g :
  setup_quiet g (set_nextDeferred (S (nextDeferred g)) g).
Proof. by split; [|split]. Qed.

Lemma setup_quiet_wait d k g :
  is_setup k = false ->
  setup_quiet g (set_pending (<[d := k]> (pending g)) g).
Proof.
  intros Hk. split; [done|]. split; [done|]. simpl. intros d' k' Hk' H.
  destruct (decide (d = d')) as [->|Hne].
  - rewrite lookup_insert_eq in H. injection H as ->. congruence.
  - by rewrite lookup_insert_ne in H.
Qed.

Lemma setup_quiet_done d g :
  setup_quiet g (set_pending (delete d (pending g)) g).
Proof.
  split; [done|]. split; [done|]. simpl. intros d' k' _ H.
  by apply lookup_delete_Some in H as [_ H].
Qed.

Lemma setup_quiet_menu : keeps setup_quiet gotoMainMenuScreen.
Proof.
  intros g. split; [|split].
  - unfold gotoMainMenuScreen, exitGame_, assert, seq, emit, skip, isInGame.
    destruct (inGame_ g) eqn:E, (ENABLE_ASSERTS (env g)); simpl;
      rewrite ?E; simpl; ends_now.
  - unfold gotoMainMenuScreen, exitGame_, assert, seq, emit, skip, isInGame.
    destruct (inGame_ g) eqn:E, (ENABLE_ASSERTS (env g)); simpl;
      rewrite ?E; simpl; ends_now.
  - unfold gotoMainMenuScreen, exitGame_, assert, seq, emit, skip, isInGame.
    destruct (inGame_ g) eqn:E, (ENABLE_ASSERTS (env g)); simpl;
      rewrite ?E; simpl; done.
Qed.

Lemma setup_quiet_game session : keeps setup_quiet (gotoGameScreen_ session).
Proof.
  intros g. split; [|split].
  - unfold gotoGameScreen_, enterGame_, assert, seq, emit, isInGame.
    destruct (inGame_ g) eqn:E, (ENABLE_ASSERTS (env g)); simpl;
      rewrite ?E; simpl; try done; ends_now.
  - unfold gotoGameScreen_, enterGame_, assert, seq, emit, isInGame.
    destruct (inGame_ g) eqn:E, (ENABLE_ASSERTS (env g)); simpl;
      rewrite ?E; simpl; try done; ends_now.
  - unfold gotoGameScreen_, enterGame_, assert, seq, emit, isInGame.
    destruct (inGame_ g) eqn:E, (ENABLE_ASSERTS (env g)); simpl;
      rewrite ?E; simpl; done.
Qed.

(** The session frames at [setup_quiet]. *)
Abbreviation after_setup L :=
  (L setup_quiet setup_quiet_refl setup_quiet_trans setup_quiet_call
     setup_quiet_next setup_quiet_wait setup_quiet_done
     (pointer_refreshSettings_ setup_quiet setup_quiet_refl setup_quiet_trans
        setup_quiet_any)
     (pointer_toggleFullscreen setup_quiet setup_quiet_refl setup_quiet_trans
        setup_quiet_any)
     setup_quiet_menu setup_quiet_game).

Lemma setup_quiet_waits g g' d :
  setup_quiet g g' -> setup_waits d g' -> setup_waits d g.
Proof.
  intros (_ & _ & P) (k & Hk & Hs). exists k. split; [by apply P|done].
Qed.

Lemma setup_quiet_over g g' : setup_quiet g g' -> setup_over g -> setup_over g'.
Proof.
  intros Q (H & T & N). pose proof Q as (E1 & E2 & _).
  split; [by rewrite E1|]. split; [by rewrite E1, E2|].
  intros d W. by apply (N d), (setup_quiet_waits g g').
Qed.

Lemma setup_quiet_failed g g' :
  setup_quiet g g' -> setup_failed g -> setup_failed g'.
Proof.
  intros Q (H & T & N). pose proof Q as (E1 & E2 & _).
  split; [by rewrite E1|]. split; [by rewrite E2|].
  intros d W. by apply (N d), (setup_quiet_waits g g').
Qed.

Lemma setup_quiet_phase g g' :
  setup_quiet g g' -> setup_phase g -> setup_phase g'.
Proof.
  intros Q [(H & T & U)|O]; [left|right; by apply (setup_quiet_over g)].
  pose proof Q as (E1 & E2 & _).
  split; [by rewrite E1|]. split; [by rewrite E2|].
  intros d1 d2 H1 H2. apply U; by apply (setup_quiet_waits g g').
Qed.

Lemma setup_failed_over g : setup_failed g -> setup_over g.
Proof. intros (H & T & N). split; [lia|]. split; [lia|done]. Qed.

Lemma setup_failed_setupFailed_ m a g :
  setup_between g -> setup_failed (state_of (setupFailed_ m a g)).
Proof.
  intros (H & T & N). rewrite setupFailed__eq. simpl.
  split; [|split; [|exact N]].
  - rewrite setup_ends_added, H. unfold count; simpl. lia.
  - rewrite ticking_starts_added, T. unfold count; simpl. lia.
Qed.

Lemma setup_over_setupFailed_ m a g :
  setup_between g -> setup_over (state_of (setupFailed_ m a g)).
Proof. intros B. by apply setup_failed_over, setup_failed_setupFailed_. Qed.

Lemma setup_over_setupSucceeded_ g :
  setup_between g -> setup_over (state_of (setupSucceeded_ g)).
Proof.
  intros (H & T & N). rewrite ClientSessions.setupSucceeded__eq. cbv beta.
  set (g1 := set_trace _ g).
  assert (O : setup_over g1).
  { subst g1. split; [|split; [|exact N]].
    - rewrite setup_ends_added, H. unfold count; simpl. lia.
    - rewrite setup_ends_added, ticking_starts_added, H, T.
      unfold count; simpl. lia. }
  assert (Q : setup_quiet g1
                (state_of
                   match launchOptions_host g1 with
                   | Some host =>
                       if negb (String.eqb host "") then connectToHost host g1
                       else gotoMainMenuScreen g1
                   | None => gotoMainMenuScreen g1
                   end)).
  { destruct (launchOptions_host g1) as [host|].
    - destruct (negb _);
        [apply (after_setup session_connectToHost)|apply setup_quiet_menu].
    - apply setup_quiet_menu. }
  by apply (setup_quiet_over g1).
Qed.

Lemma setup_over_renderSetupSettled o g :
  setup_between g -> setup_over (state_of (renderSetupSettled o g)).
Proof.
  destruct o; simpl;
    [apply setup_over_setupSucceeded_|apply setup_over_setupFailed_].
Qed.

(** A setup step is called from a game between two steps, and callbacks
    are added to its deferred. *)
Lemma setup_phase_step (e : DeferredId -> Event) returned k run g :
  (forall d, is_popAllScreens (e d) = false) ->
  (forall d, is_StartTicking (e d) = false) ->
  (forall o g, setup_between g -> setup_phase (state_of (run o g))) ->
  setup_between g ->
  setup_phase
    (state_of
       (let '(d, g) := emit_returning e g in
        addCallbacks returned d k run g)).
Proof.
  intros He1 He2 Hrun (H & T & N).
  assert (B : setup_between (emit_returning e g).2).
  { split; [|split; [|exact N]].
    - rewrite (setup_ends_trace g (emit_returning e g).2 [e (nextDeferred g)]
                 eq_refl), H.
      unfold count; simpl. rewrite He1. simpl. lia.
    - rewrite (ticking_starts_trace g (emit_returning e g).2
                 [e (nextDeferred g)] eq_refl), T.
      unfold count; simpl. rewrite He2. simpl. lia. }
  destruct (emit_returning e g) as [d g1]. simpl in B.
  unfold addCallbacks. destruct returned as [o|].
  - by apply Hrun.
  - left. destruct B as (H1 & T1 & N1). split; [exact H1|]. split; [exact T1|].
    assert (Only : forall d', setup_waits d' (state_of (register d k g1)) ->
                              d' = d).
    { intros d' (k' & Hk & Hs). simpl in Hk.
      destruct (decide (d = d')) as [->|Hne]; [done|].
      rewrite lookup_insert_ne in Hk by done.
      destruct (N1 d'). by exists k'. }
    intros d1 d2 W1 W2. by rewrite (Only d1 W1), (Only d2 W2).
Qed.

Lemma setup_phase_graphicsSetupSettled o g :
  setup_between g -> setup_phase (state_of (graphicsSetupSettled o g)).
Proof.
  intros B. destruct o as [v|arg]; simpl;
    [|right; by apply setup_over_setupFailed_].
  by apply (setup_phase_step RenderState_setup (renderState_setup (env g))
              K_renderSetup renderSetupSettled g);
    [| |intros o' g' B'; right; apply setup_over_renderSetupSettled|].
Qed.

(** An input is the outcome of a setup step that waits, or not. *)
Lemma setup_outcome_or_not i g :
  (exists d o k, i = DeferredFired d o /\ pending g !! d = Some k
                 /\ is_setup k = true)
  \/ (forall d o k, i = DeferredFired d o -> pending g !! d = Some k ->
                    is_setup k = false).
Proof.
  destruct i as [d o| | | | |address|frame|frame| | | | |location message opt_arg|]; try (right; discriminate).
  destruct (pending g !! d) as [k|] eqn:E;
    [|right; intros ? ? ? [= <- <-]; by rewrite E].
  destruct (is_setup k) eqn:Hk.
  - left. by exists d, o, k.
  - right. intros ? ? ? [= <- <-]. rewrite E. by intros [= <-].
Qed.

(** The outcome of the setup step that waits is taken: the game is
    between two steps. *)
Lemma setup_between_taken d g :
  setup_phase g -> setup_waits d g ->
  setup_between (set_pending (delete d (pending g)) g).
Proof.
  intros Ph (k & Hd & Hk).
  destruct Ph as [(H & T & U)|(_ & _ & N)]; [|destruct (N d); by exists k].
  split; [exact H|]. split; [exact T|].
  intros d' (k' & Hk' & Hs'). simpl in Hk'.
  apply lookup_delete_Some in Hk' as [Hne Hk'].
  destruct Hne. apply U; [by exists k|by exists k'].
Qed.

Lemma setup_phase_deliver i g :
  setup_phase g -> setup_phase (state_of (deliver i g)).
Proof.
  intros Ph.
  destruct (setup_outcome_or_not i g) as [(d & o & k & -> & Hd & Hk)|Hn];
    [|apply (setup_quiet_phase g);
      [by apply (after_setup session_deliver)|exact Ph]].
  assert (B : setup_between (set_pending (delete d (pending g)) g)).
  { apply setup_between_taken; [exact Ph|by exists k]. }
  simpl. rewrite Hd.
  destruct k; try discriminate Hk; simpl.
  - by apply setup_phase_graphicsSetupSettled.
  - right. by apply setup_over_renderSetupSettled.
Qed.

Lemma setup_phase_run inputs : forall g,
  setup_phase g -> setup_phase (run inputs g).
Proof.
  induction inputs as [|i rest IH]; intros g H; [done|].
  simpl. by apply IH, setup_phase_deliver.
Qed.

(** The failure of the setup step that waits ends setup in
    [setupFailed_]. *)
Lemma setup_failed_deliver d arg g :
  setup_phase g -> setup_waits d g ->
  setup_failed (state_of (deliver (DeferredFired d (Errback arg)) g)).
Proof.
  intros Ph W.
  pose proof (setup_between_taken d g Ph W) as B.
  destruct W as (k & Hd & Hk). simpl. rewrite Hd.
  destruct k; try discriminate Hk;
    exact (setup_failed_setupFailed_ _ arg _ B).
Qed.

(** Once setup has failed, it stays so. *)
Lemma setup_failed_run inputs : forall g,
  setup_failed g -> setup_failed (run inputs g).
Proof.
  induction inputs as [|i rest IH]; intros g F; [done|].
  simpl. apply IH, (setup_quiet_failed g); [|exact F].
  apply (after_setup session_deliver).
  intros d o k -> Hd. destruct (is_setup k) eqn:Hk; [|done].
  destruct F as (_ & _ & N). destruct (N d). by exists k.
Qed.

Lemma setup_phase_launch e host s fs sl :
  setup_phase (state_of (new_ClientGame e host s fs sl)).
Proof.
  set (g1 := mkClientGame e s host false fs sl ∅ 0%nat
                [ScreenManager_setScreen SplashScreen]).
  change (setup_phase
            (state_of
               (let '(d, g) := emit_returning GraphicsContext_setup g1 in
                addCallbacks (graphicsContext_setup e) d K_graphicsSetup
                  graphicsSetupSettled g))).
  apply (setup_phase_step GraphicsContext_setup (graphicsContext_setup e)
           K_graphicsSetup graphicsSetupSettled g1);
    [done|done|apply setup_phase_graphicsSetupSettled|].
  split; [reflexivity|]. split; [reflexivity|].
  intros d (k & Hk & _). simpl in Hk.
  by rewrite lookup_empty in Hk.
Qed.

(** X16: Setup ends at most once per launch, whatever public methods are
    called meanwhile, [showErrorPopup] among them.  The end of setup is
    read off [screenManager_.popAllScreens()], the first statement of both
    [setupSucceeded_] and [setupFailed_].  Over every run from a launch:
    - setup has ended at most once, and [startTicking()] has been called
      at most as often as setup has ended, so at most once;
    - while callbacks of a setup step still wait, setup has not ended,
      ticking has not started, and they wait on one deferred only;
    - if one of the inputs is the failure of the setup step that waited
      for it, setup has ended once and ticking is never started, whatever
      follows. *)
Theorem setup_ends_at_most_once e host s fs sl inputs :
  let g0 := state_of (new_ClientGame e host s fs sl) in
  let g := run inputs g0 in
  (setup_ends g <= 1)%nat
  /\ (ticking_starts g <= setup_ends g)%nat
  /\ (forall d, setup_waits d g ->
        setup_ends g = 0%nat /\ ticking_starts g = 0%nat
        /\ forall d', setup_waits d' g -> d' = d)
  /\ (forall before d arg after,
        inputs = before ++ DeferredFired d (Errback arg) :: after ->
        setup_waits d (run before g0) ->
        setup_ends g = 1%nat /\ ticking_starts g = 0%nat).
Proof.
  cbv zeta.
  pose proof (setup_phase_launch e host s fs sl) as P0.
  split; [|split; [|split]].
  - destruct (setup_phase_run inputs _ P0) as [(H & T & U)|(H & T & N)]; lia.
  - destruct (setup_phase_run inputs _ P0) as [(H & T & U)|(H & T & N)]; lia.
  - intros d Hd.
    destruct (setup_phase_run inputs _ P0) as [(H & T & U)|(H & T & N)];
      [|by destruct (N d)].
    split; [done|]. split; [done|]. intros d' Hd'. by apply U.
  - intros before d arg after -> W.
    rewrite run_app. simpl.
    destruct (setup_failed_run after _
                (setup_failed_deliver d arg _
                   (setup_phase_run before _ P0) W)) as (H & T & _).
    done.
Qed.

Lemma setup_ends_at_most_once_witness :
  let popup := Call_showErrorPopup "networking" "connection lost" JsNull in
  let failure := DeferredFired 0%nat (Errback (JsStr "no WebGL")) in
  let g :=
    run ([popup] ++ failure :: [popup; Call_toggleFullscreen])
      (launched bare_scope) in
  setup_waits 0%nat (run [popup] (launched bare_scope))
  /\ setup_ends g = 1%nat
  /\ ticking_starts g = 0%nat.
Proof.
  cbv zeta.
  assert (W : setup_waits 0%nat
                (run [Call_showErrorPopup "networking" "connection lost" JsNull]
                   (launched bare_scope))).
  { exists K_graphicsSetup. split; vm_compute; reflexivity. }
  split; [exact W|].
  exact (proj2 (proj2 (proj2
           (setup_ends_at_most_once (sample_env bare_scope) None
              sample_settings false true
              ([Call_showErrorPopup "networking" "connection lost" JsNull] ++
               DeferredFired 0%nat (Errback (JsStr "no WebGL")) ::
               [Call_showErrorPopup "networking" "connection lost" JsNull;
                Call_toggleFullscreen]))))
           [Call_showErrorPopup "networking" "connection lost" JsNull]
           0%nat (JsStr "no WebGL")
           [Call_showErrorPopup "networking" "connection lost" JsNull;
            Call_toggleFullscreen]
           eq_refl W).
Defined.

(** An error popup shown from outside is no end of setup: after a launch
    that succeeded and one such call, setup has ended once and ticking has
    started once. *)
Example error_popup_is_no_setup_end :
  let g :=
    run [Call_showErrorPopup "networking" "connection lost" JsNull]
      (at_menu bare_scope) in
  setup_ends g = 1%nat
  /\ ticking_starts g = 1%nat
  /\ added (at_menu bare_scope) g =
       [StatusScreen_showError "networking" "connection lost" JsNull].
Proof. cbv zeta. split; [|split]; vm_compute; reflexivity. Qed.

(** ** The mouse is locked only in a game *)

Lemma watch_app t1 t2 : watch (t1 ++ t2) = fold_left watch_step t2 (watch t1).
Proof. apply fold_left_app. Qed.

Lemma watch_screen t : (watch t).1 = last_screen t.
Proof.
  unfold watch, last_screen. generalize (@None Screen) 0%nat.
  induction t as [|e t IH]; intros sc n; [done|].
  simpl. destruct e; simpl; apply IH.
Qed.

(** [g'] has the flag [b] and the trace of [g] followed by [t]. *)
Lemma guarded_after g g' b t :
  guarded g ->
  inGame_ g' = b -> trace g' = trace g ++ t ->
  (let seen := fold_left watch_step t (last_screen (trace g), 0%nat) in
   b = is_GameScreen seen.1 /\ seen.2 = 0%nat) ->
  guarded g'.
Proof.
  unfold guarded, in_sync, locks_outside_game.
  intros [_ L] Hb Ht. rewrite Hb, Ht, <- !watch_screen, watch_app.
  destruct (watch (trace g)) as [sc n].
  simpl in L. subst n. cbv zeta. simpl. intros H. exact H.
Qed.

Lemma guarded_flag g : guarded g -> inGame_ g = is_GameScreen (last_screen (trace g)).
Proof. by intros [H _]. Qed.

Lemma guard_refl g : stays_guarded g g.
Proof. by intros H. Qed.

Lemma guard_trans g1 g2 g3 :
  stays_guarded g1 g2 -> stays_guarded g2 g3 -> stays_guarded g1 g3.
Proof. intros H1 H2 H. by apply H2, H1. Qed.

(** A call that neither sets a screen nor locks the mouse. *)
Lemma guard_other e g :
  is_setScreen e = false -> is_Mouse_lock e = false ->
  stays_guarded g (set_trace (trace g ++ [e]) g).
Proof.
  intros H1 H2 G.
  apply (guarded_after g _ (inGame_ g) [e] G); [done|done|].
  cbv zeta. rewrite (guarded_flag g G). by destruct e.
Qed.

Lemma guard_call e g :
  incidental e = true -> stays_guarded g (set_trace (trace g ++ [e]) g).
Proof. intros He. by apply guard_other; destruct e. Qed.

Lemma guard_next g :
  stays_guarded g (set_nextDeferred (S (nextDeferred g)) g).
Proof. by intros H. Qed.

Lemma guard_pending p g : stays_guarded g (set_pending p g).
Proof. by intros H. Qed.

Lemma guard_wait d k g :
  is_setup k = false ->
  stays_guarded g (set_pending (<[d := k]> (pending g)) g).
Proof. intros _. apply guard_pending. Qed.

Lemma guard_done d g :
  stays_guarded g (set_pending (delete d (pending g)) g).
Proof. apply guard_pending. Qed.

(** [refreshSettings_] locks the mouse only when the flag is raised. *)
Lemma guard_refresh : keeps stays_guarded refreshSettings_.
Proof.
  intros g G. rewrite ClientSessions.refreshSettings__eq. simpl.
  eapply (guarded_after g _ (inGame_ g)); [exact G|done|reflexivity|].
  cbv zeta. rewrite (guarded_flag g G).
  destruct (last_screen (trace g)) as [[]|], (mouseLock (settings g)); done.
Qed.

(** So does [toggleFullscreen]. *)
Lemma guard_toggle : keeps stays_guarded toggleFullscreen.
Proof.
  intros g G. rewrite toggleFullscreen_eq. simpl.
  eapply (guarded_after g _ (inGame_ g)); [exact G|done|reflexivity|].
  cbv zeta. rewrite (guarded_flag g G). unfold click.
  destruct (last_screen (trace g)) as [[]|], (soundFxMuted (settings g)),
    (display_isFullScreen g), (mouse_supportsLocking g),
    (mouseLock (settings g)); done.
Qed.

Lemma guard_menu : keeps stays_guarded gotoMainMenuScreen.
Proof.
  intros g G.
  destruct (ClientSessions.gotoMainMenuScreen_eq g) as [g' [E [F T]]].
  rewrite E. simpl.
  apply (guarded_after g g' false [ScreenManager_setScreen MainMenuScreen] G);
    done.
Qed.

Lemma guard_game session : keeps stays_guarded (gotoGameScreen_ session).
Proof.
  intros g G.
  unfold gotoGameScreen_, enterGame_, assert, seq, emit, isInGame.
  destruct (ENABLE_ASSERTS (env g) && negb (negb (inGame_ g))); simpl;
    [exact G|].
  eapply (guarded_after g _ true); [exact G|done|reflexivity|done].
Qed.

(** The session frames at [stays_guarded]. *)
Abbreviation on_guard L :=
  (L stays_guarded guard_refl guard_trans guard_call guard_next guard_wait
     guard_done guard_refresh guard_toggle guard_menu guard_game).

Lemma guard_emit e :
  is_setScreen e = false -> is_Mouse_lock e = false ->
  keeps stays_guarded (emit e).
Proof. intros H1 H2 g. by apply guard_other. Qed.

Lemma guard_seq a b :
  keeps stays_guarded a -> keeps stays_guarded b -> keeps stays_guarded (a >> b).
Proof. apply (on_guard session_seq). Qed.

Lemma guard_setupFailed_ m a : keeps stays_guarded (setupFailed_ m a).
Proof.
  unfold setupFailed_, showErrorPopup.
  apply guard_seq; by apply guard_emit.
Qed.

Lemma guard_setupSucceeded_ : keeps stays_guarded setupSucceeded_.
Proof.
  unfold setupSucceeded_.
  apply guard_seq; [by apply guard_emit|].
  apply guard_seq; [by apply guard_emit|].
  intros g. destruct (launchOptions_host g) as [host|].
  - destruct (negb _); [apply (on_guard session_connectToHost)|apply guard_menu].
  - apply guard_menu.
Qed.

Lemma guard_renderSetupSettled o : keeps stays_guarded (renderSetupSettled o).
Proof.
  destruct o; simpl; [apply guard_setupSucceeded_|apply guard_setupFailed_].
Qed.

Lemma guard_setup_step (e : DeferredId -> Event) returned k run g :
  (forall d, is_setScreen (e d) = false) ->
  (forall d, is_Mouse_lock (e d) = false) ->
  (forall o, keeps stays_guarded (run o)) ->
  stays_guarded g
    (state_of
       (let '(d, g) := emit_returning e g in
        addCallbacks returned d k run g)).
Proof.
  intros He1 He2 Hrun.
  assert (H : stays_guarded g (emit_returning e g).2).
  { eapply guard_trans; [apply guard_next|].
    apply (guard_other (e (nextDeferred g))
             (set_nextDeferred (S (nextDeferred g)) g)); [apply He1|apply He2]. }
  destruct (emit_returning e g) as [d g1]. simpl in H.
  unfold addCallbacks. destruct returned as [o|].
  - eapply guard_trans; [exact H|apply Hrun].
  - eapply guard_trans; [exact H|apply guard_pending].
Qed.

Lemma guard_graphicsSetupSettled o :
  keeps stays_guarded (graphicsSetupSettled o).
Proof.
  destruct o as [v|arg]; simpl; [|apply guard_setupFailed_].
  intros g.
  by apply (guard_setup_step RenderState_setup (renderState_setup (env g))
              K_renderSetup renderSetupSettled g);
    [| |apply guard_renderSetupSettled].
Qed.

Lemma guard_deliver i g : stays_guarded g (state_of (deliver i g)).
Proof.
  destruct i as [d o| | | | |address|frame|frame| | | | |location message opt_arg|];
    [|by apply (on_guard session_deliver)..].
  simpl. destruct (pending g !! d) as [k|] eqn:E; [|apply guard_refl].
  eapply guard_trans; [apply (guard_done d)|].
  destruct k as [| |a dl| |];
    [apply guard_graphicsSetupSettled|apply guard_renderSetupSettled|..];
    by apply (on_guard session_resume).
Qed.

Lemma guarded_launch e host s fs sl :
  guarded (state_of (new_ClientGame e host s fs sl)).
Proof.
  set (g1 := mkClientGame e s host false fs sl ∅ 0%nat
                [ScreenManager_setScreen SplashScreen]).
  change (guarded
            (state_of
               (let '(d, g) := emit_returning GraphicsContext_setup g1 in
                addCallbacks (graphicsContext_setup e) d K_graphicsSetup
                  graphicsSetupSettled g))).
  apply (guard_setup_step GraphicsContext_setup (graphicsContext_setup e)
           K_graphicsSetup graphicsSetupSettled g1);
    [done|done|apply guard_graphicsSetupSettled|].
  split; reflexivity.
Qed.

(** X17: Over every run from a launch, [mouse.lock()] is never called while
    the screen last set is not a game screen: [refreshSettings_] and
    [toggleFullscreen], the two methods that lock the mouse, do so only
    when the in-game flag is raised, and the flag is raised only with the
    game screen set. *)
Theorem mouse_locked_only_in_game e host s fs sl inputs :
  locks_outside_game
    (trace (run inputs (state_of (new_ClientGame e host s fs sl)))) = 0%nat.
Proof.
  assert (Run : forall inputs g, guarded g -> guarded (run inputs g)).
  { clear. intros inputs.
    induction inputs as [|i rest IH]; intros g H; [done|].
    simpl. by apply IH, guard_deliver. }
  apply (Run inputs _ (guarded_launch e host s fs sl)).
Qed.

(** ** Concrete runs *)

(** Going fullscreen in a game locks the mouse, under the game screen. *)
Example fullscreen_in_game_locks_the_mouse :
  let g := run [Call_toggleFullscreen] playing in
  added playing g =
    [PlayAmbient "click"; Display_toggleFullScreen; Mouse_lock]
  /\ locks_outside_game (trace g) = 0%nat.
Proof. cbv zeta. split; vm_compute; reflexivity. Qed.

(** A lock under the main menu would be counted. *)
Example lock_under_menu_is_counted :
  locks_outside_game
    [ScreenManager_setScreen MainMenuScreen; Mouse_lock] = 1%nat.
Proof. reflexivity. Qed.

(** The game of [playing] went through one setup and one connection. *)
Example playing_is_in_sync :
  isInGame playing = true
  /\ last_screen (trace playing) = Some (GameScreen (JsStr "session"))
  /\ setup_ends playing = 1%nat
  /\ cancels 2%nat playing = 1%nat.
Proof. split; [|split; [|split]]; vm_compute; reflexivity. Qed.

End ClientInvariants.

